(** * foure-level: terrain generation, tactical scoring and map compression

    A shallow embedding of
    - [src/generators/terrain-generator.ts] (class [TerrainGenerator]),
    - [src/generators/encounter-balancer.ts] (the tactical scorer of
      [EncounterBalancer]),
    - [src/types/terrain.ts] (the terrain table and [TerrainUtils]),
    - [src/utils/map-compression.ts] (class [MapCompression]),
    and the properties the specification states about them.

    Numbers.  Grid sizes, coordinates, counts and the state of the seeded
    stream are integers well below 2^53, on which the arithmetic of a
    JavaScript number is exact: they are [Z].  A draw of the stream is the
    quotient [s / m]; it is kept as the exact rational ([Q]).  JavaScript's
    [%] is the truncated remainder, [Z.rem]; [Math.floor (a / 2)] on
    integers is [Z.div]. *)

From Stdlib Require Import ZArith QArith Qround Lia List String Ascii Bool.
From Stdlib Require Import Decimal DecimalString DecimalN Sorted.
From stdpp Require Import gmap strings list list_numbers.

Local Open Scope string_scope.
Local Open Scope list_scope.
Local Open Scope Z_scope.

(** ** Outcomes of a JavaScript call *)

Inductive error : Type :=
| TypeError    (* a property of [undefined] was read or written *)
| RangeError.  (* [Array(n)] with an invalid length *)

(** [OutOfFuel] is not an outcome of the program: it marks a run of the
    model whose recursion budget was too small. *)
Inductive result (A : Type) : Type :=
| Ok (a : A)
| Throw (e : error)
| OutOfFuel.
Arguments Ok {A} a.
Arguments Throw {A} e.
Arguments OutOfFuel {A}.

Definition is_done {A} (r : result A) : bool :=
  match r with OutOfFuel => false | _ => true end.

Definition throws {A} (r : result A) : Prop := exists e, r = Throw e.

(** ** The seeded stream: [TerrainGenerator.seededRandom] *)

Module Rng.

Definition m : Z := 2 ^ 35 - 31.
Definition a : Z := 185852.

(** [let s = seed % m]: the closure's captured state. *)
Definition seededRandom (seed : Z) : Z := Z.rem seed m.

(** One call of the returned function:
    [return (s = (s * a) % m) / m]. *)
Definition next (s : Z) : Q * Z :=
  let s' := Z.rem (s * a) m in
  (Qmake s' (Z.to_pos m), s').

(** The state after [n] calls and the value the [n]-th call returns
    (calls are numbered from 1). *)
Fixpoint state_after (n : nat) (s : Z) : Z :=
  match n with
  | O => s
  | S n' => snd (next (state_after n' s))
  end.

Definition output (n : nat) (s : Z) : Q :=
  match n with
  | O => 0%Q
  | S n' => fst (next (state_after n' s))
  end.

(** The first [n] values drawn from a generator in state [s]. *)
Fixpoint draws (n : nat) (s : Z) : list Q :=
  match n with
  | O => []
  | S n' => let '(r, s') := next s in r :: draws n' s'
  end.

End Rng.

(** ** Computations that draw from the stream and may throw *)

Definition M (A : Type) : Type := Z -> result (A * Z).

Definition ret {A} (x : A) : M A := fun s => Ok (x, s).

Definition bind {A B} (c : M A) (k : A -> M B) : M B :=
  fun s =>
    match c s with
    | Ok (x, s') => k x s'
    | Throw e => Throw e
    | OutOfFuel => OutOfFuel
    end.

Notation "'let*' x ':=' c 'in' k" := (bind c (fun x => k))
  (at level 10, x pattern, c at level 100, k at level 200, only parsing).

(** [this.random()] *)
Definition random : M Q := fun s => Ok (Rng.next s).

Definition lift {A} (r : result A) : M A :=
  fun s =>
    match r with
    | Ok x => Ok (x, s)
    | Throw e => Throw e
    | OutOfFuel => OutOfFuel
    end.

(** A loop over the indices of [l], threading the value [acc]. *)
Fixpoint forM {S} (l : list Z) (body : Z -> S -> M S) (acc : S) : M S :=
  match l with
  | [] => ret acc
  | i :: l' => let* acc' := body i acc in forM l' body acc'
  end.

(** [for (let i = lo; i < hi; i++)] *)
Definition for_lt {S} (lo hi : Z) (body : Z -> S -> M S) (acc : S) : M S :=
  forM (seqZ lo (hi - lo)) body acc.

(** [for (let i = lo; i <= hi; i++)] *)
Definition for_le {S} (lo hi : Z) (body : Z -> S -> M S) (acc : S) : M S :=
  forM (seqZ lo (hi - lo + 1)) body acc.

(** [Math.floor(r * k)] for a draw [r] and an integer [k]. *)
Definition floor_mul (r : Q) (k : Z) : Z := Qfloor (r * inject_Z k).

(** [r < p] on numbers. *)
Definition Qltb (p q : Q) : bool :=
  match Qlt_le_dec p q with left _ => true | right _ => false end.

(** ** The terrain table: [src/types/terrain.ts] *)

Inductive TerrainCategory : Type :=
| OPEN | OBSTRUCTING | HAZARDOUS | INTERACTIVE | ENVIRONMENTAL | STRUCTURAL.

Record TerrainConfig : Type := mkTerrain {
  id : string;
  blocksMovement : bool;
  blocksLineOfSight : bool;
  movementCost : Z;
  category : TerrainCategory
}.

(** The own keys of [TERRAIN_TYPES], in source order ([name],
    [displayGlyph] and [description] are not read by the code below). *)
Definition TERRAIN_TYPES : list (string * TerrainConfig) :=
  [ ("empty",      mkTerrain "empty"      false false 1 OPEN);
    ("wall",       mkTerrain "wall"       true  true  0 STRUCTURAL);
    ("pit",        mkTerrain "pit"        true  false 2 HAZARDOUS);
    ("lava",       mkTerrain "lava"       true  false 0 HAZARDOUS);
    ("water",      mkTerrain "water"      false false 2 OPEN);
    ("difficult",  mkTerrain "difficult"  false false 2 OPEN);
    ("ruins",      mkTerrain "ruins"      false true  3 ENVIRONMENTAL);
    ("mushrooms",  mkTerrain "mushrooms"  false true  2 ENVIRONMENTAL);
    ("crystal",    mkTerrain "crystal"    true  false 0 ENVIRONMENTAL);
    ("altar",      mkTerrain "altar"      false false 1 INTERACTIVE);
    ("trees",      mkTerrain "trees"      false true  2 ENVIRONMENTAL);
    ("stalagmite", mkTerrain "stalagmite" false true  2 ENVIRONMENTAL);
    ("chasm",      mkTerrain "chasm"      true  false 0 HAZARDOUS);
    ("bridge",     mkTerrain "bridge"     false false 1 STRUCTURAL);
    ("portal",     mkTerrain "portal"     false false 1 INTERACTIVE);
    ("rubble",     mkTerrain "rubble"     false true  2 OBSTRUCTING);
    ("ice",        mkTerrain "ice"        false false 2 HAZARDOUS) ].

(** A value read from a grid cell: a terrain id, or [undefined] ([None])
    when the cell does not exist. *)
Abbreviation cell := (option string).

(** [a === b] on cell values. *)
Definition cell_is (c : cell) (t : string) : bool :=
  match c with Some s => String.eqb s t | None => false end.

Definition cell_eqb (c d : cell) : bool :=
  match c, d with
  | Some s, Some t => String.eqb s t
  | None, None => true
  | _, _ => false
  end.

(** [[t1, ..., tn].includes(c)] *)
Definition includes (l : list string) (c : cell) : bool :=
  existsb (cell_is c) l.

(** [TERRAIN_TYPES] is an object literal, so a property read on it also
    finds the members of [Object.prototype]: these are the names every
    object inherits. *)
Definition Object_prototype : list string :=
  [ "constructor"; "__defineGetter__"; "__defineSetter__"; "hasOwnProperty";
    "__lookupGetter__"; "__lookupSetter__"; "isPrototypeOf";
    "propertyIsEnumerable"; "toString"; "valueOf"; "__proto__";
    "toLocaleString" ].

(** What [TERRAIN_TYPES[id]] evaluates to: an entry of the table, a member
    of [Object.prototype] (a function, or the prototype itself: a truthy
    value with none of the fields of a terrain), or [undefined]. *)
Inductive property : Type :=
| Own (t : TerrainConfig)
| Inherited
| Missing.

Definition inherited (name : string) : bool :=
  existsb (String.eqb name) Object_prototype.

(** A value used as a condition; [None] stands for [undefined]. *)
Definition truthy (v : option bool) : bool :=
  match v with Some b => b | None => false end.

Module TerrainUtils.

(** [TERRAIN_TYPES[id]]; the key of [undefined] is the string
    ["undefined"]. *)
Definition getTerrain (c : cell) : property :=
  let key := match c with Some s => s | None => "undefined" end in
  match List.find (fun p => String.eqb (fst p) key) TERRAIN_TYPES with
  | Some p => Own (snd p)
  | None =>
      if inherited key then Inherited else Missing
  end.

(** [terrain ? terrain.blocksMovement : true]; [None] is the [undefined]
    read from a member of [Object.prototype]. *)
Definition blocksMovement (c : cell) : option bool :=
  match getTerrain c with
  | Own t => Some (blocksMovement t)
  | Inherited => None
  | Missing => Some true
  end.

Definition blocksLineOfSight (c : cell) : option bool :=
  match getTerrain c with
  | Own t => Some (blocksLineOfSight t)
  | Inherited => None
  | Missing => Some true
  end.

(** [terrain ? terrain.movementCost : 0]; [None] is [undefined]. *)
Definition getMovementCost (c : cell) : option Z :=
  match getTerrain c with
  | Own t => Some (movementCost t)
  | Inherited => None
  | Missing => Some 0
  end.

End TerrainUtils.

(** ** JavaScript arrays of terrain ids

    An array is its indexed properties and its [length].  Writing at an
    index at or beyond [length] extends the array; writing at a negative
    index creates a property and leaves [length] alone; reading a missing
    index gives [undefined].  A property holding [undefined] reads like a
    missing one, so storing [undefined] is modelled by removing the
    key. *)

Record jsarray : Type := Arr { cells : gmap Z string; len : Z }.

Definition arr_get (r : jsarray) (x : Z) : cell := cells r !! x.

Definition arr_set (r : jsarray) (x : Z) (v : cell) : jsarray :=
  Arr (match v with
       | Some s => <[x := s]> (cells r)
       | None => delete x (cells r)
       end)
      (if (0 <=? x) && (x <? 2 ^ 32 - 1) && (len r <=? x) then x + 1 else len r).

(** [row.push(v)] *)
Definition arr_push (r : jsarray) (v : cell) : jsarray := arr_set r (len r) v.

Definition arr_empty : jsarray := Arr ∅ 0.

(** [Array(n).fill(v)] for a valid length [n]. *)
Definition arr_fill (n : Z) (v : string) : jsarray :=
  Arr (list_to_map ((fun i => (i, v)) <$> seqZ 0 n)) n.

(** The array holding the elements of [l]. *)
Definition arr_of_list (l : list string) : jsarray :=
  fold_left (fun r s => arr_push r (Some s)) l arr_empty.

(** The elements [r[0], ..., r[length - 1]]. *)
Definition arr_elements (r : jsarray) : list cell :=
  arr_get r <$> seqZ 0 (len r).

(** A grid [string[][]]: the outer array is only ever built whole and
    indexed, never written out of range, so it is a list of rows. *)
Abbreviation Grid := (list jsarray).

Definition grid_of_lists (g : list (list string)) : Grid := arr_of_list <$> g.

(** [terrain.length] *)
Definition height_of (t : Grid) : Z := Z.of_nat (length t).

(** [terrain[y]] *)
Definition row_at (t : Grid) (y : Z) : option jsarray :=
  if y <? 0 then None else t !! Z.to_nat y.

(** [terrain[0].length]: a [TypeError] when [terrain] has no row. *)
Definition width_of (t : Grid) : result Z :=
  match row_at t 0 with Some r => Ok (len r) | None => Throw TypeError end.

(** [terrain[y][x]] as an expression. *)
Definition get (t : Grid) (y x : Z) : result cell :=
  match row_at t y with
  | Some r => Ok (arr_get r x)
  | None => Throw TypeError
  end.

(** [terrain[y][x] = v] *)
Definition set (t : Grid) (y x : Z) (v : cell) : result Grid :=
  match row_at t y with
  | Some r => Ok (<[Z.to_nat y := arr_set r x v]> t)
  | None => Throw TypeError
  end.

(** The value of cell [(x, y)], [undefined] also when row [y] is missing
    (for stating properties of a finished grid). *)
Definition cell_at (t : Grid) (x y : Z) : cell :=
  match row_at t y with Some r => arr_get r x | None => None end.

(** [Array(n)] throws a [RangeError] unless [n] is an integer in
    [0, 2^32 - 1]. *)
Definition valid_length (n : Z) : bool := (0 <=? n) && (n <? 2 ^ 32).

(** [Array(height).fill(null).map(() => Array(width).fill(v))]: the
    callback, and with it [Array(width)], runs once per row. *)
Definition new_grid (height width : Z) (v : string) : result Grid :=
  if negb (valid_length height) then Throw RangeError
  else if height =? 0 then Ok []
  else if negb (valid_length width) then Throw RangeError
  else Ok (replicate (Z.to_nat height) (arr_fill width v)).

(** The bounds guard written [nx >= 0 && nx < terrain[0].length &&
    ny >= 0 && ny < terrain.length]: [terrain[0].length] is evaluated as
    soon as [nx >= 0]. *)
Definition in_bounds_xy (t : Grid) (nx ny : Z) : result bool :=
  if nx <? 0 then Ok false
  else
    match width_of t with
    | Ok w => Ok ((nx <? w) && (0 <=? ny) && (ny <? height_of t))
    | Throw e => Throw e
    | OutOfFuel => OutOfFuel
    end.

(** The same guard with the row tested first, [cy >= 0 &&
    cy < terrain.length && x >= 0 && x < terrain[0].length]:
    [terrain[0].length] is only evaluated when a row exists. *)
Definition in_bounds_yx (t : Grid) (x cy : Z) : bool :=
  (0 <=? cy) && (cy <? height_of t) && (0 <=? x) &&
  match width_of t with Ok w => x <? w | _ => false end.

(** [l[i]] for a list literal. *)
Definition list_at (l : list string) (i : Z) : cell :=
  if i <? 0 then None else l !! Z.to_nat i.

(** ** The generator: [src/generators/terrain-generator.ts] *)

(** [GenerationConfig.parameters].  A knob that is absent is [None].  The
    size and count knobs are used as integers and the two probabilities
    as numbers ([as number] performs no conversion). *)
Record Parameters : Type := mkParameters {
  minRoomSize : option Z;
  maxRooms : option Z;
  corridorWidth : option Z;
  initialFill : option Q;
  iterations : option Z;
  birthLimit : option Z;
  deathLimit : option Z;
  steps : option Z;
  branchChance : option Q
}.

Definition no_parameters : Parameters :=
  mkParameters None None None None None None None None None.

(** [GenerationConfig]; [theme] and [algorithm] are strings at run
    time. *)
Record GenerationConfig : Type := mkConfig {
  width : Z;
  height : Z;
  seed : Z;
  theme : string;
  algorithm : string;
  parameters : Parameters
}.

(** [p as number || d]: the default replaces a missing knob and also the
    falsy value [0]. *)
Definition or_default (p : option Z) (d : Z) : Z :=
  match p with
  | Some v => if v =? 0 then d else v
  | None => d
  end.

Definition or_defaultQ (p : option Q) (d : Q) : Q :=
  match p with
  | Some v => if Qeq_bool v 0 then d else v
  | None => d
  end.

Module Room.
Record t : Type := mk {
  x : Z; y : Z; width : Z; height : Z; centerX : Z; centerY : Z
}.
Definition set_width (r : t) (w : Z) : t :=
  mk (x r) (y r) w (height r) (centerX r) (centerY r).
Definition set_height (r : t) (h : Z) : t :=
  mk (x r) (y r) (width r) h (centerX r) (centerY r).
End Room.

(** [getThemeFeatures] *)
Definition getThemeFeatures (c : GenerationConfig) : list string :=
  let th := theme c in
  if String.eqb th "dungeon" then ["pit"; "water"; "difficult"; "altar"]
  else if String.eqb th "wilderness" then ["difficult"; "trees"; "water"; "pit"]
  else if String.eqb th "underground" then ["crystal"; "water"; "difficult"; "stalagmite"]
  else if String.eqb th "urban" then ["rubble"; "water"; "pit"; "difficult"]
  else if String.eqb th "mystical" then ["crystal"; "portal"; "altar"; "mushrooms"]
  else ["difficult"; "water"].

(** [features[Math.floor(this.random() * features.length)]] *)
Definition pick (features : list string) : M cell :=
  let* r := random in
  ret (list_at features (floor_mul r (Z.of_nat (length features)))).

(** The eight offsets of the loops [for dy = -1..1] [for dx = -1..1] with
    [(0, 0)] skipped, as pairs [(dx, dy)] in the order visited. *)
Definition around : list (Z * Z) :=
  [ (-1, -1); (0, -1); (1, -1);
    (-1,  0);          (1,  0);
    (-1,  1); (0,  1); (1,  1) ].

(** A loop over a list of offsets, threading a counter; the loop body may
    throw. *)
Fixpoint count_over (l : list (Z * Z)) (f : Z -> Z -> result bool)
    (count : Z) : result Z :=
  match l with
  | [] => Ok count
  | (dx, dy) :: l' =>
      match f dx dy with
      | Ok b => count_over l' f (if b then count + 1 else count)
      | Throw e => Throw e
      | OutOfFuel => OutOfFuel
      end
  end.

(** [countNeighborsOfType] *)
Definition countNeighborsOfType (terrain : Grid) (x y : Z) (type : string)
    : result Z :=
  count_over around (fun dx dy =>
    let nx := x + dx in
    let ny := y + dy in
    match in_bounds_xy terrain nx ny with
    | Ok true =>
        match get terrain ny nx with
        | Ok v => Ok (cell_is v type)
        | Throw e => Throw e
        | OutOfFuel => OutOfFuel
        end
    | other => other
    end) 0.

(** [countNeighbors]: the neighbours that are ['empty']. *)
Definition countNeighbors (terrain : Grid) (x y : Z) : result Z :=
  countNeighborsOfType terrain x y "empty".

(** *** Partition layout *)

(** The body of [generateRoomsBSP], with its recursive calls made through
    [self].  [rooms] is the local array, empty when its length is
    read. *)
Definition roomsBody (self : Z -> Z -> Z -> Z -> Z -> Z -> M (list Room.t))
    (x y w h minSize maxRooms : Z) : M (list Room.t) :=
  let rooms : list Room.t := [] in
  let nrooms := Z.of_nat (length rooms) in
  if (w <? minSize * 2) || (h <? minSize * 2) || (maxRooms <=? nrooms) then
    let* r1 := random in
    let roomWidth :=
      Z.max minSize (Z.min (w - 2) (floor_mul r1 (w - minSize) + minSize)) in
    let* r2 := random in
    let roomHeight :=
      Z.max minSize (Z.min (h - 2) (floor_mul r2 (h - minSize) + minSize)) in
    let* r3 := random in
    let roomX := x + floor_mul r3 (w - roomWidth - 1) + 1 in
    let* r4 := random in
    let roomY := y + floor_mul r4 (h - roomHeight - 1) + 1 in
    let room :=
      Room.mk roomX roomY roomWidth roomHeight
              (roomX + roomWidth / 2) (roomY + roomHeight / 2) in
    let room :=
      if x + w <? roomX + roomWidth
      then Room.set_width room ((x + w) - roomX - 1) else room in
    let room :=
      if y + h <? roomY + roomHeight
      then Room.set_height room ((y + h) - roomY - 1) else room in
    ret (rooms ++ [room])
  else
    let* r := random in
    let splitHorizontal := Qltb r (1 # 2) in
    if splitHorizontal && (minSize * 2 <=? h) then
      let* r' := random in
      let splitY := floor_mul r' (h - minSize * 2) + minSize + y in
      let topHeight := splitY - y in
      let bottomHeight := h - topHeight in
      let* topRooms := self x y w topHeight minSize (maxRooms - nrooms) in
      let* bottomRooms :=
        self x splitY w bottomHeight minSize
             (maxRooms - nrooms - Z.of_nat (length topRooms)) in
      ret (topRooms ++ bottomRooms)
    else if minSize * 2 <=? w then
      let* r' := random in
      let splitX := floor_mul r' (w - minSize * 2) + minSize + x in
      let leftWidth := splitX - x in
      let rightWidth := w - leftWidth in
      let* leftRooms := self x y leftWidth h minSize (maxRooms - nrooms) in
      let* rightRooms :=
        self splitX y rightWidth h minSize
             (maxRooms - nrooms - Z.of_nat (length leftRooms)) in
      ret (leftRooms ++ rightRooms)
    else
      let roomWidth := Z.max minSize (Z.min (w - 2) (w - 1)) in
      let roomHeight := Z.max minSize (Z.min (h - 2) (h - 1)) in
      let roomX := x + 1 in
      let roomY := y + 1 in
      ret (rooms ++ [Room.mk roomX roomY roomWidth roomHeight
                       (roomX + roomWidth / 2) (roomY + roomHeight / 2)]).

(** [generateRoomsBSP]: the recursion, [fuel] calls deep at most. *)
Fixpoint generateRoomsBSP (fuel : nat) (x y w h minSize maxRooms : Z)
    : M (list Room.t) :=
  match fuel with
  | O => fun _ => OutOfFuel
  | S fuel' => roomsBody (generateRoomsBSP fuel') x y w h minSize maxRooms
  end.

(** A loop over the elements of a list ([forEach], or an indexed loop over
    consecutive pairs). *)
Fixpoint forEach {A S} (l : list A) (body : A -> S -> M S) (acc : S) : M S :=
  match l with
  | [] => ret acc
  | a :: l' => let* acc' := body a acc in forEach l' body acc'
  end.

(** [createRoom] *)
Definition createRoom (terrain : Grid) (room : Room.t) : M Grid :=
  for_lt (Room.y room) (Room.y room + Room.height room) (fun y terrain =>
    for_lt (Room.x room) (Room.x room + Room.width room) (fun x terrain =>
      if (x =? Room.x room) || (x =? Room.x room + Room.width room - 1) ||
         (y =? Room.y room) || (y =? Room.y room + Room.height room - 1)
      then lift (set terrain y x (Some "difficult"))
      else lift (set terrain y x (Some "empty"))) terrain) terrain.

(** The body shared by the two corridor loops:
    [if (terrain[cy][x] === 'empty' || terrain[cy][x] === 'difficult')
       terrain[cy][x] = 'empty'] under its bounds guard. *)
Definition carve (terrain : Grid) (x cy : Z) : M Grid :=
  if in_bounds_yx terrain x cy then
    let* v := lift (get terrain cy x) in
    if cell_is v "empty" || cell_is v "difficult"
    then lift (set terrain cy x (Some "empty"))
    else ret terrain
  else ret terrain.

(** The consecutive pairs [(rooms[i], rooms[i + 1])]. *)
Fixpoint consecutive {A} (l : list A) : list (A * A) :=
  match l with
  | a :: ((b :: _) as l') => (a, b) :: consecutive l'
  | _ => []
  end.

(** [connectRooms] *)
Definition connectRooms (terrain : Grid) (rooms : list Room.t)
    (corridorWidth : Z) : M Grid :=
  forEach (consecutive rooms) (fun '(currentRoom, nextRoom) terrain =>
    let startX := Room.centerX currentRoom in
    let startY := Room.centerY currentRoom in
    let endX := Room.centerX nextRoom in
    let endY := Room.centerY nextRoom in
    let* w0 := lift (width_of terrain) in
    let safeStartX := Z.max 1 (Z.min (w0 - 2) startX) in
    let safeStartY := Z.max 1 (Z.min (height_of terrain - 2) startY) in
    let safeEndX := Z.max 1 (Z.min (w0 - 2) endX) in
    let safeEndY := Z.max 1 (Z.min (height_of terrain - 2) endY) in
    let horizontalStart := Z.min safeStartX safeEndX in
    let horizontalEnd := Z.max safeStartX safeEndX in
    let* terrain :=
      for_le horizontalStart horizontalEnd (fun x terrain =>
        for_le (safeStartY - corridorWidth / 2) (safeStartY + corridorWidth / 2)
          (fun cy terrain => carve terrain x cy) terrain) terrain in
    let verticalStart := Z.min safeStartY safeEndY in
    let verticalEnd := Z.max safeStartY safeEndY in
    for_le verticalStart verticalEnd (fun y terrain =>
      for_le (safeEndX - corridorWidth / 2) (safeEndX + corridorWidth / 2)
        (fun cx terrain => carve terrain cx y) terrain) terrain) terrain.

(** [addCorridorFeatures] *)
Definition addCorridorFeatures (terrain : Grid) : M Grid :=
  let corridorFeatures := ["pit"; "difficult"; "water"] in
  for_lt 1 (height_of terrain - 1) (fun y terrain =>
    let* w0 := lift (width_of terrain) in
    for_lt 1 (w0 - 1) (fun x terrain =>
      let* v := lift (get terrain y x) in
      if cell_is v "empty" then
        let* r := random in
        if Qltb r (5 # 100) then
          let* neighbors := lift (countNeighborsOfType terrain x y "difficult") in
          if 4 <=? neighbors then
            let* feature := pick corridorFeatures in
            lift (set terrain y x feature)
          else ret terrain
        else ret terrain
      else ret terrain) terrain) terrain.

(** The feature sprinkling shared by [addBSPFeatures], [varyTemplate] and
    [addCellularFeaturesToBSP]:
    [if (terrain[y][x] === 'empty' && this.random() < chance)
       terrain[y][x] = features[...]] *)
Definition sprinkle (c : GenerationConfig) (chance : Q) (terrain : Grid)
    (x y : Z) : M Grid :=
  let* v := lift (get terrain y x) in
  if cell_is v "empty" then
    let* r := random in
    if Qltb r chance then
      let features := getThemeFeatures c in
      let* feature := pick features in
      lift (set terrain y x feature)
    else ret terrain
  else ret terrain.

(** [addBSPFeatures] *)
Definition addBSPFeatures (c : GenerationConfig) (terrain : Grid)
    (rooms : list Room.t) : M Grid :=
  let featureChance := 15 # 100 in
  let* terrain :=
    forEach rooms (fun room terrain =>
      let interiorWidth := Room.width room - 2 in
      let interiorHeight := Room.height room - 2 in
      if (interiorWidth <? 2) || (interiorHeight <? 2) then ret terrain
      else
        for_lt (Room.y room + 1) (Room.y room + Room.height room - 1)
          (fun y terrain =>
            for_lt (Room.x room + 1) (Room.x room + Room.width room - 1)
              (fun x terrain => sprinkle c featureChance terrain x y) terrain)
          terrain) terrain in
  addCorridorFeatures terrain.

(** [generateBSP] *)
Definition generateBSP (fuel : nat) (c : GenerationConfig) : M Grid :=
  let width := width c in
  let height := height c in
  let* terrain := lift (new_grid height width "empty") in
  let minRoomSize := or_default (minRoomSize (parameters c)) 4 in
  let maxRooms := or_default (maxRooms (parameters c)) 8 in
  let corridorWidth := or_default (corridorWidth (parameters c)) 1 in
  let* terrain :=
    for_lt 0 height (fun y terrain =>
      for_lt 0 width (fun x terrain =>
        if (x =? 0) || (x =? width - 1) || (y =? 0) || (y =? height - 1)
        then lift (set terrain y x (Some "difficult"))
        else ret terrain) terrain) terrain in
  let* rooms :=
    generateRoomsBSP fuel 1 1 (width - 2) (height - 2) minRoomSize maxRooms in
  let* terrain := forEach rooms (fun room terrain => createRoom terrain room) terrain in
  let* terrain := connectRooms terrain rooms corridorWidth in
  addBSPFeatures c terrain rooms.

(** *** Automaton layout *)

(** The random initial fill of [generateCellular]. *)
Definition initialFillPass (width height : Z) (initialFill : Q)
    (terrain : Grid) : M Grid :=
  for_lt 0 height (fun y terrain =>
    for_lt 0 width (fun x terrain =>
      let* r := random in
      if Qltb r initialFill
      then lift (set terrain y x (Some "empty"))
      else ret terrain) terrain) terrain.

(** One pass of the loop [for (iter ...)]: the rules are applied to the
    interior cells of a fresh all-['wall'] grid, which is then copied
    back cell by cell. *)
Definition automatonPass (width height birthLimit deathLimit : Z)
    (terrain : Grid) : M Grid :=
  let* newTerrain := lift (new_grid height width "wall") in
  let* newTerrain :=
    for_lt 1 (height - 1) (fun y newTerrain =>
      for_lt 1 (width - 1) (fun x newTerrain =>
        let* neighbors := lift (countNeighbors terrain x y) in
        let* v := lift (get terrain y x) in
        if cell_is v "empty" then
          if neighbors <? deathLimit
          then lift (set newTerrain y x (Some "wall"))
          else lift (set newTerrain y x (Some "empty"))
        else
          if birthLimit <? neighbors
          then lift (set newTerrain y x (Some "empty"))
          else lift (set newTerrain y x (Some "wall"))) newTerrain) newTerrain in
  for_lt 0 height (fun y terrain =>
    for_lt 0 width (fun x terrain =>
      let* v := lift (get newTerrain y x) in
      lift (set terrain y x v)) terrain) terrain.

(** The loop [for (let iter = 0; iter < iterations; iter++)]. *)
Definition automatonLoop (width height iterations birthLimit deathLimit : Z)
    (terrain : Grid) : M Grid :=
  for_lt 0 iterations (fun _ terrain =>
    automatonPass width height birthLimit deathLimit terrain) terrain.

(** [addCellularFeatures] *)
Definition addCellularFeatures (c : GenerationConfig) (terrain : Grid)
    : M Grid :=
  let featureChance := 1 # 10 in
  for_lt 1 (height_of terrain - 1) (fun y terrain =>
    let* w0 := lift (width_of terrain) in
    for_lt 1 (w0 - 1) (fun x terrain =>
      let* v := lift (get terrain y x) in
      if cell_is v "empty" then
        let* r := random in
        if Qltb r featureChance then
          if String.eqb (theme c) "dungeon" then
            let* r1 := random in
            if Qltb r1 (3 # 10) then lift (set terrain y x (Some "pit"))
            else
              let* r2 := random in
              if Qltb r2 (5 # 10) then lift (set terrain y x (Some "water"))
              else lift (set terrain y x (Some "difficult"))
          else if String.eqb (theme c) "wilderness" then
            lift (set terrain y x (Some "difficult"))
          else if String.eqb (theme c) "underground" then
            let* r1 := random in
            if Qltb r1 (4 # 10) then lift (set terrain y x (Some "crystal"))
            else
              let* r2 := random in
              if Qltb r2 (7 # 10) then lift (set terrain y x (Some "water"))
              else ret terrain
          else ret terrain
        else ret terrain
      else ret terrain) terrain) terrain.

(** The part of [generateCellular] before the feature pass: the initial
    fill followed by the update passes. *)
Definition cellularCore (c : GenerationConfig) : M Grid :=
  let width := width c in
  let height := height c in
  let* terrain := lift (new_grid height width "wall") in
  let initialFill := or_defaultQ (initialFill (parameters c)) (45 # 100) in
  let iterations := or_default (iterations (parameters c)) 4 in
  let birthLimit := or_default (birthLimit (parameters c)) 4 in
  let deathLimit := or_default (deathLimit (parameters c)) 3 in
  let* terrain := initialFillPass width height initialFill terrain in
  automatonLoop width height iterations birthLimit deathLimit terrain.

(** [generateCellular] *)
Definition generateCellular (c : GenerationConfig) : M Grid :=
  let* terrain := cellularCore c in
  addCellularFeatures c terrain.

(** *** Random-walk layout *)

(** The move [switch (direction)] of a walk: another value of
    [direction] leaves the position unchanged. *)
Definition move (direction x y : Z) : Z * Z :=
  if direction =? 0 then (x + 1, y)
  else if direction =? 1 then (x - 1, y)
  else if direction =? 2 then (x, y + 1)
  else if direction =? 3 then (x, y - 1)
  else (x, y).

(** [drunkardBranch]; the walk's position is local to the call. *)
Definition drunkardBranch (terrain : Grid) (x y steps : Z) : M Grid :=
  let* (terrain, _, _) :=
    for_lt 0 steps (fun _ '(terrain, x, y) =>
      let* r := random in
      let direction := floor_mul r 4 in
      let '(newX, newY) := move direction x y in
      let* inb := lift (in_bounds_xy terrain newX newY) in
      if inb then
        let* terrain := lift (set terrain newY newX (Some "empty")) in
        ret (terrain, newX, newY)
      else ret (terrain, x, y)) (terrain, x, y) in
  ret terrain.

(** [generateDrunkardWalk] *)
Definition generateDrunkardWalk (c : GenerationConfig) : M Grid :=
  let width := width c in
  let height := height c in
  let* terrain := lift (new_grid height width "wall") in
  let steps := or_default (steps (parameters c)) 2000 in
  let branchChance := or_defaultQ (branchChance (parameters c)) (1 # 10) in
  let x := width / 2 in
  let y := height / 2 in
  let* terrain := lift (set terrain y x (Some "empty")) in
  let* (terrain, _, _) :=
    for_lt 0 steps (fun _ '(terrain, x, y) =>
      let* r := random in
      let direction := floor_mul r 4 in
      let '(newX, newY) := move direction x y in
      if (0 <=? newX) && (newX <? width) && (0 <=? newY) && (newY <? height)
      then
        let* terrain := lift (set terrain newY newX (Some "empty")) in
        let x := newX in
        let y := newY in
        let* r' := random in
        if Qltb r' branchChance then
          let* r'' := random in
          let branchSteps := floor_mul r'' 50 + 10 in
          let* terrain := drunkardBranch terrain x y branchSteps in
          ret (terrain, x, y)
        else ret (terrain, x, y)
      else ret (terrain, x, y)) (terrain, x, y) in
  ret terrain.

(** *** Template layout *)

(** [createBaseTemplate] *)
Definition createBaseTemplate (c : GenerationConfig) : M Grid :=
  let width := width c in
  let height := height c in
  let* terrain := lift (new_grid height width "empty") in
  let centerX := width / 2 in
  let centerY := height / 2 in
  let* terrain :=
    for_le (centerY - 3) (centerY + 3) (fun y terrain =>
      for_le (centerX - 4) (centerX + 4) (fun x terrain =>
        if (0 <=? x) && (x <? width) && (0 <=? y) && (y <? height)
        then lift (set terrain y x (Some "empty"))
        else ret terrain) terrain) terrain in
  let* terrain :=
    for_lt 0 width (fun x terrain =>
      let* terrain := lift (set terrain 0 x (Some "wall")) in
      lift (set terrain (height - 1) x (Some "wall"))) terrain in
  for_lt 0 height (fun y terrain =>
    let* terrain := lift (set terrain y 0 (Some "wall")) in
    lift (set terrain y (width - 1) (Some "wall"))) terrain.

(** The loop shared by [varyTemplate] and [addCellularFeaturesToBSP]. *)
Definition sprinkleInterior (c : GenerationConfig) (chance : Q)
    (terrain : Grid) : M Grid :=
  for_lt 1 (height_of terrain - 1) (fun y terrain =>
    let* w0 := lift (width_of terrain) in
    for_lt 1 (w0 - 1) (fun x terrain => sprinkle c chance terrain x y)
      terrain) terrain.

(** [varyTemplate] *)
Definition varyTemplate (c : GenerationConfig) (terrain : Grid) : M Grid :=
  let variationChance := 2 # 10 in
  sprinkleInterior c variationChance terrain.

(** [generateTemplate] *)
Definition generateTemplate (c : GenerationConfig) : M Grid :=
  let* baseTemplate := createBaseTemplate c in
  varyTemplate c baseTemplate.

(** *** Composite layout *)

(** [addCellularFeaturesToBSP] *)
Definition addCellularFeaturesToBSP (c : GenerationConfig) (terrain : Grid)
    : M Grid :=
  let featureChance := 5 # 100 in
  sprinkleInterior c featureChance terrain.

(** [generateMixed] *)
Definition generateMixed (fuel : nat) (c : GenerationConfig) : M Grid :=
  let* terrain := generateBSP fuel c in
  addCellularFeaturesToBSP c terrain.

(** *** The class *)

(** An instance: its configuration and the state captured by the closure
    [this.random]. *)
Record TerrainGenerator : Type := mkGenerator {
  config : GenerationConfig;
  stream : Z
}.

(** [constructor(config)] *)
Definition new_TerrainGenerator (c : GenerationConfig) : TerrainGenerator :=
  mkGenerator c (Rng.seededRandom (seed c)).

(** The body of [generate()]: the [switch] over [this.config.algorithm],
    whose [default] branch is the partition layout. *)
Definition generate_body (fuel : nat) (c : GenerationConfig) : M Grid :=
  let alg := algorithm c in
  if String.eqb alg "bsp" then generateBSP fuel c
  else if String.eqb alg "cellular" then generateCellular c
  else if String.eqb alg "drunkard" then generateDrunkardWalk c
  else if String.eqb alg "template" then generateTemplate c
  else if String.eqb alg "mixed" then generateMixed fuel c
  else generateBSP fuel c.

(** [generate()] on an instance: the grid returned and the instance with
    its stream advanced. *)
Definition generate (fuel : nat) (g : TerrainGenerator)
    : result (Grid * TerrainGenerator) :=
  match generate_body fuel (config g) (stream g) with
  | Ok (terrain, s') => Ok (terrain, mkGenerator (config g) s')
  | Throw e => Throw e
  | OutOfFuel => OutOfFuel
  end.

(** The names handled by a [case] of the [switch]. *)
Definition known_algorithms : list string :=
  ["bsp"; "cellular"; "drunkard"; "template"; "mixed"].

(** ** Several instances

    Every [new TerrainGenerator(config)] allocates an object of its own,
    whose [random] is a fresh closure over a variable [s] of its own.
    The heap lists the instances of a program in the order of their
    allocation; an instance is named by its index. *)
Definition Heap : Type := list TerrainGenerator.


(** [instance.generate()] on the instance [i] of the heap: the grid, and
    the heap in which the stream of [i] has advanced.  Calling a method
    of an instance that does not exist is a [TypeError]. *)
Definition call_generate (fuel : nat) (i : nat) (h : Heap)
    : result (Grid * Heap) :=
  match h !! i with
  | Some g =>
      match generate fuel g with
      | Ok (terrain, g') => Ok (terrain, <[i := g']> h)
      | Throw e => Throw e
      | OutOfFuel => OutOfFuel
      end
  | None => Throw TypeError
  end.



(** ** The codec: [src/utils/map-compression.ts] *)

(** *** String helpers *)

(** [s.split(sep)] for a one-character separator: always at least one
    field. *)
Fixpoint split (sep : ascii) (s : string) : list string :=
  match s with
  | EmptyString => [""]
  | String ch s' =>
      if Ascii.eqb ch sep then "" :: split sep s'
      else
        match split sep s' with
        | cur :: rest => String ch cur :: rest
        | [] => [String ch ""]
        end
  end.

(** [l.join(sep)] *)
Fixpoint join (sep : string) (l : list string) : string :=
  match l with
  | [] => ""
  | [s] => s
  | s :: l' => String.append s (String.append sep (join sep l'))
  end.

Definition is_digit (ch : ascii) : bool :=
  let n := Z.of_nat (nat_of_ascii ch) in (48 <=? n) && (n <=? 57).

Definition digit_value (ch : ascii) : Z := Z.of_nat (nat_of_ascii ch) - 48.

(** The white space of ASCII: TAB, LF, VT, FF, CR and SP. *)
Definition is_space (ch : ascii) : bool :=
  let n := Z.of_nat (nat_of_ascii ch) in
  ((9 <=? n) && (n <=? 13)) || (n =? 32).

Fixpoint skip_spaces (s : string) : string :=
  match s with
  | String ch s' => if is_space ch then skip_spaces s' else s
  | EmptyString => s
  end.

(** The longest prefix of decimal digits: its value, whether it is
    non-empty, and the rest of the string. *)
Fixpoint read_digits (s : string) (acc : Z) (seen : bool)
    : Z * bool * string :=
  match s with
  | String ch s' =>
      if is_digit ch then read_digits s' (10 * acc + digit_value ch) true
      else (acc, seen, s)
  | EmptyString => (acc, seen, s)
  end.

Definition read_sign (s : string) : Z * string :=
  match s with
  | String "-" s' => (-1, s')
  | String "+" s' => (1, s')
  | _ => (1, s)
  end.

(** [parseInt(s, 10)]: leading white space, an optional sign and the
    longest run of digits; [None] is [NaN].  The argument [undefined] is
    read as the string ["undefined"]. *)
Definition parseInt (s : cell) : option Z :=
  match s with
  | None => None
  | Some s =>
      let '(sign, s1) := read_sign (skip_spaces s) in
      let '(v, seen, _) := read_digits s1 0 false in
      if seen then Some (sign * v) else None
  end.

(** [Number(s)] on the decimal integer literals, which is what the
    dimensions of a compact string are: white space around an optional
    sign and digits; the empty string is [0].  [None] stands for [NaN];
    the other numeric literals of JavaScript (fractions, exponents,
    prefixes, [Infinity]) are outside this model and are given [None]
    too. *)
Definition Number (s : string) : option Z :=
  let s0 := skip_spaces s in
  match s0 with
  | EmptyString => Some 0
  | _ =>
      let '(sign, s1) := read_sign s0 in
      let '(v, seen, rest) := read_digits s1 0 false in
      match skip_spaces rest with
      | EmptyString => if seen then Some (sign * v) else None
      | _ => None
      end
  end.

(** [a * b] on numbers that may be [NaN]. *)
Definition nan_mul (a b : option Z) : option Z :=
  match a, b with Some x, Some y => Some (x * y) | _, _ => None end.

Definition nan_add (a b : option Z) : option Z :=
  match a, b with Some x, Some y => Some (x + y) | _, _ => None end.

(** [a - b]; an operand [undefined] is [NaN] as a number. *)
Definition nan_sub (a b : option Z) : option Z :=
  match a, b with Some x, Some y => Some (x - y) | _, _ => None end.

(** [Math.max(a, b)], which is [NaN] as soon as an argument is. *)
Definition nan_max (a b : option Z) : option Z :=
  match a, b with Some x, Some y => Some (Z.max x y) | _, _ => None end.

(** Numbers with a fractional part; [None] is [NaN]. *)
Definition num_add (a b : option Q) : option Q :=
  match a, b with Some x, Some y => Some (x + y)%Q | _, _ => None end.

Definition num_sub (a b : option Q) : option Q :=
  match a, b with Some x, Some y => Some (x - y)%Q | _, _ => None end.

Definition num_mul (a b : option Q) : option Q :=
  match a, b with Some x, Some y => Some (x * y)%Q | _, _ => None end.

Definition num_of_Z (a : option Z) : option Q :=
  match a with Some x => Some (inject_Z x) | None => None end.

Module MapCompression.

Record RLESegment : Type := mkSegment {
  terrain : cell;
  count : option Z       (* [None] is [NaN] *)
}.

Record RLERow : Type := mkRow {
  segments : list RLESegment;
  y : Z
}.

Record Dimensions : Type := mkDimensions {
  width : option Z;
  height : option Z
}.

Record Metadata : Type := mkMetadata {
  theme : cell;
  seed : option Z;
  version : cell;
  compressionRatio : option Q   (* [None]: [NaN] or an infinity *)
}.

Record CompressedMapData : Type := mkData {
  dimensions : Dimensions;
  rleData : list RLERow;
  metadata : Metadata
}.

(** [(1 - (compressedSize / originalSize)) * 100]; the quotient is not
    finite when [originalSize] is [0]. *)
Definition ratio (compressedSize : Z) (originalSize : option Z)
    : option Q :=
  match originalSize with
  | Some o =>
      if o =? 0 then None
      else Some ((1 - inject_Z compressedSize / inject_Z o) * 100)%Q
  | None => None
  end.

(** [rleData.reduce((sum, row) => sum + row.segments.length, 0)] *)
Definition compressedSize (rleData : list RLERow) : Z :=
  fold_left (fun sum row => sum + Z.of_nat (length (segments row))) rleData 0.

(** The body of the loop over [x] in [compressMap], on the segments
    pushed so far, [currentTerrain] and [count]. *)
Definition scanStep (row : jsarray) (st : list RLESegment * cell * Z)
    (x : Z) : list RLESegment * cell * Z :=
  let '(segments, currentTerrain, count) := st in
  if cell_eqb (arr_get row x) currentTerrain
  then (segments, currentTerrain, count + 1)
  else (segments ++ [mkSegment currentTerrain (Some count)], arr_get row x, 1).

(** The body of the loop over [y] in [compressMap]: the segments of one
    row, scanning [x = 1 .. width - 1] and pushing the final segment. *)
Definition compressRow (width : Z) (row : jsarray) : list RLESegment :=
  let '(segments, currentTerrain, count) :=
    fold_left (scanStep row) (seqZ 1 (width - 1)) ([], arr_get row 0, 1) in
  segments ++ [mkSegment currentTerrain (Some count)].

(** [compressMap] *)
Definition compressMap (terrainLayer : Grid) (seed : Z) (theme : string)
    : CompressedMapData :=
  let height := height_of terrainLayer in
  let width := match terrainLayer with r :: _ => len r | [] => 0 end in
  let rleData :=
    imap (fun y row => mkRow (compressRow width row) (Z.of_nat y))
         terrainLayer in
  let originalSize := height * width in
  let compressedSize := compressedSize rleData in
  let compressionRatio := ratio compressedSize (Some originalSize) in
  mkData (mkDimensions (Some width) (Some height)) rleData
         (mkMetadata (Some theme) (Some seed) (Some "1.0.0") compressionRatio).

(** The properties of a [CompressedMapData] object, as [compressMap]
    and [fromCompactString] build it. *)
Inductive property : Type :=
| PDimensions (d : Dimensions)
| PRows (r : list RLERow)
| PMetadata (m : Metadata).

Definition own_properties (c : CompressedMapData)
    : list (string * property) :=
  [ ("dimensions", PDimensions (dimensions c));
    ("rleData", PRows (rleData c));
    ("metadata", PMetadata (metadata c)) ].

(** [const { k } = compressedData]: the property, or [undefined]. *)
Definition destructure (c : CompressedMapData) (k : string)
    : option property :=
  snd <$> List.find (fun p => String.eqb (fst p) k) (own_properties c).

(** The bound [b] of a loop test [y < b], when [b] is a number:
    against [undefined], or an object, the test is false. *)
Definition as_bound (v : option property) : option Z :=
  match v with
  | None => None
  | Some (PDimensions _) => None
  | Some (PRows _) => None
  | Some (PMetadata _) => None
  end.

Definition as_rows (v : option property) : list RLERow :=
  match v with Some (PRows r) => r | _ => [] end.

(** The loops over [rleRow.segments] and [i < segment.count]. *)
Definition expandSegments (segs : list RLESegment) : jsarray :=
  fold_left
    (fun row segment =>
       match count segment with
       | Some n =>
           fold_left (fun row _ => arr_push row (terrain segment))
                     (seqZ 0 n) row
       | None => row
       end)
    segs arr_empty.

(** The loop [for (let y = 0; y < height; y++)] of [decompressMap]. *)
Definition decompressRows (height : option Z) (rleData : list RLERow)
    : Grid :=
  match height with
  | None => []
  | Some h =>
      (fun y0 =>
         match List.find (fun r => y r =? y0) rleData with
         | Some rleRow => expandSegments (segments rleRow)
         | None => arr_empty
         end) <$> seqZ 0 h
  end.

(** [decompressMap]: [width], [height] and [rleData] are destructured
    from [compressedData] itself. *)
Definition decompressMap (compressedData : CompressedMapData) : Grid :=
  let width := destructure compressedData "width" in
  let height := destructure compressedData "height" in
  let rleData := destructure compressedData "rleData" in
  decompressRows (as_bound height) (as_rows rleData).

(** The four header fields and the row fields of a compact string. *)
Definition header (compactString : string) : list string :=
  firstn 4 (split "|" compactString).

Definition rowFields (compactString : string) : list string :=
  let parts := split "|" compactString in
  let rleString := join "|" (skipn 4 parts) in
  split "|" rleString.

(** [rowStr.split(',').map(segStr => ...)] *)
Definition parseSegments (rowStr : string) : list RLESegment :=
  (fun segStr =>
     let fields := split ":" segStr in
     let terrain := fields !! 0%nat in
     let countStr := fields !! 1%nat in
     mkSegment terrain (parseInt countStr)) <$> split "," rowStr.

(** [dimensionsStr.split('x').map(Number)] *)
Definition parseDimensions (dimensionsStr : string) : Dimensions :=
  let nums := Number <$> split "x" dimensionsStr in
  mkDimensions (mjoin (nums !! 0%nat)) (mjoin (nums !! 1%nat)).

(** [fromCompactString].  No statement of the function throws: the
    first field of a split always exists, and the others are read as
    [undefined] when missing. *)
Definition fromCompactString (compactString : string)
    : result CompressedMapData :=
  let hd := header compactString in
  let dimensionsStr := default "" (hd !! 0%nat) in
  let seedStr := hd !! 1%nat in
  let theme := hd !! 2%nat in
  let version := hd !! 3%nat in
  let dims := parseDimensions dimensionsStr in
  let rleData :=
    imap (fun y rowStr => mkRow (parseSegments rowStr) (Z.of_nat y))
         (rowFields compactString) in
  let seed := parseInt seedStr in
  let originalSize := nan_mul (width dims) (height dims) in
  let compressedSize := compressedSize rleData in
  let compressionRatio := ratio compressedSize originalSize in
  Ok (mkData dims rleData (mkMetadata theme seed version compressionRatio)).

(** The sum of the counts of a row. *)
Definition sumCounts (segs : list RLESegment) : option Z :=
  fold_left (fun sum seg => nan_add sum (count seg)) segs (Some 0).

(** [`${n}`] for a number: the decimal digits of an integer, with a
    leading minus sign when negative, and [NaN] for [NaN].  This is what
    the code writes for the integers it can hold exactly, those of
    absolute value below 2^53; a larger number is rounded, and written
    with an exponent from 10^21 on, which this model does not follow. *)
Definition show_number (n : option Z) : string :=
  match n with
  | Some z => NilZero.string_of_int (Z.to_int z)
  | None => "NaN"
  end.

(** [`${s}`] for a string that may be [undefined]. *)
Definition show_string (s : cell) : string :=
  match s with Some s => s | None => "undefined" end.

(** [`${seg.terrain}:${seg.count}`] *)
Definition show_segment (seg : RLESegment) : string :=
  (show_string (terrain seg) ++ ":" ++ show_number (count seg))%string.

(** [toCompactString] *)
Definition toCompactString (compressedData : CompressedMapData) : string :=
  let dimensions := dimensions compressedData in
  let rleData := rleData compressedData in
  let metadata := metadata compressedData in
  let header :=
    (show_number (width dimensions) ++ "x" ++ show_number (height dimensions)
     ++ "|" ++ show_number (seed metadata)
     ++ "|" ++ show_string (theme metadata)
     ++ "|" ++ show_string (version metadata))%string in
  let rleString :=
    join "|" ((fun row => join "," (show_segment <$> segments row)) <$> rleData) in
  (header ++ "|" ++ rleString)%string.

(** The value [getCompressionStats] returns. *)
Record CompressionStats : Type := mkStats {
  originalSize : Z;
  estimatedCompressedSize : Z;
  compressionRatio' : option Q   (* the field [compressionRatio] *)
}.

(** The body of the loop over [x] in [getCompressionStats], on
    [estimatedCompressedSize], [currentTerrain] and [count]. *)
Definition countStep (row : jsarray) (st : Z * cell * Z) (x : Z)
    : Z * cell * Z :=
  let '(estimatedCompressedSize, currentTerrain, count) := st in
  if cell_eqb (arr_get row x) currentTerrain
  then (estimatedCompressedSize, currentTerrain, count + 1)
  else (estimatedCompressedSize + 1, arr_get row x, 1).

(** [getCompressionStats] *)
Definition getCompressionStats (terrainLayer : Grid) : CompressionStats :=
  let height := height_of terrainLayer in
  let width := match terrainLayer with r :: _ => len r | [] => 0 end in
  let originalSize := height * width in
  let estimatedCompressedSize :=
    fold_left
      (fun estimatedCompressedSize row =>
         let '(estimatedCompressedSize, _, _) :=
           fold_left (countStep row) (seqZ 1 (width - 1))
                     (estimatedCompressedSize, arr_get row 0, 1) in
         estimatedCompressedSize + 1)
      terrainLayer 0 in
  let compressionRatio := ratio estimatedCompressedSize (Some originalSize) in
  mkStats originalSize estimatedCompressedSize compressionRatio.

End MapCompression.

(** [TerrainGenerator.generateCompressedMap]: the grid of a fresh call of
    [generate()], encoded with the seed and theme of the configuration. *)
Definition generateCompressedMap (fuel : nat) (g : TerrainGenerator)
    : result (MapCompression.CompressedMapData * TerrainGenerator) :=
  match generate fuel g with
  | Ok (terrainLayer, g') =>
      Ok (MapCompression.compressMap terrainLayer (seed (config g))
                                     (theme (config g)), g')
  | Throw e => Throw e
  | OutOfFuel => OutOfFuel
  end.

(** ** The tactical scorer: [src/generators/encounter-balancer.ts] *)

Definition rbind {A B} (r : result A) (k : A -> result B) : result B :=
  match r with
  | Ok x => k x
  | Throw e => Throw e
  | OutOfFuel => OutOfFuel
  end.

(** A loop over a list of offsets [[dx, dy]], threading an accumulator. *)
Fixpoint fold_offsets {A} (l : list (Z * Z)) (f : Z -> Z -> A -> result A)
    (acc : A) : result A :=
  match l with
  | [] => Ok acc
  | (dx, dy) :: l' => rbind (f dx dy acc) (fold_offsets l' f)
  end.

(** [[[-1, 0], [1, 0], [0, -1], [0, 1]]] *)
Definition cardinal : list (Z * Z) := [(-1, 0); (1, 0); (0, -1); (0, 1)].

(** The [directions] of [calculateFlanking]. *)
Definition cardinal_then_diagonal : list (Z * Z) :=
  [(-1, 0); (1, 0); (0, -1); (0, 1); (-1, -1); (-1, 1); (1, -1); (1, 1)].

Module EncounterBalancer.

(** The body shared by the neighbour loops: under the bounds guard,
    read [terrain[ny][nx]] and update the accumulator. *)
Definition visit {A} (terrain : Grid) (x y : Z)
    (update : Z -> Z -> cell -> A -> result A) (dx dy : Z) (acc : A)
    : result A :=
  let nx := x + dx in
  let ny := y + dy in
  rbind (in_bounds_xy terrain nx ny) (fun inb =>
    if inb then
      rbind (get terrain ny nx) (fun neighborTerrain =>
        update nx ny neighborTerrain acc)
    else Ok acc).

(** [hasTacticalViability] *)
Definition hasTacticalViability (terrain : Grid) (x y : Z) : result bool :=
  rbind
    (fold_offsets around
       (visit terrain x y (fun _ _ neighborTerrain viableNeighbors =>
          if negb (truthy (TerrainUtils.blocksMovement neighborTerrain))
          then Ok (viableNeighbors + 1) else Ok viableNeighbors)) 0)
    (fun viableNeighbors => Ok (2 <=? viableNeighbors)).

(** [isSuitableForMonster] *)
Definition isSuitableForMonster (terrain : Grid) (x y : Z) : result bool :=
  rbind (get terrain y x) (fun terrainType =>
    if truthy (TerrainUtils.blocksMovement terrainType) then Ok false
    else if includes ["pit"; "lava"; "water"] terrainType then Ok false
    else hasTacticalViability terrain x y).

(** [getTerrainTacticalValue] *)
Definition getTerrainTacticalValue (terrainType : cell) : Z :=
  if cell_is terrainType "difficult" then 8
  else if cell_is terrainType "ruins" then 10
  else if cell_is terrainType "mushrooms" then 7
  else if cell_is terrainType "crystal" then 5
  else if cell_is terrainType "altar" then 12
  else if cell_is terrainType "empty" then 3
  else 1.

(** [calculateCover] *)
Definition calculateCover (terrain : Grid) (x y : Z) : result Q :=
  fold_offsets around
    (visit terrain x y (fun _ _ neighborTerrain cover =>
       if truthy (TerrainUtils.blocksLineOfSight neighborTerrain)
       then Ok (cover + 1)%Q
       else if includes ["ruins"; "mushrooms"; "difficult"] neighborTerrain
       then Ok (cover + (1 # 2))%Q
       else Ok cover)) 0%Q.

(** [countApproachableDirections] *)
Definition countApproachableDirections (terrain : Grid) (x y : Z)
    : result Z :=
  fold_offsets cardinal
    (visit terrain x y (fun _ _ neighborTerrain count =>
       if negb (truthy (TerrainUtils.blocksMovement neighborTerrain))
       then Ok (count + 1) else Ok count)) 0.

(** [calculateFlanking] *)
Definition calculateFlanking (terrain : Grid) (x y : Z) : result Z :=
  fold_offsets cardinal_then_diagonal
    (visit terrain x y (fun nx ny neighborTerrain flanking =>
       if negb (truthy (TerrainUtils.blocksMovement neighborTerrain)) then
         rbind (countApproachableDirections terrain nx ny)
           (fun approachCount =>
              if 3 <=? approachCount then Ok (flanking + 1) else Ok flanking)
       else Ok flanking)) 0.

(** [calculateMobility].  The movement cost read from a member of
    [Object.prototype] is [undefined], and [3 - undefined] is [NaN]: the
    sum is then [NaN] ([None]). *)
Definition calculateMobility (terrain : Grid) (x y : Z)
    : result (option Z) :=
  fold_offsets cardinal
    (visit terrain x y (fun _ _ neighborTerrain mobility =>
       let movementCost := TerrainUtils.getMovementCost neighborTerrain in
       if negb (truthy (TerrainUtils.blocksMovement neighborTerrain))
       then Ok (nan_add mobility
                        (nan_max (Some 0) (nan_sub (Some 3) movementCost)))
       else Ok mobility)) (Some 0).

(** [getElevation]: the placeholder returns [undefined]. *)
Definition getElevation (terrain : Grid) (x y : Z) : option Z := None.

(** [calculateTacticalValue]; the value is [NaN] ([None]) when the
    mobility is. *)
Definition calculateTacticalValue (terrain : Grid) (x y : Z)
    : result (option Q) :=
  let value := Some 0%Q in
  rbind (get terrain y x) (fun terrainType =>
  let value :=
    num_add value (Some (inject_Z (getTerrainTacticalValue terrainType))) in
  rbind (calculateCover terrain x y) (fun cover =>
  let value := num_add value (Some (cover * 10)%Q) in
  rbind (calculateFlanking terrain x y) (fun flanking =>
  let value := num_add value (Some (inject_Z flanking * 5)%Q) in
  rbind (calculateMobility terrain x y) (fun mobility =>
  let value := num_add value (num_mul (num_of_Z mobility) (Some 3%Q)) in
  let elevation := default 0 (getElevation terrain x y) in
  let value := num_add value (Some (inject_Z elevation * 2)%Q) in
  Ok value)))).

(** [EncounterDifficulty.roleDistribution], and the [composition] object
    of [generateMonsterComposition], which has the same four keys. *)
Record RoleDistribution : Type := mkRoles {
  minions : Z;
  standards : Z;
  elites : Z;
  solos : Z
}.

Record EncounterDifficulty : Type := mkDifficulty {
  level : Z;
  maxPlayers : Z;
  minMonsters : Z;
  maxMonsters : Z;
  xpBudget : Z;
  roleDistribution : RoleDistribution
}.

(** [getDifficultyConfig], for an integer level. *)
Definition getDifficultyConfig (level : Z) : EncounterDifficulty :=
  let baseXP := level * 100 in
  mkDifficulty level 6 (Z.max 2 level) (Z.max 4 (level * 2)) (baseXP * 4)
    (mkRoles (baseXP / 25) (baseXP / 100) (baseXP / 200)
             (if 3 <=? level then 1 else 0)).

(** [calculateXPBudget], for an integer player count. *)
Definition calculateXPBudget (difficulty : EncounterDifficulty)
    (playerCount : Z) : Z :=
  let baseBudget := xpBudget difficulty in
  let playerMultiplier := (inject_Z playerCount / 4)%Q in
  Qfloor (inject_Z baseBudget * playerMultiplier).

(** [while (remainingXP >= cost && count < cap)
       { count++; remainingXP -= cost; }]
    on [count] and [remainingXP], [fuel] iterations at most. *)
Fixpoint spend (fuel : nat) (cost cap count remainingXP : Z)
    : result (Z * Z) :=
  if (cost <=? remainingXP) && (count <? cap) then
    match fuel with
    | O => OutOfFuel
    | S fuel' => spend fuel' cost cap (count + 1) (remainingXP - cost)
    end
  else Ok (count, remainingXP).

(** [generateMonsterComposition] *)
Definition generateMonsterComposition (fuel : nat)
    (difficulty : EncounterDifficulty) (xpBudget : Z)
    : result RoleDistribution :=
  let caps := roleDistribution difficulty in
  let remainingXP := xpBudget in
  rbind (spend fuel 200 (elites caps) 0 remainingXP)
    (fun '(elites, remainingXP) =>
  rbind (spend fuel 100 (standards caps) 0 remainingXP)
    (fun '(standards, remainingXP) =>
  rbind (spend fuel 25 (minions caps) 0 remainingXP)
    (fun '(minions, remainingXP) =>
  let solos :=
    if (500 <=? remainingXP) && (0 <? solos caps) then 1 else 0 in
  Ok (mkRoles minions standards elites solos)))).

Record TacticalPosition : Type := mkPosition {
  position : Z * Z;          (* [{ x, y }] *)
  tacticalValue : option Q;  (* [None] is [NaN] *)
  terrainType : cell;
  cover : Q;
  flanking : Z;
  mobility : option Z        (* [None] is [NaN] *)
}.

(** A loop over indices in the error monad, threading [acc]. *)
Fixpoint rforM {S} (l : list Z) (body : Z -> S -> result S) (acc : S)
    : result S :=
  match l with
  | [] => Ok acc
  | i :: l' => rbind (body i acc) (rforM l' body)
  end.

(** [analyzeAllPositions].  The test [x < terrain[0].length] is only
    evaluated inside the loop over the rows, and [terrain] is not
    written: its value is read once per row. *)
Definition analyzeAllPositions (terrain : Grid)
    : result (list TacticalPosition) :=
  rforM (seqZ 0 (height_of terrain)) (fun y positions =>
    rbind (width_of terrain) (fun w0 =>
    rforM (seqZ 0 w0) (fun x positions =>
      rbind (isSuitableForMonster terrain x y) (fun suitable =>
      if suitable then
        rbind (calculateTacticalValue terrain x y) (fun tacticalValue =>
        rbind (get terrain y x) (fun terrainType =>
        rbind (calculateCover terrain x y) (fun cover =>
        rbind (calculateFlanking terrain x y) (fun flanking =>
        rbind (calculateMobility terrain x y) (fun mobility =>
        Ok (positions ++
            [mkPosition (x, y) tacticalValue terrainType cover flanking
                        mobility]))))))
      else Ok positions)) positions)) [].

(** The comparator [(a, b) => b.tacticalValue - a.tacticalValue], as the
    sort reads it: a result [NaN] counts as [+0]. *)
Definition compare_positions (a b : TacticalPosition) : Q :=
  match num_sub (tacticalValue b) (tacticalValue a) with
  | Some v => v
  | None => 0%Q
  end.

(** [allPositions.sort((a, b) => b.tacticalValue - a.tacticalValue)]:
    descending by tactical value; the sort is stable, so positions of
    equal value keep their order.  [insert_position a l] puts [a] in
    front of the sorted positions [l] that followed it: [a] moves behind
    [b] only when the comparator is positive.  When every value is a
    number the comparator is a consistent one and this is the order any
    stable sort gives; with a [NaN] among the values the language leaves
    the order to the implementation. *)
Fixpoint insert_position (a : TacticalPosition) (l : list TacticalPosition)
    : list TacticalPosition :=
  match l with
  | [] => [a]
  | b :: l' =>
      if Qltb 0 (compare_positions a b)
      then b :: insert_position a l'
      else a :: l
  end.

Definition sort_positions (l : list TacticalPosition)
    : list TacticalPosition :=
  foldr insert_position [] l.

(** [findTacticalPositions] *)
Definition findTacticalPositions (terrain : Grid)
    (composition : RoleDistribution) : result (list TacticalPosition) :=
  let totalMonsters :=
    0 + minions composition + standards composition + elites composition
    + solos composition in
  rbind (analyzeAllPositions terrain) (fun allPositions =>
  let allPositions := sort_positions allPositions in
  Ok (take (Z.to_nat (Z.min totalMonsters (Z.of_nat (length allPositions))))
           allPositions)).

(** [getTacticalPreferences] *)
Definition getTacticalPreferences (position : TacticalPosition)
    : list string :=
  (if Qltb 2 (cover position) then ["use_cover"] else [])
  ++ (if 3 <? flanking position then ["flank"] else [])
  ++ (if match mobility position with Some m => 4 <? m | None => false end
      then ["mobile"] else []).

End EncounterBalancer.

(** ** Notions used to state the properties *)

(** The cell [(x, y)] of the grid an outcome carries. *)
Definition outcome_cell {A} (r : result (Grid * A)) (x y : Z) : result cell :=
  match r with
  | Ok (terrain, _) => Ok (cell_at terrain x y)
  | Throw e => Throw e
  | OutOfFuel => OutOfFuel
  end.

Definition is_ok {A} (r : result A) : bool :=
  match r with Ok _ => true | _ => false end.

(** The grid an outcome carries. *)
Definition outcome_grid {A} (r : result (Grid * A)) : result Grid :=
  match r with
  | Ok (terrain, _) => Ok terrain
  | Throw e => Throw e
  | OutOfFuel => OutOfFuel
  end.


(** The cells of the four edges of a [w] by [h] grid, as [(x, y)]. *)
Definition edge_cells (w h : Z) : list (Z * Z) :=
  List.filter
    (fun '(x, y) => (x =? 0) || (x =? w - 1) || (y =? 0) || (y =? h - 1))
    (y ← seqZ 0 h; x ← seqZ 0 w; [(x, y)]).

(** Obstructing terrain, read generously: terrain that blocks movement in
    the terrain table, or ['difficult'], the id the partition layout
    writes on borders and room perimeters. *)
Definition obstructing (c : cell) : bool :=
  truthy (TerrainUtils.blocksMovement c) || cell_is c "difficult".

(** The edge cells of an outcome's grid that are not obstructing. *)
Definition open_edge_cells {A} (w h : Z) (r : result (Grid * A))
    : list (Z * Z) :=
  match r with
  | Ok (terrain, _) =>
      List.filter (fun '(x, y) => negb (obstructing (cell_at terrain x y)))
                  (edge_cells w h)
  | _ => []
  end.

(** The initial fill of [generateCellular] alone. *)
Definition cellularFill (c : GenerationConfig) : M Grid :=
  let* terrain := lift (new_grid (height c) (width c) "wall") in
  initialFillPass (width c) (height c)
    (or_defaultQ (initialFill (parameters c)) (45 # 100)) terrain.

(** A cellular run without any update pass: the initial fill, then the
    feature pass. *)
Definition cellularWithoutUpdate (c : GenerationConfig) : M Grid :=
  let* terrain := cellularFill c in
  addCellularFeatures c terrain.

Definition with_iterations (c : GenerationConfig) (n : option Z)
    : GenerationConfig :=
  let p := parameters c in
  mkConfig (width c) (height c) (seed c) (theme c) (algorithm c)
    (mkParameters (minRoomSize p) (maxRooms p) (corridorWidth p)
       (initialFill p) n (birthLimit p) (deathLimit p) (steps p)
       (branchChance p)).

Definition with_algorithm (c : GenerationConfig) (alg : string)
    : GenerationConfig :=
  mkConfig (width c) (height c) (seed c) (theme c) alg (parameters c).

(** *** The scorer, as the specification words it *)

(** The position [(x, y)] lies in the grid. *)
Definition inside (t : Grid) (x y : Z) : bool :=
  (0 <=? x) && (x <? match t with r :: _ => len r | [] => 0 end) &&
  (0 <=? y) && (y <? height_of t).

(** The sum of [weight nx ny c] over the neighbours [(nx, ny)] of [(x, y)]
    at the given offsets that lie in the grid, [c] being the terrain
    there. *)
Definition neighbour_sum (offsets : list (Z * Z)) (t : Grid) (x y : Z)
    (weight : Z -> Z -> cell -> Z) : Z :=
  foldr Z.add 0
    ((fun '(dx, dy) =>
        if inside t (x + dx) (y + dy)
        then weight (x + dx) (y + dy) (cell_at t (x + dx) (y + dy))
        else 0) <$> offsets).

Definition indicator (b : bool) : Z := if b then 1 else 0.

(** Terrain that does not block movement. *)
Definition walkable (c : cell) : bool :=
  negb (truthy (TerrainUtils.blocksMovement c)).

(** Terrain that blocks line of sight. *)
Definition blocks_sight (c : cell) : bool :=
  truthy (TerrainUtils.blocksLineOfSight c).

Definition hazard (c : cell) : bool := includes ["pit"; "lava"; "water"] c.

(** The secondary, partial-cover terrain set. *)
Definition partial_cover (c : cell) : bool :=
  includes ["ruins"; "mushrooms"; "difficult"] c.

(** Eligible for placement: walkable, no hazard, and at least 2 of the 8
    neighbours walkable. *)
Definition eligible (t : Grid) (x y : Z) : bool :=
  walkable (cell_at t x y) && negb (hazard (cell_at t x y)) &&
  (2 <=? neighbour_sum around t x y (fun _ _ c => indicator (walkable c))).

(** 1 for each of the 8 neighbours that blocks line of sight, 0.5 for each
    other neighbour of the partial-cover set. *)
Definition cover_of (t : Grid) (x y : Z) : Q :=
  inject_Z (neighbour_sum around t x y
              (fun _ _ c => indicator (blocks_sight c)))
  + (1 # 2) *
    inject_Z (neighbour_sum around t x y
                (fun _ _ c => indicator (negb (blocks_sight c)
                                         && partial_cover c))).

(** The cover as the claim words it: 1 for each of the 8 neighbours that
    blocks line of sight and 0.5 for each neighbour of the partial-cover
    set, whether or not it blocks line of sight. *)
Definition cover_as_worded (t : Grid) (x y : Z) : Q :=
  inject_Z (neighbour_sum around t x y
              (fun _ _ c => indicator (blocks_sight c)))
  + (1 # 2) *
    inject_Z (neighbour_sum around t x y
                (fun _ _ c => indicator (partial_cover c))).

(** The walkable cardinal neighbours of a position. *)
Definition open_lanes (t : Grid) (x y : Z) : Z :=
  neighbour_sum cardinal t x y (fun _ _ c => indicator (walkable c)).

(** The 8 neighbours that are walkable and have at least 3 of their own 4
    cardinal neighbours walkable. *)
Definition flanking_of (t : Grid) (x y : Z) : Z :=
  neighbour_sum around t x y
    (fun nx ny c => indicator (walkable c && (3 <=? open_lanes t nx ny))).

(** The sum of the numbers [weight nx ny c] over the neighbours in the
    grid; it is [NaN] ([None]) as soon as one of them is. *)
Definition neighbour_nan_sum (offsets : list (Z * Z)) (t : Grid) (x y : Z)
    (weight : Z -> Z -> cell -> option Z) : option Z :=
  foldr nan_add (Some 0)
    ((fun '(dx, dy) =>
        if inside t (x + dx) (y + dy)
        then weight (x + dx) (y + dy) (cell_at t (x + dx) (y + dy))
        else Some 0) <$> offsets).

(** [max(0, 3 - movementCost)]: a number for the terrains of the table
    and for unknown names, [NaN] for a name inherited from
    [Object.prototype], which has no movement cost. *)
Definition ease (c : cell) : option Z :=
  nan_max (Some 0) (nan_sub (Some 3) (TerrainUtils.getMovementCost c)).

(** [max(0, 3 - movementCost)] summed over the walkable cardinal
    neighbours. *)
Definition mobility_of (t : Grid) (x y : Z) : option Z :=
  neighbour_nan_sum cardinal t x y
    (fun _ _ c => if walkable c then ease c else Some 0).

(** No elevation is recorded: the term is 0. *)
Definition elevation_of (t : Grid) (x y : Z) : Z := 0.

(** [terrainBaseValue + 10 cover + 5 flanking + 3 mobility + 2 elevation],
    which is [NaN] when the mobility is. *)
Definition tactical_value (t : Grid) (x y : Z) : option Q :=
  match mobility_of t x y with
  | Some mobility =>
      Some (inject_Z (EncounterBalancer.getTerrainTacticalValue (cell_at t x y))
            + 10 * cover_of t x y
            + 5 * inject_Z (flanking_of t x y)
            + 3 * inject_Z mobility
            + 2 * inject_Z (elevation_of t x y))%Q
  | None => None
  end.

(** Two numbers are the same: both [NaN], or equal rationals. *)
Definition same_number (a b : option Q) : Prop :=
  match a, b with
  | Some x, Some y => (x == y)%Q
  | None, None => True
  | _, _ => False
  end.

(** A cell value that is not a name inherited from [Object.prototype]. *)
Definition plain (c : cell) : bool :=
  match c with Some name => negb (inherited name) | None => true end.

(** No cell of the grid holds a name inherited from [Object.prototype]:
    every terrain id is a key of the table or an unknown name. *)
Definition ordinary (t : Grid) : bool :=
  forallb (fun row =>
             forallb (fun kv => negb (inherited (snd kv)))
                     (map_to_list (cells row))) t.

(** A grid with a cell named after a member of [Object.prototype]. *)
Definition arena_with_constructor : Grid :=
  grid_of_lists
    [ ["empty"; "constructor"; "empty"];
      ["empty"; "empty";       "empty"] ].

(** A small arena: a walled room with a pillar of ruins and a patch of
    difficult terrain. *)
Definition arena : Grid :=
  grid_of_lists
    [ ["wall"; "wall";  "wall";      "wall";  "wall"];
      ["wall"; "empty"; "empty";     "empty"; "wall"];
      ["wall"; "empty"; "ruins";     "empty"; "wall"];
      ["wall"; "empty"; "difficult"; "pit";   "wall"];
      ["wall"; "wall";  "wall";      "wall";  "wall"] ].

(** The dimensions a compact string declares in its first field. *)
Definition declaredDimensions (compactString : string)
    : MapCompression.Dimensions :=
  MapCompression.parseDimensions
    (default "" (MapCompression.header compactString !! 0%nat)).

(** The counts of a row field sum to the declared width. *)
Definition rowSumMatches (compactString rowStr : string) : bool :=
  match MapCompression.sumCounts (MapCompression.parseSegments rowStr),
        MapCompression.width (declaredDimensions compactString) with
  | Some total, Some w => total =? w
  | _, _ => false
  end.

(** The number of row fields is the declared height. *)
Definition rowCountMatches (compactString : string) : bool :=
  match MapCompression.height (declaredDimensions compactString) with
  | Some h => Z.of_nat (length (MapCompression.rowFields compactString)) =? h
  | None => false
  end.

(** The cells a list of segments stands for. *)
Definition expandCells (segs : list MapCompression.RLESegment) : list cell :=
  segs ≫= (fun seg =>
    match MapCompression.count seg with
    | Some n => replicate (Z.to_nat n) (MapCompression.terrain seg)
    | None => []
    end).

(** The array [r] after pushing the values of [l]. *)
Definition push_all (l : list cell) (r : jsarray) : jsarray :=
  fold_left arr_push l r.

(** The number of positions [1 .. n] of a row at which the terrain
    differs from the cell before. *)
Definition changes (row : jsarray) (n : Z) : nat :=
  length (filter (fun i => arr_get row i <> arr_get row (i - 1)) (seqZ 1 n)).

(** The rows of a matrix all have [w] cells. *)
Definition rectangular (w : Z) (rows : list (list string)) : Prop :=
  Forall (fun row => Z.of_nat (length row) = w) rows.

(** Two consecutive cells of a row hold the same id. *)
Definition has_run (row : list string) : Prop :=
  exists (i : nat) (t : string), row !! i = Some t /\ row !! S i = Some t.

(** The number of segments of all rows. *)
Definition totalSegments (c : MapCompression.CompressedMapData) : Z :=
  MapCompression.compressedSize (MapCompression.rleData c).

(** The grid of the concrete scenario of the specification. *)
Definition sample_3x2 : list (list string) :=
  [["wall"; "wall"; "wall"]; ["empty"; "empty"; "wall"]].

Definition sample_3x2_string : string :=
  "3x2|1|dungeon|1.0.0|wall:3|empty:2,wall:1".

(** A row whose counts sum to 2 under a declared width of 3. *)
Definition short_row_string : string :=
  "3x2|1|dungeon|1.0.0|wall:2|empty:2,wall:1".

(** One row field under a declared height of 2. *)
Definition missing_row_string : string :=
  "3x2|1|dungeon|1.0.0|wall:3".

(** A recursion budget that covers the partition of the interior of the
    grid: each split shortens one side of a region. *)
Definition enough_fuel (c : GenerationConfig) (fuel : nat) : Prop :=
  Z.max 0 ((width c - 2) + (height c - 2)) < Z.of_nat fuel.

(** *** Sample configurations *)

(** A 10 by 10 partition layout with corridors 4 cells wide. *)
Definition bsp_10x10_wide : GenerationConfig :=
  mkConfig 10 10 100000 "dungeon" "bsp"
    (mkParameters None None (Some 4) None None None None None None).

(** The same layout with the default corridor width. *)
Definition bsp_10x10 : GenerationConfig :=
  mkConfig 10 10 100000 "dungeon" "bsp" no_parameters.

(** The 25 by 25 scenario of the specification (seed 12345,
    [minRoomSize = 4], [maxRooms = 8]) with corridors 6 cells wide. *)
Definition bsp_25x25_wide : GenerationConfig :=
  mkConfig 25 25 12345 "dungeon" "bsp"
    (mkParameters (Some 4) (Some 8) (Some 6) None None None None None None).

(** A 6 by 6 cave. *)
Definition cave_6x6 : GenerationConfig :=
  mkConfig 6 6 12345 "dungeon" "cellular" no_parameters.

(** The same cave with [iterations: 0]. *)
Definition cave_6x6_zero : GenerationConfig :=
  with_iterations cave_6x6 (Some 0).

(** A configuration whose algorithm is none of the five names. *)
Definition voronoi_10x10 : GenerationConfig :=
  with_algorithm bsp_10x10 "voronoi".

(** A grid too small for the partition layout, under the same name. *)
Definition voronoi_3x3 : GenerationConfig :=
  mkConfig 3 3 1 "dungeon" "voronoi" no_parameters.

(** *** Notions used in the proofs *)

Definition in_range (s : Z) : Prop := 0 <= s < Rng.m.

(** From every state of the stream, [c] returns a value satisfying [P]:
    it neither throws nor runs out of fuel. *)
Definition returns {A} (c : M A) (P : A -> Prop) : Prop :=
  forall s, exists a s', c s = Ok (a, s') /\ P a.

(** From a stream state in [0, m), [c] returns or throws, never runs out
    of fuel; a returned value satisfies [P] and the state stays in
    [0, m). *)
Definition completes {A} (c : M A) (P : A -> Prop) : Prop :=
  forall s, in_range s ->
    match c s with
    | Ok (a, s') => in_range s' /\ P a
    | Throw _ => True
    | OutOfFuel => False
    end.

(** From a stream state in [0, m), [c] returns a value satisfying [P]
    and leaves the state in [0, m). *)
Definition succeeds {A} (c : M A) (P : A -> Prop) : Prop :=
  forall s, in_range s ->
    exists a s', c s = Ok (a, s') /\ in_range s' /\ P a.

(** The room lies in the region [(x, y, w, h)]. *)
Definition room_within (x y w h : Z) (room : Room.t) : Prop :=
  x <= Room.x room /\ Room.x room + Room.width room <= x + w /\
  y <= Room.y room /\ Room.y room + Room.height room <= y + h.

(** A grid of [h] rows whose rows all have length [w]. *)
Definition shaped (w h : Z) (t : Grid) : Prop :=
  height_of t = h /\ Forall (fun r => len r = w) t.

Definition on_edge (w h x y : Z) : Prop :=
  x = 0 \/ x = w - 1 \/ y = 0 \/ y = h - 1.

(** Every edge cell of the [w] by [h] grid [t] holds [v]. *)
Definition edged (v : string) (w h : Z) (t : Grid) : Prop :=
  forall x y, 0 <= x < w -> 0 <= y < h -> on_edge w h x y ->
    cell_at t x y = Some v.

Definition walled (w h : Z) (t : Grid) : Prop :=
  shaped w h t /\ edged "wall" w h t.

(** No two consecutive cells of the list are equal. *)
Fixpoint no_repeat (l : list cell) : bool :=
  match l with
  | a :: ((b :: _) as l') => negb (cell_eqb a b) && no_repeat l'
  | _ => true
  end.

(** A run-length row in canonical form: every count is a number and at
    least 1, and consecutive segments hold different terrain. *)
Definition canonical_row (segs : list MapCompression.RLESegment) : bool :=
  forallb (fun seg => match MapCompression.count seg with
                      | Some n => 1 <=? n
                      | None => false
                      end) segs
  && no_repeat (MapCompression.terrain <$> segs).

(** The character [sep] does not occur in [s]. *)
Fixpoint free_of (sep : ascii) (s : string) : bool :=
  match s with
  | EmptyString => true
  | String ch s' => negb (Ascii.eqb ch sep) && free_of sep s'
  end.

(** A terrain id that can be written in a compact string: none of the
    separators of the format occurs in it. *)
Definition plain_id (s : string) : bool :=
  free_of "|" s && free_of "," s && free_of ":" s.

(** A segment that a compact string can carry: a plain terrain id and a
    count that is a number. *)
Definition printable_segment (seg : MapCompression.RLESegment) : bool :=
  match MapCompression.terrain seg, MapCompression.count seg with
  | Some id, Some _ => plain_id id
  | _, _ => false
  end.

(** [row.segments.map(seg => ...).join(',')] *)
Definition show_row (row : MapCompression.RLERow) : string :=
  join "," (MapCompression.show_segment <$> MapCompression.segments row).

(** The value of a numeral read from the left onto [acc]. *)
Fixpoint uint_value (d : Decimal.uint) (acc : Z) : Z :=
  match d with
  | Nil => acc
  | D0 d => uint_value d (10 * acc + 0)
  | D1 d => uint_value d (10 * acc + 1)
  | D2 d => uint_value d (10 * acc + 2)
  | D3 d => uint_value d (10 * acc + 3)
  | D4 d => uint_value d (10 * acc + 4)
  | D5 d => uint_value d (10 * acc + 5)
  | D6 d => uint_value d (10 * acc + 6)
  | D7 d => uint_value d (10 * acc + 7)
  | D8 d => uint_value d (10 * acc + 8)
  | D9 d => uint_value d (10 * acc + 9)
  end.

Definition is_nil (d : Decimal.uint) : bool :=
  match d with Nil => true | _ => false end.

(** The terrain ids each layout writes: the automaton and the random
    walk have fixed ids, the template and the partition layouts add the
    features of the theme. *)
Definition algorithm_ids (c : GenerationConfig) : list string :=
  if String.eqb (algorithm c) "cellular"
  then ["wall"; "empty"; "pit"; "water"; "difficult"; "crystal"]
  else if String.eqb (algorithm c) "drunkard" then ["wall"; "empty"]
  else if String.eqb (algorithm c) "template"
  then ["empty"; "wall"] ++ getThemeFeatures c
  else ["empty"; "difficult"; "pit"; "water"] ++ getThemeFeatures c.

(** Every cell of the grid that holds a value holds one of [ids]. *)
Definition cells_among (ids : list string) (t : Grid) : Prop :=
  forall x y id, cell_at t x y = Some id -> In id ids.

(** The value is [undefined] or one of [ids]. *)
Definition value_among (ids : list string) (v : cell) : Prop :=
  forall id, v = Some id -> In id ids.

(** Whenever [c] returns, the value returned satisfies [P]. *)
Definition ensures {A} (c : M A) (P : A -> Prop) : Prop :=
  forall s a s', c s = Ok (a, s') -> P a.

(** The cell [(x, y)] of the grid is open: it holds ['empty']. *)
Definition open_at (t : Grid) (x y : Z) : Prop := cell_at t x y = Some "empty".

(** Two positions next to each other in a row or in a column. *)
Definition adjacent (x y x' y' : Z) : Prop :=
  Z.abs (x - x') + Z.abs (y - y') = 1.

(** The open cells that can be reached from the open cell [(x0, y0)]
    through open cells, moving along rows and columns. *)
Inductive reachable (t : Grid) (x0 y0 : Z) : Z -> Z -> Prop :=
| reach_start : open_at t x0 y0 -> reachable t x0 y0 x0 y0
| reach_step (x y x' y' : Z) :
    reachable t x0 y0 x y -> adjacent x y x' y' -> open_at t x' y' ->
    reachable t x0 y0 x' y'.

(** A [w] by [h] grid of ['wall'] and ['empty'] whose open cells all lie
    in the grid and can be reached from [(x0, y0)]. *)
Definition cave (w h x0 y0 : Z) (t : Grid) : Prop :=
  shaped w h t /\
  (forall x y, 0 <= x < w -> 0 <= y < h ->
     cell_at t x y = Some "wall" \/ cell_at t x y = Some "empty") /\
  open_at t x0 y0 /\
  (forall x y, open_at t x y ->
     (0 <= x < w /\ 0 <= y < h) /\ reachable t x0 y0 x y).

(** A 9 by 7 random walk of 40 steps. *)
Definition walk_9x7 : GenerationConfig :=
  mkConfig 9 7 2024 "dungeon" "drunkard"
    (mkParameters None None None None None None None (Some 40) None).

(** A [w] by [h] grid all of whose cells hold a value. *)
Definition filled (w h : Z) (t : Grid) : Prop :=
  shaped w h t /\
  forall x y, 0 <= x < w -> 0 <= y < h -> is_Some (cell_at t x y).

(** The grid [t'] is [t] with theme features sprinkled on it: the two
    have the same number of rows, and a cell that differs was ['empty'] in
    [t], lies off the first row and column and off the last row, and
    holds a feature of the theme (or, for an index drawn outside the
    feature list, no value). *)
Definition sprinkled (c : GenerationConfig) (t t' : Grid) : Prop :=
  height_of t' = height_of t /\
  forall x y, cell_at t' x y <> cell_at t x y ->
    cell_at t x y = Some "empty" /\
    (1 <= x /\ 1 <= y <= height_of t - 2) /\
    value_among (getThemeFeatures c) (cell_at t' x y).

(** The 10 by 10 layout with the composite algorithm. *)
Definition mixed_10x10 : GenerationConfig := with_algorithm bsp_10x10 "mixed".

(** The cells of [t] that hold ['wall'] lie on the edge of the [w] by [h]
    rectangle. *)
Definition walls_on_edge (w h : Z) (t : Grid) : Prop :=
  forall x y, cell_at t x y = Some "wall" -> on_edge w h x y.

(** A 12 by 9 template. *)
Definition template_12x9 : GenerationConfig :=
  mkConfig 12 9 777 "mystical" "template" no_parameters.

(** The XP a composition costs, at the prices of
    [generateMonsterComposition]. *)
Definition composition_cost (c : EncounterBalancer.RoleDistribution) : Z :=
  200 * EncounterBalancer.elites c + 100 * EncounterBalancer.standards c
  + 25 * EncounterBalancer.minions c + 500 * EncounterBalancer.solos c.

(** The number of monsters of one role a budget buys: as many as the
    budget pays for, the cap of the role at most. *)
Definition bought (cost cap budget : Z) : Z :=
  Z.max 0 (Z.min cap (budget / cost)).

(** The positions of a grid in the order [analyzeAllPositions] visits
    them: row by row, along the width of the first row. *)
Definition scan_order (t : Grid) : list (Z * Z) :=
  y ← seqZ 0 (height_of t);
  x ← seqZ 0 (match t with r :: _ => len r | [] => 0 end);
  [(x, y)].

(** The record [analyzeAllPositions] pushes for a position describes that
    position. *)
Definition describes (t : Grid) (p : EncounterBalancer.TacticalPosition)
    : Prop :=
  let '(x, y) := EncounterBalancer.position p in
  eligible t x y = true /\
  same_number (EncounterBalancer.tacticalValue p) (tactical_value t x y) /\
  EncounterBalancer.terrainType p = cell_at t x y /\
  (EncounterBalancer.cover p == cover_of t x y)%Q /\
  EncounterBalancer.flanking p = flanking_of t x y /\
  EncounterBalancer.mobility p = mobility_of t x y.

(** The tactical values of [p] and [q] are numbers, and [p] is worth at
    least as much as [q]. *)
Definition outranks (p q : EncounterBalancer.TacticalPosition) : Prop :=
  match EncounterBalancer.tacticalValue p, EncounterBalancer.tacticalValue q
  with
  | Some a, Some b => (b <= a)%Q
  | _, _ => False
  end.

(** * Properties *)

(** ** The seeded stream *)

Lemma m_pos : 0 < Rng.m.
Proof. reflexivity. Qed.

Lemma next_state (s : Z) : snd (Rng.next s) = Z.rem (s * Rng.a) Rng.m.
Proof. reflexivity. Qed.

Lemma next_output (s : Z) :
  (fst (Rng.next s) == inject_Z (snd (Rng.next s)) / inject_Z Rng.m)%Q.
Proof.
  unfold Rng.next; cbn [fst snd].
  rewrite Qmake_Qdiv. rewrite Z2Pos.id by apply m_pos. reflexivity.
Qed.

(** A state in [0, m) stays there, and the truncated remainder is then
    the mathematical one. *)
Lemma next_in_range (s : Z) :
  0 <= s < Rng.m ->
  snd (Rng.next s) = (s * Rng.a) mod Rng.m /\ 0 <= snd (Rng.next s) < Rng.m.
Proof.
  intros Hs. rewrite next_state.
  assert (Ha : 0 <= s * Rng.a) by (unfold Rng.a; lia).
  rewrite Z.rem_mod_nonneg by (auto; apply m_pos).
  split; [reflexivity | apply Z.mod_pos_bound, m_pos].
Qed.

(** The product [s * a] is below 2^53: the multiplication of the two
    JavaScript numbers is exact. *)
Lemma product_exact (s : Z) : 0 <= s < Rng.m -> 0 <= s * Rng.a < 2 ^ 53.
Proof. unfold Rng.m, Rng.a. intros Hs. split; [lia|]. nia. Qed.

Lemma draw_in_unit (s : Z) :
  0 <= s < Rng.m -> (0 <= fst (Rng.next s) < 1)%Q.
Proof.
  intros Hs. destruct (next_in_range s Hs) as [_ [Hlo Hhi]].
  unfold Rng.next in *; cbn [fst snd] in *.
  unfold Qle, Qlt; cbn.
  rewrite Z2Pos.id by apply m_pos. lia.
Qed.

Lemma seededRandom_in_range (seed : Z) :
  0 <= seed ->
  Rng.seededRandom seed = seed mod Rng.m /\ 0 <= Rng.seededRandom seed < Rng.m.
Proof.
  intros Hs. unfold Rng.seededRandom.
  rewrite Z.rem_mod_nonneg by (auto; apply m_pos).
  split; [reflexivity | apply Z.mod_pos_bound, m_pos].
Qed.

Lemma state_after_in_range (n : nat) (s : Z) :
  0 <= s < Rng.m -> 0 <= Rng.state_after n s < Rng.m.
Proof.
  intros Hs. induction n as [|n IH]; [exact Hs|].
  cbn [Rng.state_after]. apply next_in_range, IH.
Qed.

(** C4: the seeded stream is the linear-congruential recurrence with
    [a = 185852] and [m = 2^35 - 31].  For a non-negative integer seed the
    state starts at [seed mod m]; every call replaces the state [s] by
    [(s * a) mod m] and returns that new state divided by [m], a value in
    [0, 1); and two generators built from the same seed return the same
    values, call after call. *)
Theorem seededRandom_is_lcg (seed : Z) (Hseed : 0 <= seed) :
  Rng.a = 185852 /\ Rng.m = 2 ^ 35 - 31 /\
  Rng.seededRandom seed = seed mod Rng.m /\
  (forall n : nat,
     let s := Rng.state_after n (Rng.seededRandom seed) in
     let s' := Rng.state_after (S n) (Rng.seededRandom seed) in
     let out := Rng.output (S n) (Rng.seededRandom seed) in
     s' = (s * Rng.a) mod Rng.m /\
     (out == inject_Z s' / inject_Z Rng.m)%Q /\
     (0 <= out < 1)%Q) /\
  (forall seed' : Z, seed' = seed ->
     forall n : nat,
       Rng.output n (Rng.seededRandom seed') = Rng.output n (Rng.seededRandom seed) /\
       Rng.draws n (Rng.seededRandom seed') = Rng.draws n (Rng.seededRandom seed)).
Proof.
  destruct (seededRandom_in_range seed Hseed) as [Hinit Hrange].
  repeat split; try reflexivity; try exact Hinit.
  - cbn [Rng.state_after].
    apply next_in_range, state_after_in_range, Hrange.
  - cbn [Rng.output Rng.state_after]. apply next_output.
  - apply draw_in_unit, state_after_in_range, Hrange.
  - apply draw_in_unit, state_after_in_range, Hrange.
  - subst seed'. reflexivity.
  - subst seed'. reflexivity.
Qed.

Lemma seededRandom_is_lcg_witness :
  Rng.a = 185852 /\ Rng.m = 2 ^ 35 - 31 /\
  Rng.seededRandom 12345 = 12345 mod Rng.m /\
  (forall n : nat,
     let s := Rng.state_after n (Rng.seededRandom 12345) in
     let s' := Rng.state_after (S n) (Rng.seededRandom 12345) in
     let out := Rng.output (S n) (Rng.seededRandom 12345) in
     s' = (s * Rng.a) mod Rng.m /\
     (out == inject_Z s' / inject_Z Rng.m)%Q /\
     (0 <= out < 1)%Q) /\
  (forall seed' : Z, seed' = 12345 ->
     forall n : nat,
       Rng.output n (Rng.seededRandom seed') = Rng.output n (Rng.seededRandom 12345) /\
       Rng.draws n (Rng.seededRandom seed') = Rng.draws n (Rng.seededRandom 12345)).
Proof. apply (seededRandom_is_lcg 12345). lia. Defined.

(** The first draws of seed 12345, scaled by 1000 and floored. *)
Example draws_12345 :
  (fun r => floor_mul r 1000) <$> Rng.draws 4 (Rng.seededRandom 12345)
  = [66; 112; 4; 948].
Proof. reflexivity. Qed.

(** ** Total correctness of stream computations *)

Lemma returns_ret {A} (a : A) (P : A -> Prop) : P a -> returns (ret a) P.
Proof. intros HP s. exists a, s. split; [reflexivity | exact HP]. Qed.

Lemma returns_bind {A B} (c : M A) (k : A -> M B) (P : A -> Prop)
    (Q : B -> Prop) :
  returns c P -> (forall a, P a -> returns (k a) Q) -> returns (bind c k) Q.
Proof.
  intros Hc Hk s. destruct (Hc s) as (a & s1 & Ec & Pa).
  destruct (Hk a Pa s1) as (b & s2 & Ek & Qb).
  exists b, s2. unfold bind. rewrite Ec. split; assumption.
Qed.

Lemma returns_lift {A} (r : result A) (a : A) (P : A -> Prop) :
  r = Ok a -> P a -> returns (lift r) P.
Proof. intros -> HP s. exists a, s. split; [reflexivity | exact HP]. Qed.

Lemma returns_random (P : Q -> Prop) : (forall r, P r) -> returns random P.
Proof.
  intros HP s. exists (fst (Rng.next s)), (snd (Rng.next s)).
  split; [|apply HP]. unfold random. destruct (Rng.next s); reflexivity.
Qed.

Lemma returns_weaken {A} (c : M A) (P Q : A -> Prop) :
  returns c P -> (forall a, P a -> Q a) -> returns c Q.
Proof.
  intros Hc HPQ s. destruct (Hc s) as (a & s' & E & Pa).
  exists a, s'. split; [exact E | apply HPQ, Pa].
Qed.

(** The loop rule: the invariant [I] is indexed by the indices already
    visited. *)
Lemma returns_forM {S} (I : list Z -> S -> Prop) (l : list Z)
    (body : Z -> S -> M S) (acc : S) :
  I [] acc ->
  (forall pre i post a, l = pre ++ i :: post -> I pre a ->
     returns (body i a) (I (pre ++ [i]))) ->
  returns (forM l body acc) (I l).
Proof.
  revert I acc. induction l as [|i l IH]; intros I acc H0 Hstep.
  - apply returns_ret, H0.
  - cbn [forM]. apply returns_bind with (P := I [i]).
    + apply (Hstep [] i l acc eq_refl H0).
    + intros a Ha. apply (IH (fun pre => I (i :: pre))); [exact Ha|].
      intros pre j post a' -> Hpre.
      apply (Hstep (i :: pre) j post a' eq_refl Hpre).
Qed.

(** The loop rule for an invariant that does not depend on progress. *)
Lemma returns_forM_inv {S} (I : S -> Prop) (l : list Z)
    (body : Z -> S -> M S) (acc : S) :
  I acc ->
  (forall i a, i ∈ l -> I a -> returns (body i a) I) ->
  returns (forM l body acc) I.
Proof.
  intros H0 Hstep. apply (returns_forM (fun _ => I)); [exact H0|].
  intros pre i post a -> Ha. apply Hstep; [|exact Ha].
  apply elem_of_app. right. apply elem_of_cons. left. reflexivity.
Qed.

(** ** Arrays and grids *)

Lemma arr_get_set (r : jsarray) (x x' : Z) (v : cell) :
  arr_get (arr_set r x v) x' = if decide (x' = x) then v else arr_get r x'.
Proof.
  unfold arr_get, arr_set; cbn [cells].
  destruct v as [s|]; destruct (decide (x' = x)) as [->|Hne].
  - apply lookup_insert_eq.
  - apply lookup_insert_ne. congruence.
  - apply lookup_delete_eq.
  - apply lookup_delete_ne. congruence.
Qed.

Lemma len_arr_set (r : jsarray) (x : Z) (v : cell) :
  x < len r -> len (arr_set r x v) = len r.
Proof.
  intros Hx. unfold arr_set; cbn [len].
  destruct (0 <=? x); destruct (x <? 2 ^ 32 - 1); cbn [andb]; try reflexivity.
  destruct (len r <=? x) eqn:E; [apply Z.leb_le in E; lia | reflexivity].
Qed.

Lemma arr_get_fill (n x : Z) (v : string) :
  arr_get (arr_fill n v) x = if decide (0 <= x < n) then Some v else None.
Proof.
  unfold arr_get, arr_fill; cbn [cells].
  assert (Hkeys : ((fun i : Z => (i, v)) <$> seqZ 0 n).*1 = seqZ 0 n).
  { rewrite <- list_fmap_compose. apply list_fmap_id. }
  destruct (decide (0 <= x < n)) as [Hin|Hout].
  - apply elem_of_list_to_map_1.
    + rewrite Hkeys. apply NoDup_seqZ.
    + apply list_elem_of_fmap. exists x. split; [reflexivity|].
      apply elem_of_seqZ. lia.
  - apply not_elem_of_list_to_map_1. rewrite Hkeys.
    rewrite elem_of_seqZ. lia.
Qed.

Lemma row_at_shaped (w h : Z) (t : Grid) (y : Z) :
  shaped w h t -> 0 <= y < h -> exists r, row_at t y = Some r /\ len r = w.
Proof.
  intros [Hh Hw] Hy. unfold row_at, height_of in *.
  destruct (y <? 0) eqn:E; [apply Z.ltb_lt in E; lia|].
  destruct (lookup_lt_is_Some_2 t (Z.to_nat y)) as [r Hr]; [lia|].
  exists r. split; [exact Hr|].
  rewrite Forall_forall in Hw. apply Hw. eapply list_elem_of_lookup_2, Hr.
Qed.

Lemma row_at_outside (w h : Z) (t : Grid) (y : Z) :
  shaped w h t -> ~ 0 <= y < h -> row_at t y = None.
Proof.
  intros [Hh _] Hy. unfold row_at, height_of in *.
  destruct (y <? 0) eqn:E; [reflexivity|]. apply Z.ltb_ge in E.
  apply lookup_ge_None. lia.
Qed.

Lemma get_shaped (w h : Z) (t : Grid) (x y : Z) :
  shaped w h t -> 0 <= y < h -> get t y x = Ok (cell_at t x y).
Proof.
  intros Hs Hy. destruct (row_at_shaped w h t y Hs Hy) as (r & Hr & _).
  unfold get, cell_at. rewrite Hr. reflexivity.
Qed.

Lemma width_of_shaped (w h : Z) (t : Grid) :
  shaped w h t -> 0 < h -> width_of t = Ok w.
Proof.
  intros Hs Hh. destruct (row_at_shaped w h t 0 Hs) as (r & Hr & Hlen); [lia|].
  unfold width_of. rewrite Hr, Hlen. reflexivity.
Qed.

(** A write inside a shaped grid succeeds, keeps the shape and changes
    one cell. *)
Lemma set_shaped (w h : Z) (t : Grid) (x y : Z) (v : cell) :
  shaped w h t -> 0 <= y < h -> x < w ->
  exists t', set t y x v = Ok t' /\ shaped w h t' /\
    forall x' y', cell_at t' x' y'
                  = if decide (x' = x /\ y' = y) then v else cell_at t x' y'.
Proof.
  intros Hs Hy Hx. destruct (row_at_shaped w h t y Hs Hy) as (r & Hr & Hlen).
  exists (<[Z.to_nat y := arr_set r x v]> t).
  unfold set. rewrite Hr. split; [reflexivity|]. split.
  - destruct Hs as [Hh Hw]. split.
    + unfold height_of in *. rewrite length_insert. exact Hh.
    + apply Forall_insert; [exact Hw|]. rewrite len_arr_set; lia.
  - intros x' y'. unfold cell_at, row_at in *.
    destruct (y <? 0) eqn:Ey; [discriminate|].
    destruct (y' <? 0) eqn:Ey'.
    + apply Z.ltb_lt in Ey'. destruct (decide (x' = x /\ y' = y)); [lia|reflexivity].
    + apply Z.ltb_ge in Ey, Ey'.
      destruct (decide (y' = y)) as [->|Hne].
      * rewrite list_lookup_insert_eq by (eapply lookup_lt_Some, Hr).
        rewrite Hr, arr_get_set.
        destruct (decide (x' = x)); destruct (decide (x' = x /\ y = y));
          try reflexivity; tauto.
      * rewrite list_lookup_insert_ne by lia.
        destruct (decide (x' = x /\ y' = y)); [tauto|reflexivity].
Qed.

Lemma new_grid_shaped (w h : Z) (v : string) :
  0 <= w < 2 ^ 32 -> 0 <= h < 2 ^ 32 ->
  exists t, new_grid h w v = Ok t /\ shaped w h t /\
    forall x y, 0 <= x < w -> 0 <= y < h -> cell_at t x y = Some v.
Proof.
  intros Hw Hh. unfold new_grid, valid_length.
  replace ((0 <=? h) && (h <? 2 ^ 32)) with true
    by (symmetry; apply andb_true_iff; split; [apply Z.leb_le | apply Z.ltb_lt]; lia).
  replace ((0 <=? w) && (w <? 2 ^ 32)) with true
    by (symmetry; apply andb_true_iff; split; [apply Z.leb_le | apply Z.ltb_lt]; lia).
  cbn [negb]. destruct (h =? 0) eqn:E.
  - apply Z.eqb_eq in E. subst h. exists []. split; [reflexivity|].
    split; [split; [reflexivity | constructor]|]. intros; lia.
  - apply Z.eqb_neq in E. eexists. split; [reflexivity|]. split.
    + split.
      * unfold height_of. rewrite length_replicate. lia.
      * apply Forall_replicate. reflexivity.
    + intros x y Hx Hy. unfold cell_at, row_at.
      destruct (y <? 0) eqn:Ey; [apply Z.ltb_lt in Ey; lia|].
      rewrite lookup_replicate_2 by lia.
      rewrite arr_get_fill. destruct (decide (0 <= x < w)); [reflexivity | lia].
Qed.

Lemma returns_bind_lift {A B} (r : result A) (a : A) (k : A -> M B)
    (Q : B -> Prop) :
  r = Ok a -> returns (k a) Q -> returns (bind (lift r) k) Q.
Proof.
  intros -> Hk. apply returns_bind with (P := fun x => x = a).
  - apply returns_lift with (a := a); reflexivity.
  - intros ? ->. exact Hk.
Qed.

Lemma returns_bind_random {B} (k : Q -> M B) (P : B -> Prop) :
  (forall r, returns (k r) P) -> returns (bind random k) P.
Proof.
  intros Hk. apply returns_bind with (P := fun _ => True).
  - apply returns_random. trivial.
  - intros r _. apply Hk.
Qed.

(** ** The automaton layout keeps a wall around the grid *)

Lemma count_over_ok (l : list (Z * Z)) (f : Z -> Z -> result bool) (c : Z) :
  (forall dx dy, exists b, f dx dy = Ok b) -> exists n, count_over l f c = Ok n.
Proof.
  intros Hf. revert c. induction l as [|[dx dy] l IH]; intros c; cbn.
  - eauto.
  - destruct (Hf dx dy) as [b ->]. apply IH.
Qed.

Lemma in_bounds_xy_shaped (w h : Z) (t : Grid) (nx ny : Z) :
  shaped w h t -> 0 < h ->
  in_bounds_xy t nx ny
  = Ok ((0 <=? nx) && (nx <? w) && (0 <=? ny) && (ny <? h)).
Proof.
  intros Hs Hh. unfold in_bounds_xy.
  rewrite (width_of_shaped w h t Hs Hh).
  destruct Hs as [-> _].
  destruct (nx <? 0) eqn:E.
  - apply Z.ltb_lt in E.
    replace (0 <=? nx) with false by (symmetry; apply Z.leb_gt; lia).
    reflexivity.
  - apply Z.ltb_ge in E.
    replace (0 <=? nx) with true by (symmetry; apply Z.leb_le; lia).
    reflexivity.
Qed.

Lemma countNeighborsOfType_ok (w h : Z) (t : Grid) (x y : Z) (ty : string) :
  shaped w h t -> 0 < h -> exists n, countNeighborsOfType t x y ty = Ok n.
Proof.
  intros Hs Hh. apply count_over_ok. intros dx dy. cbv beta zeta.
  rewrite (in_bounds_xy_shaped w h t _ _ Hs Hh).
  destruct ((0 <=? x + dx) && (x + dx <? w) && (0 <=? y + dy) && (y + dy <? h))
    eqn:E; [|eauto].
  rewrite !andb_true_iff in E. destruct E as [[[_ _] Hy0] Hy1].
  apply Z.leb_le in Hy0. apply Z.ltb_lt in Hy1.
  rewrite (get_shaped w h t _ _ Hs) by lia. eauto.
Qed.

(** Writing an interior cell keeps the shape and the edge. *)
Lemma set_interior (v0 : string) (w h : Z) (t : Grid) (x y : Z) (v : cell) :
  shaped w h t -> edged v0 w h t -> 1 <= x <= w - 2 -> 1 <= y <= h - 2 ->
  returns (lift (set t y x v)) (fun t' => shaped w h t' /\ edged v0 w h t').
Proof.
  intros Hs He Hx Hy.
  destruct (set_shaped w h t x y v Hs) as (t' & Eset & Hs' & Hcell); try lia.
  apply returns_lift with (a := t'); [exact Eset|].
  split; [exact Hs'|]. intros x' y' Hx' Hy' Hedge.
  rewrite Hcell. destruct (decide (x' = x /\ y' = y)) as [[-> ->]|_].
  - unfold on_edge in Hedge. lia.
  - apply He; assumption.
Qed.

Lemma initialFillPass_shaped (w h : Z) (p : Q) (t : Grid) :
  shaped w h t -> returns (initialFillPass w h p t) (shaped w h).
Proof.
  intros Hs. unfold initialFillPass, for_lt.
  apply returns_forM_inv; [exact Hs|].
  intros y t1 Hy Hs1. apply elem_of_seqZ in Hy.
  apply returns_forM_inv; [exact Hs1|].
  intros x t2 Hx Hs2. apply elem_of_seqZ in Hx.
  apply returns_bind_random. intros r.
  destruct (Qltb r p); [|apply returns_ret, Hs2].
  destruct (set_shaped w h t2 x y (Some "empty") Hs2) as (t' & E & Hs' & _);
    try lia.
  apply returns_lift with (a := t'); assumption.
Qed.

Lemma elem_of_middle (pre post : list Z) (i : Z) (l : list Z) :
  l = pre ++ i :: post -> i ∈ l.
Proof.
  intros ->. apply elem_of_app. right. apply elem_of_cons. left. reflexivity.
Qed.

(** The copy-back loop of a pass: every cell of the [w] by [h] grid takes
    its value from [n]. *)
Lemma copy_back (w h : Z) (n t : Grid) :
  shaped w h n -> shaped w h t ->
  returns
    (for_lt 0 h (fun y terrain =>
       for_lt 0 w (fun x terrain =>
         let* v := lift (get n y x) in lift (set terrain y x v)) terrain) t)
    (fun t' => shaped w h t' /\
       forall x y, 0 <= x < w -> 0 <= y < h -> cell_at t' x y = cell_at n x y).
Proof.
  intros Hsn Hs. unfold for_lt.
  apply returns_weaken with
    (P := fun t' => shaped w h t' /\
            forall x y, y ∈ seqZ 0 (h - 0) -> 0 <= x < w ->
              cell_at t' x y = cell_at n x y).
  - apply (returns_forM (fun pre t' => shaped w h t' /\
             forall x y, y ∈ pre -> 0 <= x < w ->
               cell_at t' x y = cell_at n x y)).
    + split; [exact Hs|]. intros x y Hin. apply elem_of_nil in Hin. contradiction.
    + intros pre y post t1 Hl [Hs1 Hc1].
      assert (Hy : 0 <= y < h).
      { apply elem_of_middle in Hl. apply elem_of_seqZ in Hl. lia. }
      apply returns_weaken with
        (P := fun t' => shaped w h t' /\
                forall x' y', (y' ∈ pre /\ 0 <= x' < w) \/
                              (y' = y /\ x' ∈ seqZ 0 (w - 0)) ->
                  cell_at t' x' y' = cell_at n x' y').
      * apply (returns_forM (fun prex t' => shaped w h t' /\
                 forall x' y', (y' ∈ pre /\ 0 <= x' < w) \/
                               (y' = y /\ x' ∈ prex) ->
                   cell_at t' x' y' = cell_at n x' y')).
        -- split; [exact Hs1|]. intros x' y' [[Hin Hx']|[_ Hin]].
           ++ apply Hc1; assumption.
           ++ apply elem_of_nil in Hin. contradiction.
        -- intros prex x postx t2 Hlx [Hs2 Hc2].
           assert (Hx : 0 <= x < w).
           { apply elem_of_middle in Hlx. apply elem_of_seqZ in Hlx. lia. }
           apply returns_bind_lift with (a := cell_at n x y);
             [apply (get_shaped w h); assumption|].
           destruct (set_shaped w h t2 x y (cell_at n x y) Hs2)
             as (t' & E & Hs' & Hcell); try lia.
           apply returns_lift with (a := t'); [exact E|].
           split; [exact Hs'|]. intros x' y' HP. rewrite Hcell.
           destruct (decide (x' = x /\ y' = y)) as [[-> ->]|Hne];
             [reflexivity|].
           apply Hc2. destruct HP as [HP|[-> Hin]]; [left; exact HP|].
           right. split; [reflexivity|].
           apply elem_of_app in Hin. destruct Hin as [Hin|Hin]; [exact Hin|].
           apply list_elem_of_singleton in Hin. subst x'. tauto.
      * intros t' [Hs' Hc']. split; [exact Hs'|].
        intros x' y' Hin Hx'. apply Hc'.
        apply elem_of_app in Hin. destruct Hin as [Hin|Hin].
        -- left. split; assumption.
        -- apply list_elem_of_singleton in Hin. right. split; [exact Hin|].
           apply elem_of_seqZ. lia.
  - intros t' [Hs' Hc']. split; [exact Hs'|].
    intros x y Hx Hy. apply Hc'; [apply elem_of_seqZ; lia | exact Hx].
Qed.

(** One pass leaves a wall on every edge, whatever grid it starts
    from. *)
Lemma automatonPass_walled (w h b d : Z) (t : Grid) :
  1 <= w < 2 ^ 32 -> 1 <= h < 2 ^ 32 -> shaped w h t ->
  returns (automatonPass w h b d t) (walled w h).
Proof.
  intros Hw Hh Hs. unfold automatonPass.
  destruct (new_grid_shaped w h "wall") as (n0 & En & Hsn & Hcells); try lia.
  apply returns_bind_lift with (a := n0); [exact En|].
  apply returns_bind with (P := walled w h).
  - unfold for_lt. apply returns_forM_inv.
    + split; [exact Hsn|]. intros x y Hx Hy _. apply Hcells; assumption.
    + intros y n1 Hy [Hs1 He1]. apply elem_of_seqZ in Hy.
      apply returns_forM_inv; [split; assumption|].
      intros x n2 Hx [Hs2 He2]. apply elem_of_seqZ in Hx.
      destruct (countNeighborsOfType_ok w h t x y "empty" Hs) as [k Ek]; [lia|].
      unfold countNeighbors.
      apply returns_bind_lift with (a := k); [exact Ek|].
      apply returns_bind_lift with (a := cell_at t x y);
        [apply (get_shaped w h); [exact Hs|lia]|].
      destruct (cell_is _ _); [destruct (k <? d) | destruct (b <? k)];
        apply (set_interior "wall" w h); try assumption; lia.
  - intros n [Hsn' Hen'].
    apply returns_weaken with (1 := copy_back w h n t Hsn' Hs).
    intros t' [Hs' Hc']. split; [exact Hs'|].
    intros x y Hx Hy Hedge. rewrite Hc' by assumption. apply Hen'; assumption.
Qed.

(** With at least one pass, the loop ends on a walled grid. *)
Lemma automatonLoop_walled (w h n b d : Z) (t : Grid) :
  1 <= w < 2 ^ 32 -> 1 <= h < 2 ^ 32 -> 1 <= n -> shaped w h t ->
  returns (automatonLoop w h n b d t) (walled w h).
Proof.
  intros Hw Hh Hn Hs. unfold automatonLoop, for_lt.
  apply returns_weaken with
    (P := fun t' => shaped w h t' /\ (seqZ 0 (n - 0) <> [] -> edged "wall" w h t')).
  - apply (returns_forM (fun pre t' =>
             shaped w h t' /\ (pre <> [] -> edged "wall" w h t'))).
    + split; [exact Hs|]. intros H; contradiction.
    + intros pre i post t1 _ [Hs1 _].
      apply returns_weaken with (1 := automatonPass_walled w h b d t1 Hw Hh Hs1).
      intros t' [Hs' He']. split; [exact Hs' | intros _; exact He'].
  - intros t' [Hs' He']. split; [exact Hs'|]. apply He'.
    rewrite seqZ_cons by lia. discriminate.
Qed.

(** The feature pass writes interior cells only. *)
Lemma addCellularFeatures_edged (c : GenerationConfig) (v : string)
    (w h : Z) (t : Grid) :
  1 <= h -> shaped w h t -> edged v w h t ->
  returns (addCellularFeatures c t) (fun t' => shaped w h t' /\ edged v w h t').
Proof.
  intros Hh Hs He. unfold addCellularFeatures, for_lt.
  assert (Eh : height_of t = h) by apply Hs. rewrite Eh.
  apply returns_forM_inv; [split; assumption|].
  intros y t1 Hy [Hs1 He1]. apply elem_of_seqZ in Hy.
  apply returns_bind_lift with (a := w); [apply (width_of_shaped w h); [exact Hs1|lia]|].
  apply returns_forM_inv; [split; assumption|].
  intros x t2 Hx [Hs2 He2]. apply elem_of_seqZ in Hx.
  apply returns_bind_lift with (a := cell_at t2 x y);
    [apply (get_shaped w h); [exact Hs2|lia]|].
  assert (Hset : forall u, returns (lift (set t2 y x u))
                   (fun t' => shaped w h t' /\ edged v w h t')).
  { intros u. apply (set_interior v w h); try assumption; lia. }
  assert (Hret : returns (ret t2) (fun t' => shaped w h t' /\ edged v w h t')).
  { apply returns_ret. split; assumption. }
  destruct (cell_is _ _); [|exact Hret].
  apply returns_bind_random. intros r.
  destruct (Qltb r _); [|exact Hret].
  destruct (String.eqb (theme c) "dungeon").
  { apply returns_bind_random. intros r1. destruct (Qltb r1 _); [apply Hset|].
    apply returns_bind_random. intros r2. destruct (Qltb r2 _); apply Hset. }
  destruct (String.eqb (theme c) "wilderness"); [apply Hset|].
  destruct (String.eqb (theme c) "underground"); [|exact Hret].
  apply returns_bind_random. intros r1. destruct (Qltb r1 _); [apply Hset|].
  apply returns_bind_random. intros r2. destruct (Qltb r2 _); [apply Hset|exact Hret].
Qed.

Lemma cellularCore_walled (c : GenerationConfig) :
  1 <= width c < 2 ^ 32 -> 1 <= height c < 2 ^ 32 ->
  1 <= or_default (iterations (parameters c)) 4 ->
  returns (cellularCore c) (walled (width c) (height c)).
Proof.
  intros Hw Hh Hn. unfold cellularCore.
  destruct (new_grid_shaped (width c) (height c) "wall") as (t0 & E0 & Hs0 & _);
    try lia.
  apply returns_bind_lift with (a := t0); [exact E0|].
  apply returns_bind with (P := shaped (width c) (height c)).
  - apply initialFillPass_shaped, Hs0.
  - intros t1 Hs1. apply automatonLoop_walled; assumption.
Qed.

(** C10: a cellular run with at least one update pass returns a grid, and
    every edge cell of it is ['wall'], both when the passes complete and in
    the grid returned after the feature pass, for every seed and whatever
    the initial fill had opened. *)
Theorem cellular_edges_are_wall (c : GenerationConfig) (fuel : nat)
    (Halg : algorithm c = "cellular")
    (Hw : 1 <= width c < 2 ^ 32) (Hh : 1 <= height c < 2 ^ 32)
    (Hiter : 1 <= or_default (iterations (parameters c)) 4) :
  exists core s1 terrain g',
    cellularCore c (Rng.seededRandom (seed c)) = Ok (core, s1) /\
    generate fuel (new_TerrainGenerator c) = Ok (terrain, g') /\
    forall x y, 0 <= x < width c -> 0 <= y < height c ->
      on_edge (width c) (height c) x y ->
      cell_at core x y = Some "wall" /\ cell_at terrain x y = Some "wall".
Proof.
  pose proof (cellularCore_walled c Hw Hh Hiter) as Hcore.
  destruct (Hcore (Rng.seededRandom (seed c))) as (core & s1 & Ecore & Hsc & Hec).
  assert (Hh1 : 1 <= height c) by lia.
  destruct (addCellularFeatures_edged c "wall" _ _ core Hh1 Hsc Hec s1)
    as (terrain & s2 & Efeat & _ & Het).
  exists core, s1, terrain, (mkGenerator c s2).
  split; [exact Ecore|]. split.
  - unfold generate, generate_body, new_TerrainGenerator; cbn [config stream].
    rewrite Halg. cbn [String.eqb Ascii.eqb Bool.eqb].
    unfold generateCellular, bind. rewrite Ecore, Efeat. reflexivity.
  - intros x y Hx Hy Hedge. split; [apply Hec | apply Het]; assumption.
Qed.

Lemma cellular_edges_are_wall_witness :
  exists core s1 terrain g',
    cellularCore cave_6x6 (Rng.seededRandom (seed cave_6x6)) = Ok (core, s1) /\
    generate 0 (new_TerrainGenerator cave_6x6) = Ok (terrain, g') /\
    forall x y, 0 <= x < width cave_6x6 -> 0 <= y < height cave_6x6 ->
      on_edge (width cave_6x6) (height cave_6x6) x y ->
      cell_at core x y = Some "wall" /\ cell_at terrain x y = Some "wall".
Proof.
  apply (cellular_edges_are_wall cave_6x6 0); [reflexivity | cbn; lia ..].
Defined.

(** Evaluate each part of a conjunction of closed equations. *)
Ltac evaluate :=
  repeat match goal with |- _ /\ _ => split end;
  vm_compute; reflexivity.

(** ** [iterations: 0] *)

(** The default replaces the value [0]: a run configured with
    [iterations: 0] is the run with [iterations] absent, four passes. *)
Lemma zero_iterations_is_default (c : GenerationConfig) :
  generateCellular (with_iterations c (Some 0))
  = generateCellular (with_iterations c None).
Proof. reflexivity. Qed.

(** The loop itself applies no pass for a count of 0. *)
Lemma automatonLoop_zero (w h b d : Z) (t : Grid) :
  automatonLoop w h 0 b d t = ret t.
Proof. reflexivity. Qed.

(** A negative count is not replaced by the default, and then no pass
    runs: the run is the initial fill followed by the feature pass. *)
Lemma negative_iterations_no_update (c : GenerationConfig) (n : Z) (s : Z) :
  n < 0 -> iterations (parameters c) = Some n ->
  generateCellular c s = cellularWithoutUpdate c s.
Proof.
  intros Hn Hit.
  unfold generateCellular, cellularWithoutUpdate, cellularCore, cellularFill.
  cbv zeta. rewrite Hit. unfold or_default at 1.
  replace (n =? 0) with false by (symmetry; apply Z.eqb_neq; lia).
  unfold automatonLoop, for_lt. rewrite seqZ_nil by lia. cbn [forM].
  unfold bind, ret.
  destruct (lift (new_grid (height c) (width c) "wall") s) as [[t0 s0]| |];
    [|reflexivity|reflexivity].
  destruct (initialFillPass _ _ _ t0 s0) as [[t1 s1]| |]; reflexivity.
Qed.

(** C7 (the code departs from it): with [iterations: 0] the 6 by 6 cave of
    seed 12345 is not the initial fill followed by the feature pass.  The
    fill opens the corner cell [(0, 0)] and a run without update pass
    returns it open, but [generate()] returns it as ['wall']: the update
    passes have run. *)
Theorem cellular_zero_iterations_still_updates :
  iterations (parameters cave_6x6_zero) = Some 0 /\
  outcome_cell (cellularFill cave_6x6_zero (Rng.seededRandom 12345)) 0 0
    = Ok (Some "empty") /\
  outcome_cell (cellularWithoutUpdate cave_6x6_zero (Rng.seededRandom 12345)) 0 0
    = Ok (Some "empty") /\
  outcome_cell (generate 0 (new_TerrainGenerator cave_6x6_zero)) 0 0
    = Ok (Some "wall") /\
  outcome_grid (generate 0 (new_TerrainGenerator cave_6x6_zero))
    = outcome_grid
        (generate 0 (new_TerrainGenerator (with_iterations cave_6x6_zero (Some 4)))).
Proof. evaluate. Qed.

(** ** The border of the partition layout *)

(** With the default corridor width the 10 by 10 layout of seed 100000
    has an obstructing border. *)
Example bsp_10x10_border :
  open_edge_cells 10 10 (generate 20 (new_TerrainGenerator bsp_10x10)) = [] /\
  is_done (generate 20 (new_TerrainGenerator bsp_10x10)) = true.
Proof. evaluate. Qed.

(** The two rooms of that layout: their centres are [(3, 5)] and
    [(7, 5)]. *)
Example bsp_10x10_rooms :
  match generateRoomsBSP 20 1 1 8 8 4 8 (Rng.seededRandom 100000) with
  | Ok (rooms, _) => rooms
  | _ => []
  end
  = [Room.mk 1 2 4 6 3 5; Room.mk 5 2 4 6 7 5].
Proof. vm_compute. reflexivity. Qed.

(** C5 (the code departs from it): with [corridorWidth: 4] the vertical
    corridor at column 7 spans columns 5 to 9, and column 9 is the right
    edge of the 10 by 10 grid: [generate()] returns the edge cell
    [(9, 5)] as ['empty'], which is not obstructing. *)
Theorem bsp_wide_corridor_opens_border :
  corridorWidth (parameters bsp_10x10_wide) = Some 4 /\
  outcome_cell (generate 20 (new_TerrainGenerator bsp_10x10_wide)) 9 5
    = Ok (Some "empty") /\
  obstructing (Some "empty") = false /\
  open_edge_cells 10 10 (generate 20 (new_TerrainGenerator bsp_10x10_wide))
    = [(9, 5)].
Proof. evaluate. Qed.

(** The same happens in the 25 by 25 scenario of the specification once
    corridors are 6 wide: eight cells of the left edge are opened. *)
Example bsp_25x25_wide_border :
  outcome_cell (generate 50 (new_TerrainGenerator bsp_25x25_wide)) 0 4
    = Ok (Some "empty") /\
  length (open_edge_cells 25 25 (generate 50 (new_TerrainGenerator bsp_25x25_wide)))
    = 8%nat.
Proof. evaluate. Qed.

(** ** An algorithm name outside the five *)

Lemma is_ok_not_throws {A} (r : result A) : is_ok r = true -> ~ throws r.
Proof. intros H [e ->]. discriminate. Qed.

Lemma generateBSP_with_algorithm (c : GenerationConfig) (fuel : nat)
    (alg : string) :
  generateBSP fuel (with_algorithm c alg) = generateBSP fuel c.
Proof. destruct c. reflexivity. Qed.

(** C8 (as the code has it): an algorithm name outside [bsp], [cellular],
    [drunkard], [template] and [mixed] is not rejected.  [generate()] takes
    the [default] branch of its [switch] and runs the partition layout on
    the same stream: its outcome is the outcome of the same configuration
    under the name [bsp], the very grid when that one returns a grid, and
    the exception of the partition layout when that one throws. *)
Theorem unknown_algorithm_runs_bsp (c : GenerationConfig) (fuel : nat)
    (Hunknown : ~ In (algorithm c) known_algorithms) :
  generate_body fuel c = generateBSP fuel c /\
  outcome_grid (generate fuel (new_TerrainGenerator c))
  = outcome_grid (generate fuel (new_TerrainGenerator (with_algorithm c "bsp"))).
Proof.
  assert (Hbody : generate_body fuel c = generateBSP fuel c).
  { unfold generate_body.
    destruct (String.eqb (algorithm c) "bsp"); [reflexivity|].
    destruct (String.eqb (algorithm c) "cellular") eqn:E1;
      [apply String.eqb_eq in E1; exfalso; apply Hunknown; rewrite E1; cbn; tauto|].
    destruct (String.eqb (algorithm c) "drunkard") eqn:E2;
      [apply String.eqb_eq in E2; exfalso; apply Hunknown; rewrite E2; cbn; tauto|].
    destruct (String.eqb (algorithm c) "template") eqn:E3;
      [apply String.eqb_eq in E3; exfalso; apply Hunknown; rewrite E3; cbn; tauto|].
    destruct (String.eqb (algorithm c) "mixed") eqn:E4;
      [apply String.eqb_eq in E4; exfalso; apply Hunknown; rewrite E4; cbn; tauto|].
    reflexivity. }
  split; [exact Hbody|].
  unfold generate, new_TerrainGenerator; cbn [config stream].
  rewrite Hbody.
  replace (generate_body fuel (with_algorithm c "bsp"))
    with (generateBSP fuel c)
    by (symmetry; apply (generateBSP_with_algorithm c fuel "bsp")).
  replace (seed (with_algorithm c "bsp")) with (seed c) by reflexivity.
  destruct (generateBSP fuel c (Rng.seededRandom (seed c))) as [[t s']| |];
    reflexivity.
Qed.

Lemma unknown_algorithm_runs_bsp_witness :
  generate_body 20 voronoi_10x10 = generateBSP 20 voronoi_10x10 /\
  outcome_grid (generate 20 (new_TerrainGenerator voronoi_10x10))
  = outcome_grid
      (generate 20 (new_TerrainGenerator (with_algorithm voronoi_10x10 "bsp"))).
Proof.
  apply (unknown_algorithm_runs_bsp voronoi_10x10 20).
  cbn. intros [H|[H|[H|[H|[H|[]]]]]]; discriminate H.
Defined.

(** C8 as stated fails: the name ["voronoi"] is none of the five, yet
    [generate()] returns a grid and throws nothing. *)
Lemma unknown_algorithm_is_not_rejected :
  ~ In (algorithm voronoi_10x10) known_algorithms /\
  is_ok (generate 20 (new_TerrainGenerator voronoi_10x10)) = true /\
  ~ throws (generate 20 (new_TerrainGenerator voronoi_10x10)).
Proof.
  split; [cbn; intros [H|[H|[H|[H|[H|[]]]]]]; discriminate H|].
  assert (Hok : is_ok (generate 20 (new_TerrainGenerator voronoi_10x10)) = true)
    by (vm_compute; reflexivity).
  split; [exact Hok | apply is_ok_not_throws, Hok].
Qed.

(** On a grid too small for the partition layout the unknown name fails
    as [bsp] fails: with the [TypeError] of the partition layout, not with
    an error about the name. *)
Example unknown_algorithm_fails_as_bsp_fails :
  generate 20 (new_TerrainGenerator voronoi_3x3) = Throw TypeError /\
  generate 20 (new_TerrainGenerator (with_algorithm voronoi_3x3 "bsp"))
  = Throw TypeError.
Proof. evaluate. Qed.

(** ** Determinism *)

(** *** The budget does not change an outcome *)









(** *** A run completes *)

Lemma completes_ret {A} (a : A) (P : A -> Prop) : P a -> completes (ret a) P.
Proof. intros HP s Hs. cbn. split; assumption. Qed.

Lemma completes_bind {A B} (c : M A) (k : A -> M B) (P : A -> Prop)
    (R : B -> Prop) :
  completes c P -> (forall a, P a -> completes (k a) R) ->
  completes (bind c k) R.
Proof.
  intros Hc Hk s Hs. unfold bind. specialize (Hc s Hs).
  destruct (c s) as [[a s']| |]; [|exact I|contradiction].
  destruct Hc as [Hs' Pa]. apply (Hk a Pa s' Hs').
Qed.

Lemma completes_random : completes random (fun r => (0 <= r < 1)%Q).
Proof.
  intros s Hs. unfold random.
  pose proof (next_in_range s Hs) as [_ Hr].
  pose proof (draw_in_unit s Hs) as Hd.
  destruct (Rng.next s) as [r s']. cbn [fst snd] in *. split; assumption.
Qed.

Lemma completes_lift {A} (r : result A) :
  is_done r = true -> completes (lift r) (fun _ => True).
Proof.
  intros Hr s Hs. unfold lift. destruct r; [split; trivial|exact I|discriminate].
Qed.

Lemma completes_weaken {A} (c : M A) (P R : A -> Prop) :
  completes c P -> (forall a, P a -> R a) -> completes c R.
Proof.
  intros Hc HPR s Hs. specialize (Hc s Hs).
  destruct (c s) as [[a s']| |]; [|exact I|contradiction].
  destruct Hc as [Hs' Pa]. split; [exact Hs' | apply HPR, Pa].
Qed.

Lemma completes_forM {S} (l : list Z) (body : Z -> S -> M S) (acc : S) :
  (forall i a, completes (body i a) (fun _ => True)) ->
  completes (forM l body acc) (fun _ => True).
Proof.
  intros Hbody. revert acc. induction l as [|i l IH]; intros acc.
  - apply completes_ret. exact I.
  - cbn [forM]. apply completes_bind with (P := fun _ => True).
    + apply Hbody.
    + intros a _. apply IH.
Qed.

Lemma completes_forEach {A S} (l : list A) (body : A -> S -> M S) (acc : S) :
  (forall x a, completes (body x a) (fun _ => True)) ->
  completes (forEach l body acc) (fun _ => True).
Proof.
  intros Hbody. revert acc. induction l as [|x l IH]; intros acc.
  - apply completes_ret. exact I.
  - cbn [forEach]. apply completes_bind with (P := fun _ => True).
    + apply Hbody.
    + intros a _. apply IH.
Qed.

Lemma get_done (t : Grid) (y x : Z) : is_done (get t y x) = true.
Proof. unfold get. destruct (row_at t y); reflexivity. Qed.

Lemma set_done (t : Grid) (y x : Z) (v : cell) : is_done (set t y x v) = true.
Proof. unfold set. destruct (row_at t y); reflexivity. Qed.

Lemma width_of_done (t : Grid) : is_done (width_of t) = true.
Proof. unfold width_of. destruct (row_at t 0); reflexivity. Qed.

Lemma new_grid_done (h w : Z) (v : string) : is_done (new_grid h w v) = true.
Proof.
  unfold new_grid. destruct (negb (valid_length h)); [reflexivity|].
  destruct (h =? 0); [reflexivity|].
  destruct (negb (valid_length w)); reflexivity.
Qed.

Lemma in_bounds_xy_done (t : Grid) (nx ny : Z) :
  is_done (in_bounds_xy t nx ny) = true.
Proof.
  unfold in_bounds_xy. destruct (nx <? 0); [reflexivity|].
  pose proof (width_of_done t). destruct (width_of t); [reflexivity..|discriminate].
Qed.

Lemma count_over_done (l : list (Z * Z)) (f : Z -> Z -> result bool) (c : Z) :
  (forall dx dy, is_done (f dx dy) = true) -> is_done (count_over l f c) = true.
Proof.
  intros Hf. revert c. induction l as [|[dx dy] l IH]; intros c; cbn.
  - reflexivity.
  - specialize (Hf dx dy). destruct (f dx dy); [apply IH|reflexivity|discriminate].
Qed.

Lemma countNeighborsOfType_done (t : Grid) (x y : Z) (ty : string) :
  is_done (countNeighborsOfType t x y ty) = true.
Proof.
  apply count_over_done. intros dx dy. cbv beta zeta.
  pose proof (in_bounds_xy_done t (x + dx) (y + dy)) as Hb.
  destruct (in_bounds_xy t (x + dx) (y + dy)) as [[|]| |];
    [|reflexivity|reflexivity|discriminate].
  pose proof (get_done t (y + dy) (x + dx)).
  destruct (get t (y + dy) (x + dx)); [reflexivity..|discriminate].
Qed.

(** Steps through a computation that contains no recursive call. *)
Ltac completes_step :=
  first
    [ apply completes_ret; exact I
    | apply completes_lift;
      first [ apply get_done | apply set_done | apply width_of_done
            | apply new_grid_done | apply in_bounds_xy_done
            | apply countNeighborsOfType_done ]
    | apply completes_forM; intros ? ?
    | apply completes_forEach; intros ? ?
    | eapply completes_weaken; [apply completes_random | intros; exact I]
    | eapply completes_bind with (P := fun _ => True); [|intros ? _]
    | match goal with
      | |- completes (if ?b then _ else _) _ => destruct b
      | |- completes (match ?p with (_, _) => _ end) _ => destruct p
      | |- context [match ?p with (_, _) => _ end] => is_var p; destruct p
      end
    | progress cbv beta ].

Ltac completes_all := repeat completes_step.

Lemma createRoom_completes (t : Grid) (room : Room.t) :
  completes (createRoom t room) (fun _ => True).
Proof. unfold createRoom, for_lt. completes_all. Qed.

Lemma connectRooms_completes (t : Grid) (rooms : list Room.t) (cw : Z) :
  completes (connectRooms t rooms cw) (fun _ => True).
Proof. unfold connectRooms, carve, for_le. completes_all. Qed.

Lemma pick_completes (l : list string) : completes (pick l) (fun _ => True).
Proof. unfold pick. completes_all. Qed.

Lemma sprinkle_completes (c : GenerationConfig) (p : Q) (t : Grid) (x y : Z) :
  completes (sprinkle c p t x y) (fun _ => True).
Proof. unfold sprinkle, pick. completes_all. Qed.

Lemma addBSPFeatures_completes (c : GenerationConfig) (t : Grid)
    (rooms : list Room.t) :
  completes (addBSPFeatures c t rooms) (fun _ => True).
Proof.
  unfold addBSPFeatures, addCorridorFeatures, sprinkle, pick, for_lt.
  completes_all.
Qed.

Lemma sprinkleInterior_completes (c : GenerationConfig) (p : Q) (t : Grid) :
  completes (sprinkleInterior c p t) (fun _ => True).
Proof. unfold sprinkleInterior, sprinkle, pick, for_lt. completes_all. Qed.




Lemma floor_mul_bounds (r : Q) (k : Z) :
  (0 <= r < 1)%Q -> 0 <= k -> 0 <= floor_mul r k <= Z.max 0 (k - 1).
Proof.
  destruct r as [n d]. unfold Qle, Qlt, floor_mul, Qfloor; cbn.
  intros [Hlo Hhi] Hk. rewrite Pos.mul_1_r.
  assert (Hn : 0 <= n < Z.pos d) by lia.
  split.
  - apply Z.div_pos; [nia | lia].
  - destruct (Z.eq_dec k 0) as [->|Hk0].
    + rewrite Z.mul_0_r, Zdiv_0_l. lia.
    + assert (n * k / Z.pos d < k); [|lia].
      apply Z.div_lt_upper_bound; [lia | nia].
Qed.





(** *** An instance is untouched by the others *)






(** The instance matters, not the configuration alone: on one instance a
    second call of [generate()] goes on with the stream where the first
    call left it, and returns another grid. *)
Example a_second_call_continues_the_stream :
  rbind (call_generate 0 0 [new_TerrainGenerator cave_6x6]) (fun '(t1, h1) =>
  rbind (call_generate 0 0 h1) (fun '(t2, _) =>
    Ok (cell_at t1 2 2, cell_at t2 2 2)))
  = Ok (Some "wall", Some "empty").
Proof. vm_compute. reflexivity. Qed.

(** ** The codec *)

(** *** Decoding *)

(** [width] and [height] are not properties of the object: they are
    fields of its [dimensions]. *)
Lemma destructure_height (c : MapCompression.CompressedMapData) :
  MapCompression.destructure c "height" = None /\
  MapCompression.destructure c "width" = None /\
  MapCompression.destructure c "rleData"
  = Some (MapCompression.PRows (MapCompression.rleData c)).
Proof. repeat split. Qed.

Lemma decompressMap_empty (c : MapCompression.CompressedMapData) :
  MapCompression.decompressMap c = [].
Proof. reflexivity. Qed.

(** C1 (the code departs from it): [decompressMap] reads [height] from the
    object itself, where it is [undefined], so its loop over the rows never
    runs and it returns the empty array for every input.  For the 3 by 2
    grid of the specification's scenario, decoding the encoded grid gives
    [[]] and not the grid. *)
Theorem decompressMap_drops_every_row :
  MapCompression.decompressMap
    (MapCompression.compressMap (grid_of_lists sample_3x2) 1 "dungeon") = [] /\
  grid_of_lists sample_3x2 <> [] /\
  (forall (g : Grid) (seed : Z) (theme : string),
     MapCompression.decompressMap (MapCompression.compressMap g seed theme) = []).
Proof.
  split; [reflexivity|]. split; [discriminate|]. intros. reflexivity.
Qed.

(** *** Parsing a compact string *)

Lemma split_not_nil (sep : ascii) (s : string) : split sep s <> [].
Proof.
  destruct s as [|ch s]; cbn; [discriminate|].
  destruct (Ascii.eqb ch sep); [discriminate|].
  destruct (split sep s); discriminate.
Qed.

Lemma rowFields_not_nil (s : string) : MapCompression.rowFields s <> [].
Proof. apply split_not_nil. Qed.

(** C2 (as the code has it): [fromCompactString] validates nothing.  For
    every string it returns a value: the dimensions are those the first
    field declares, and [rleData] has one row per row field, at least one,
    holding the segments as written, whatever their counts sum to. *)
Theorem fromCompactString_accepts_every_string (s : string) :
  exists c,
    MapCompression.fromCompactString s = Ok c /\
    MapCompression.dimensions c = declaredDimensions s /\
    MapCompression.rleData c
    = imap (fun y rowStr =>
              MapCompression.mkRow (MapCompression.parseSegments rowStr)
                                   (Z.of_nat y))
           (MapCompression.rowFields s) /\
    length (MapCompression.rleData c) = length (MapCompression.rowFields s) /\
    (1 <= length (MapCompression.rleData c))%nat.
Proof.
  eexists. split; [reflexivity|]. cbn [MapCompression.dimensions MapCompression.rleData].
  split; [reflexivity|]. split; [reflexivity|].
  rewrite length_imap. split; [reflexivity|].
  pose proof (rowFields_not_nil s).
  destruct (MapCompression.rowFields s); [contradiction | cbn; lia].
Qed.

(** C2 as stated fails: a string with a row whose counts sum to 2 under a
    declared width of 3, and a string with one row under a declared height
    of 2, are both parsed into a value. *)
Lemma malformed_strings_are_parsed :
  (existsb (fun rowStr => negb (rowSumMatches short_row_string rowStr))
           (MapCompression.rowFields short_row_string) = true /\
   is_ok (MapCompression.fromCompactString short_row_string) = true /\
   ~ throws (MapCompression.fromCompactString short_row_string)) /\
  (rowCountMatches missing_row_string = false /\
   is_ok (MapCompression.fromCompactString missing_row_string) = true /\
   ~ throws (MapCompression.fromCompactString missing_row_string)).
Proof.
  split; (split; [vm_compute; reflexivity|]);
    (split; [reflexivity | apply is_ok_not_throws; reflexivity]).
Qed.

(** The scenario of the specification: the string parses to the segments
    of the 3 by 2 grid. *)
Example fromCompactString_sample :
  match MapCompression.fromCompactString sample_3x2_string with
  | Ok c =>
      MapCompression.dimensions c
      = MapCompression.mkDimensions (Some 3) (Some 2) /\
      MapCompression.rleData c
      = MapCompression.rleData
          (MapCompression.compressMap (grid_of_lists sample_3x2) 1 "dungeon") /\
      MapCompression.seed (MapCompression.metadata c) = Some 1
  | _ => False
  end.
Proof. vm_compute. repeat split. Qed.

(** *** Encoding a row *)

Lemma cell_eqb_eq (c d : cell) : cell_eqb c d = true <-> c = d.
Proof.
  destruct c as [s|], d as [t|]; cbn; try (split; congruence).
  rewrite String.eqb_eq. split; congruence.
Qed.

Lemma expandCells_app (a b : list MapCompression.RLESegment) :
  expandCells (a ++ b) = expandCells a ++ expandCells b.
Proof. apply bind_app. Qed.

Lemma expandCells_single (t : cell) (n : Z) :
  expandCells [MapCompression.mkSegment t (Some n)] = replicate (Z.to_nat n) t.
Proof. unfold expandCells. cbn. apply app_nil_r. Qed.

(** The state of the scan after the cells [1 .. n]: the segments pushed
    and the open run stand for the first [n + 1] cells, and one segment
    was pushed per change. *)
Lemma scan_invariant (row : jsarray) (n : nat) :
  forall segs cur count,
    fold_left (MapCompression.scanStep row) (seqZ 1 (Z.of_nat n))
              ([], arr_get row 0, 1) = (segs, cur, count) ->
    cur = arr_get row (Z.of_nat n) /\ 1 <= count /\
    expandCells (segs ++ [MapCompression.mkSegment cur (Some count)])
    = arr_get row <$> seqZ 0 (Z.of_nat n + 1) /\
    length segs = changes row (Z.of_nat n).
Proof.
  induction n as [|n IH]; intros segs cur count.
  - cbn. intros [= <- <- <-]. repeat split; try lia; reflexivity.
  - rewrite seqZ_S, fold_left_app.
    destruct (fold_left (MapCompression.scanStep row) (seqZ 1 (Z.of_nat n))
                ([], arr_get row 0, 1)) as [[segs0 cur0] count0] eqn:E0.
    destruct (IH segs0 cur0 count0 eq_refl) as (Hcur & Hcount & Hexp & Hlen).
    cbn [fold_left MapCompression.scanStep].
    assert (Hseq0 : seqZ 0 (Z.of_nat (S n) + 1)
                    = seqZ 0 (Z.of_nat n + 1) ++ [1 + Z.of_nat n]).
    { replace (Z.of_nat (S n) + 1) with ((Z.of_nat n + 1) + 1) by lia.
      rewrite seqZ_app by lia. f_equal.
      rewrite seqZ_cons by lia. rewrite seqZ_nil by lia. f_equal. lia. }
    unfold changes in *. rewrite Hseq0, (seqZ_S 1 n).
    rewrite fmap_app, filter_app, length_app, <- Hexp, <- Hlen.
    replace (Z.of_nat (S n)) with (1 + Z.of_nat n) by lia.
    rewrite expandCells_app, expandCells_single.
    destruct (cell_eqb (arr_get row (1 + Z.of_nat n)) cur0) eqn:Eq.
    + apply cell_eqb_eq in Eq. intros [= <- <- <-].
      split; [congruence|]. split; [lia|]. split.
      * rewrite expandCells_app, expandCells_single.
        replace (Z.to_nat (count0 + 1)) with (S (Z.to_nat count0)) by lia.
        rewrite replicate_S_end, app_assoc. cbn. congruence.
      * rewrite filter_cons_False; [cbn; lia|].
        intros Hne. apply Hne.
        replace (1 + Z.of_nat n - 1) with (Z.of_nat n) by lia. congruence.
    + intros [= <- <- <-].
      split; [reflexivity|]. split; [lia|]. split.
      * rewrite !expandCells_app, !expandCells_single. cbn. reflexivity.
      * rewrite length_app. rewrite filter_cons_True; [reflexivity|].
        replace (1 + Z.of_nat n - 1) with (Z.of_nat n) by lia.
        intros Heq. rewrite Heq, <- Hcur in Eq.
        assert (cell_eqb cur0 cur0 = true) by (apply cell_eqb_eq; reflexivity).
        congruence.
Qed.

Lemma compressRow_spec (w : Z) (row : jsarray) :
  1 <= w ->
  expandCells (MapCompression.compressRow w row) = arr_get row <$> seqZ 0 w /\
  length (MapCompression.compressRow w row) = S (changes row (w - 1)).
Proof.
  intros Hw. unfold MapCompression.compressRow.
  pose proof (scan_invariant row (Z.to_nat (w - 1))) as H.
  rewrite Z2Nat.id in H by lia.
  destruct (fold_left (MapCompression.scanStep row) (seqZ 1 (w - 1))
              ([], arr_get row 0, 1)) as [[segs cur] count].
  destruct (H segs cur count eq_refl) as (_ & _ & Hexp & Hlen).
  replace (w - 1 + 1) with w in Hexp by lia.
  split; [exact Hexp|]. rewrite length_app, Hlen. cbn. lia.
Qed.

(** *** Arrays built from lists *)

Lemma arr_of_list_snoc (l : list string) (s : string) :
  arr_of_list (l ++ [s]) = arr_push (arr_of_list l) (Some s).
Proof. unfold arr_of_list. rewrite fold_left_app. reflexivity. Qed.

Lemma arr_of_list_spec (l : list string) :
  Z.of_nat (length l) < 2 ^ 32 ->
  len (arr_of_list l) = Z.of_nat (length l) /\
  forall i : nat, arr_get (arr_of_list l) (Z.of_nat i) = l !! i.
Proof.
  induction l as [|s l IH] using rev_ind; intros Hlen.
  - split; [reflexivity|]. intros i. reflexivity.
  - rewrite length_app in *. cbn [length] in *.
    destruct IH as [IHlen IHget]; [lia|].
    rewrite arr_of_list_snoc. unfold arr_push. split.
    + unfold arr_set; cbn [len]. rewrite IHlen.
      replace (0 <=? Z.of_nat (length l)) with true
        by (symmetry; apply Z.leb_le; lia).
      replace (Z.of_nat (length l) <? 2 ^ 32 - 1) with true
        by (symmetry; apply Z.ltb_lt; lia).
      rewrite Z.leb_refl. cbn [andb]. lia.
    + intros i. rewrite arr_get_set, IHlen.
      destruct (decide (Z.of_nat i = Z.of_nat (length l))) as [E|E].
      * apply Nat2Z.inj in E. subst i.
        rewrite lookup_app_r by lia. rewrite Nat.sub_diag. reflexivity.
      * rewrite IHget. destruct (Nat.lt_ge_cases i (length l)).
        -- rewrite lookup_app_l by lia. reflexivity.
        -- rewrite !lookup_ge_None_2; [reflexivity | rewrite length_app; cbn; lia | lia].
Qed.

Lemma arr_of_list_cells (l : list string) :
  Z.of_nat (length l) < 2 ^ 32 ->
  arr_get (arr_of_list l) <$> seqZ 0 (Z.of_nat (length l)) = Some <$> l.
Proof.
  intros Hlen. destruct (arr_of_list_spec l Hlen) as [_ Hget].
  apply list_eq. intros i. rewrite !list_lookup_fmap.
  destruct (Nat.lt_ge_cases i (length l)) as [Hi|Hi].
  - rewrite lookup_seqZ_lt by lia. cbn. rewrite Z.add_0_l, Hget.
    destruct (lookup_lt_is_Some_2 l i Hi) as [s ->]. reflexivity.
  - rewrite lookup_seqZ_ge by lia. rewrite lookup_ge_None_2 by lia. reflexivity.
Qed.

(** A row of [w] cells gives at most [w] segments, and fewer when two
    consecutive cells are equal. *)
Lemma row_segments_bound (l : list string) (w : Z) :
  Z.of_nat (length l) = w -> 1 <= w < 2 ^ 32 ->
  (1 <= length (MapCompression.compressRow w (arr_of_list l)) <= Z.to_nat w)%nat /\
  (has_run l ->
   (length (MapCompression.compressRow w (arr_of_list l)) < Z.to_nat w)%nat).
Proof.
  intros Hl Hw.
  destruct (compressRow_spec w (arr_of_list l)) as [_ Hlen]; [lia|].
  rewrite Hlen. unfold changes.
  set (P := fun i : Z => arr_get (arr_of_list l) i <> arr_get (arr_of_list l) (i - 1)).
  pose proof (length_filter P (seqZ 1 (w - 1))) as Hle.
  rewrite length_seqZ in Hle. split; [lia|].
  intros (i & t & Hi & HSi).
  assert (HiS : (S i < length l)%nat) by (eapply lookup_lt_Some, HSi).
  destruct (arr_of_list_spec l) as [_ Hget]; [lia|].
  assert (Hlt : (length (filter P (seqZ 1 (w - 1))) < length (seqZ 1 (w - 1)))%nat).
  { apply (length_filter_lt P _ (Z.of_nat (S i))).
    - apply elem_of_seqZ. lia.
    - unfold P. intros Hne. apply Hne.
      replace (Z.of_nat (S i) - 1) with (Z.of_nat i) by lia.
      rewrite !Hget. congruence. }
  rewrite length_seqZ in Hlt. lia.
Qed.

(** *** The compression ratio *)

Lemma compressedSize_from (l : list MapCompression.RLERow) (a : Z) :
  fold_left (fun sum row => sum + Z.of_nat (length (MapCompression.segments row)))
            l a
  = a + Z.of_nat (sum_list_with (fun row => length (MapCompression.segments row)) l).
Proof.
  revert a. induction l as [|r l IH]; intros a; cbn; [lia|].
  rewrite IH. lia.
Qed.

Lemma sum_list_with_bound {A} (f : A -> nat) (k : nat) (l : list A) :
  Forall (fun x => (f x <= k)%nat) l ->
  (sum_list_with f l <= k * length l)%nat /\
  (Exists (fun x => (f x < k)%nat) l -> (sum_list_with f l < k * length l)%nat).
Proof.
  induction 1 as [|x l Hx Hl [IHle IHlt]]; cbn.
  - split; [lia|]. intros H. inversion H.
  - split; [lia|]. intros H. inversion H; subst; [lia|].
    specialize (IHlt ltac:(assumption)). lia.
Qed.

Lemma ratio_positive (size original : Z) :
  0 <= size < original ->
  exists q, MapCompression.ratio size (Some original) = Some q /\
    (q == (1 - inject_Z size / inject_Z original) * 100)%Q /\ (0 < q)%Q.
Proof.
  intros H. unfold MapCompression.ratio.
  replace (original =? 0) with false by (symmetry; apply Z.eqb_neq; lia).
  eexists. split; [reflexivity|]. split; [reflexivity|].
  assert (Hdiv : (inject_Z size / inject_Z original < 1)%Q).
  { apply Qlt_shift_div_r.
    - change 0%Q with (inject_Z 0). rewrite <- Zlt_Qlt. lia.
    - rewrite Qmult_1_l. rewrite <- Zlt_Qlt. lia. }
  apply Qmult_lt_0_compat; [|reflexivity].
  unfold Qminus. rewrite <- Qlt_minus_iff. exact Hdiv.
Qed.

(** C9: for a rectangular grid in which some row has two consecutive equal
    terrain ids, the [compressionRatio] that [compressMap] computes is
    [(1 - totalSegments / (width * height)) * 100], and it is strictly
    positive. *)
Theorem compressionRatio_positive (rows : list (list string)) (w : Z)
    (seed : Z) (theme : string)
    (Hw : w < 2 ^ 32) (Hrect : rectangular w rows)
    (Hrun : Exists has_run rows) :
  let c := MapCompression.compressMap (grid_of_lists rows) seed theme in
  exists q,
    MapCompression.compressionRatio (MapCompression.metadata c) = Some q /\
    (q == (1 - inject_Z (totalSegments c)
               / inject_Z (w * Z.of_nat (length rows))) * 100)%Q /\
    (0 < q)%Q.
Proof.
  cbv zeta. unfold rectangular in Hrect.
  (* the grid has a row, and its rows have at least two cells *)
  assert (Hw2 : 2 <= w).
  { apply Exists_exists in Hrun. destruct Hrun as (l & Hin & i & t & _ & HSi).
    rewrite Forall_forall in Hrect. specialize (Hrect l Hin).
    apply lookup_lt_Some in HSi. lia. }
  destruct rows as [|row0 rows']; [inversion Hrun|].
  set (rows := row0 :: rows') in *.
  assert (Hlen0 : len (arr_of_list row0) = w).
  { inversion Hrect; subst. apply arr_of_list_spec. lia. }
  unfold MapCompression.compressMap, totalSegments.
  cbn [MapCompression.metadata MapCompression.compressionRatio
       MapCompression.rleData].
  assert (Hwidth : match grid_of_lists rows with r :: _ => len r | [] => 0 end
                   = w) by exact Hlen0.
  rewrite !Hwidth. unfold height_of, grid_of_lists. rewrite length_fmap.
  set (rle := imap (fun (y : nat) (row : jsarray) =>
                 MapCompression.mkRow (MapCompression.compressRow w row)
                                      (Z.of_nat y))
               (arr_of_list <$> rows)).
  assert (Hsize : 0 <= MapCompression.compressedSize rle
                  < Z.of_nat (length rows) * w).
  { unfold MapCompression.compressedSize. rewrite compressedSize_from.
    set (f := fun row => length (MapCompression.segments row)).
    assert (Hall : Forall (fun r => (f r <= Z.to_nat w)%nat) rle).
    { apply Forall_lookup. intros i r Hr. unfold rle in Hr.
      rewrite list_lookup_imap, list_lookup_fmap in Hr.
      destruct (rows !! i) as [l|] eqn:El; [|discriminate].
      cbn in Hr. injection Hr as <-. unfold f. cbn.
      rewrite Forall_forall in Hrect.
      assert (Z.of_nat (length l) = w)
        by (apply Hrect; eapply list_elem_of_lookup_2, El).
      apply row_segments_bound; [assumption | lia]. }
    assert (Hsome : Exists (fun r => (f r < Z.to_nat w)%nat) rle).
    { apply Exists_exists in Hrun. destruct Hrun as (l & Hin & Hl).
      apply list_elem_of_lookup in Hin. destruct Hin as [i El].
      apply Exists_exists.
      exists (MapCompression.mkRow (MapCompression.compressRow w (arr_of_list l))
                                   (Z.of_nat i)).
      split.
      - apply (list_elem_of_lookup_2 _ i). unfold rle.
        rewrite list_lookup_imap, list_lookup_fmap, El. reflexivity.
      - unfold f. cbn. rewrite Forall_forall in Hrect.
        assert (Z.of_nat (length l) = w)
          by (apply Hrect; eapply list_elem_of_lookup_2, El).
        apply row_segments_bound; [assumption | lia | exact Hl]. }
    destruct (sum_list_with_bound f (Z.to_nat w) rle Hall) as [_ Hlt].
    specialize (Hlt Hsome). unfold rle in Hlt at 2.
    rewrite length_imap, length_fmap in Hlt. nia. }
  destruct (ratio_positive _ _ Hsize) as (q & Eq & Hq & Hpos).
  exists q. split; [exact Eq|]. split; [|exact Hpos].
  rewrite Hq. rewrite (Z.mul_comm w). reflexivity.
Qed.

Lemma compressionRatio_positive_witness :
  let c := MapCompression.compressMap (grid_of_lists sample_3x2) 1 "dungeon" in
  exists q,
    MapCompression.compressionRatio (MapCompression.metadata c) = Some q /\
    (q == (1 - inject_Z (totalSegments c)
               / inject_Z (3 * Z.of_nat (length sample_3x2))) * 100)%Q /\
    (0 < q)%Q.
Proof.
  apply (compressionRatio_positive sample_3x2 3 1 "dungeon").
  - reflexivity.
  - repeat constructor.
  - left. exists 0%nat, "wall". split; reflexivity.
Defined.

(** The ratio of the 3 by 2 grid: 3 segments for 6 cells, 50. *)
Example compressionRatio_sample :
  MapCompression.compressionRatio
    (MapCompression.metadata
       (MapCompression.compressMap (grid_of_lists sample_3x2) 1 "dungeon"))
  = Some ((1 - 3 / 6) * 100)%Q.
Proof. reflexivity. Qed.

(** *** Decoding through [dimensions.height] *)

Lemma push_all_app (a b : list cell) (r : jsarray) :
  push_all (a ++ b) r = push_all b (push_all a r).
Proof. apply fold_left_app. Qed.

Lemma push_replicate (l : list Z) (t : cell) (r : jsarray) :
  fold_left (fun row _ => arr_push row t) l r
  = push_all (replicate (length l) t) r.
Proof.
  revert r. induction l as [|i l IH]; intros r; [reflexivity|].
  cbn. apply IH.
Qed.

Lemma expandSegments_from (segs : list MapCompression.RLESegment)
    (r : jsarray) :
  fold_left
    (fun row segment =>
       match MapCompression.count segment with
       | Some n =>
           fold_left (fun row _ => arr_push row (MapCompression.terrain segment))
                     (seqZ 0 n) row
       | None => row
       end) segs r
  = push_all (expandCells segs) r.
Proof.
  revert r. induction segs as [|seg segs IH]; intros r; [reflexivity|].
  cbn [fold_left]. rewrite IH. unfold expandCells. rewrite bind_cons.
  rewrite push_all_app. f_equal.
  destruct (MapCompression.count seg) as [n|]; [|reflexivity].
  rewrite push_replicate, length_seqZ. reflexivity.
Qed.

Lemma arr_of_list_push_all (l : list string) :
  arr_of_list l = push_all (Some <$> l) arr_empty.
Proof.
  unfold arr_of_list, push_all. generalize arr_empty.
  induction l as [|s l IH]; intros r; [reflexivity|]. cbn. apply IH.
Qed.

(** Expanding the segments of a row gives the row back. *)
Lemma expand_compressRow (l : list string) (w : Z) :
  Z.of_nat (length l) = w -> 1 <= w < 2 ^ 32 ->
  MapCompression.expandSegments (MapCompression.compressRow w (arr_of_list l))
  = arr_of_list l.
Proof.
  intros Hl Hw. unfold MapCompression.expandSegments.
  rewrite expandSegments_from.
  destruct (compressRow_spec w (arr_of_list l)) as [Hexp _]; [lia|].
  rewrite Hexp, <- Hl, arr_of_list_cells by lia.
  symmetry. apply arr_of_list_push_all.
Qed.

Lemma find_row (F : jsarray -> list MapCompression.RLESegment) (g : Grid) :
  forall (k i : nat) (row : jsarray),
    g !! i = Some row ->
    List.find (fun r => MapCompression.y r =? Z.of_nat (k + i))
      (imap (fun j row => MapCompression.mkRow (F row) (Z.of_nat (k + j))) g)
    = Some (MapCompression.mkRow (F row) (Z.of_nat (k + i))).
Proof.
  induction g as [|r0 g IH]; intros k i row Hi; [discriminate|].
  rewrite imap_cons. cbn [List.find MapCompression.y].
  destruct i as [|i].
  - injection Hi as ->. rewrite Z.eqb_refl. reflexivity.
  - replace (Z.of_nat (k + 0) =? Z.of_nat (k + S i)) with false
      by (symmetry; apply Z.eqb_neq; lia).
    replace (k + S i)%nat with (S k + i)%nat by lia.
    rewrite <- (IH (S k) i row Hi). f_equal.
    apply imap_ext. intros j x _. cbn. do 2 f_equal. lia.
Qed.

(** Read with the height that [dimensions] records, the rows decode to the
    grid that was encoded: the run-length code itself loses nothing. *)
Lemma decompressRows_compressMap (rows : list (list string)) (w : Z)
    (seed : Z) (theme : string) :
  rectangular w rows -> 1 <= w < 2 ^ 32 ->
  let c := MapCompression.compressMap (grid_of_lists rows) seed theme in
  MapCompression.decompressRows
    (MapCompression.height (MapCompression.dimensions c))
    (MapCompression.rleData c)
  = grid_of_lists rows.
Proof.
  intros Hrect Hw. cbv zeta. unfold rectangular in Hrect.
  unfold MapCompression.compressMap.
  cbn [MapCompression.dimensions MapCompression.height MapCompression.rleData].
  set (g := grid_of_lists rows).
  set (w0 := match g with r :: _ => len r | [] => 0 end).
  assert (Hw0 : rows <> [] -> w0 = w).
  { destruct rows as [|row0 rows']; [congruence|]. intros _.
    inversion Hrect; subst. apply arr_of_list_spec. lia. }
  unfold MapCompression.decompressRows, height_of.
  apply list_eq. intros i. rewrite list_lookup_fmap.
  destruct (g !! i) as [row|] eqn:Erow.
  - assert (Hi : (i < length g)%nat) by (eapply lookup_lt_Some, Erow).
    rewrite lookup_seqZ_lt by lia. cbn [fmap option_fmap option_map].
    rewrite Z.add_0_l.
    pose proof (find_row (MapCompression.compressRow w0) g 0 i row Erow) as Hf.
    cbn [Nat.add] in Hf. rewrite Hf. cbn [MapCompression.segments].
    unfold g, grid_of_lists in Erow. rewrite list_lookup_fmap in Erow.
    destruct (rows !! i) as [l|] eqn:El; [|discriminate].
    injection Erow as <-.
    rewrite Hw0 by (intros ->; discriminate).
    rewrite Forall_forall in Hrect.
    f_equal. apply expand_compressRow; [|exact Hw].
    apply Hrect. eapply list_elem_of_lookup_2, El.
  - rewrite lookup_seqZ_ge; [reflexivity|].
    apply lookup_ge_None in Erow. lia.
Qed.

(** For the 3 by 2 grid of the scenario: decoding through
    [dimensions.height] gives the grid, [decompressMap] gives [[]]. *)
Example decode_sample :
  let c := MapCompression.compressMap (grid_of_lists sample_3x2) 1 "dungeon" in
  MapCompression.decompressRows
    (MapCompression.height (MapCompression.dimensions c))
    (MapCompression.rleData c) = grid_of_lists sample_3x2 /\
  MapCompression.decompressMap c = [].
Proof.
  split; [|reflexivity].
  apply (decompressRows_compressMap sample_3x2 3); [repeat constructor | lia].
Qed.

(** ** The tactical scorer *)

Lemma row_at_inside (t : Grid) (y : Z) :
  0 <= y < height_of t -> exists r, row_at t y = Some r.
Proof.
  intros Hy. unfold row_at, height_of in *.
  destruct (y <? 0) eqn:E; [apply Z.ltb_lt in E; lia|].
  apply lookup_lt_is_Some_2. lia.
Qed.

Lemma get_inside (t : Grid) (x y : Z) :
  0 <= y < height_of t -> get t y x = Ok (cell_at t x y).
Proof.
  intros Hy. destruct (row_at_inside t y Hy) as [r Hr].
  unfold get, cell_at. rewrite Hr. reflexivity.
Qed.

Lemma in_bounds_xy_inside (t : Grid) (nx ny : Z) :
  0 < height_of t -> in_bounds_xy t nx ny = Ok (inside t nx ny).
Proof.
  intros Hh. unfold in_bounds_xy, inside, width_of, row_at.
  destruct t as [|r t]; [vm_compute in Hh; discriminate|].
  change (0 <? 0) with false. change (Z.to_nat 0) with 0%nat.
  change ((r :: t) !! 0%nat) with (Some r).
  destruct (nx <? 0) eqn:E.
  - apply Z.ltb_lt in E.
    replace (0 <=? nx) with false by (symmetry; apply Z.leb_gt; lia).
    reflexivity.
  - apply Z.ltb_ge in E.
    replace (0 <=? nx) with true by (symmetry; apply Z.leb_le; lia).
    reflexivity.
Qed.

Lemma inside_row (t : Grid) (nx ny : Z) :
  inside t nx ny = true -> 0 <= ny < height_of t.
Proof.
  unfold inside. intros H.
  apply andb_true_iff in H. destruct H as [H H2].
  apply andb_true_iff in H. destruct H as [_ H1].
  apply Z.leb_le in H1. apply Z.ltb_lt in H2. lia.
Qed.

(** One neighbour visit, once the grid has a row. *)
Lemma visit_inside {A} (t : Grid) (x y : Z)
    (update : Z -> Z -> cell -> A -> result A) (dx dy : Z) (acc : A) :
  0 < height_of t ->
  EncounterBalancer.visit t x y update dx dy acc
  = if inside t (x + dx) (y + dy)
    then update (x + dx) (y + dy) (cell_at t (x + dx) (y + dy)) acc
    else Ok acc.
Proof.
  intros Hh. unfold EncounterBalancer.visit. cbv zeta.
  rewrite in_bounds_xy_inside by exact Hh. cbn [rbind].
  destruct (inside t (x + dx) (y + dy)) eqn:E; [|reflexivity].
  rewrite get_inside by (eapply inside_row, E). reflexivity.
Qed.

(** A neighbour loop that adds a weight per visited cell computes the
    neighbour sum. *)
Lemma fold_offsets_sum (t : Grid) (x y : Z)
    (update : Z -> Z -> cell -> Z -> result Z) (weight : Z -> Z -> cell -> Z)
    (offsets : list (Z * Z)) :
  0 < height_of t ->
  (forall nx ny c n, inside t nx ny = true ->
     update nx ny c n = Ok (n + weight nx ny c)) ->
  forall acc,
    fold_offsets offsets (EncounterBalancer.visit t x y update) acc
    = Ok (acc + neighbour_sum offsets t x y weight).
Proof.
  intros Hh Hupd. unfold neighbour_sum.
  induction offsets as [|[dx dy] l IH]; intros acc; cbn [fold_offsets fmap list_fmap foldr].
  - f_equal. lia.
  - rewrite visit_inside by exact Hh.
    destruct (inside t (x + dx) (y + dy)) eqn:E.
    + rewrite Hupd by exact E. cbn [rbind]. rewrite IH; f_equal; lia.
    + cbn [rbind]. rewrite IH; f_equal; lia.
Qed.

Lemma neighbour_sum_perm (l l' : list (Z * Z)) (t : Grid) (x y : Z)
    (weight : Z -> Z -> cell -> Z) :
  l ≡ₚ l' -> neighbour_sum l t x y weight = neighbour_sum l' t x y weight.
Proof.
  unfold neighbour_sum. induction 1 as [|d l l' _ IH|d d' l|l l' l'' _ IH1 _ IH2];
    cbn [fmap list_fmap foldr] in *; lia.
Qed.

Lemma directions_are_the_neighbours : cardinal_then_diagonal ≡ₚ around.
Proof. apply (bool_decide_unpack _). vm_compute. exact I. Qed.

Lemma hasTacticalViability_spec (t : Grid) (x y : Z) :
  0 < height_of t ->
  EncounterBalancer.hasTacticalViability t x y
  = Ok (2 <=? neighbour_sum around t x y (fun _ _ c => indicator (walkable c))).
Proof.
  intros Hh. unfold EncounterBalancer.hasTacticalViability.
  rewrite (fold_offsets_sum t x y _ (fun _ _ c => indicator (walkable c)))
    by (try exact Hh; intros nx ny c n _; unfold walkable, indicator;
        destruct (negb _); f_equal; lia).
  reflexivity.
Qed.

Lemma countApproachableDirections_spec (t : Grid) (x y : Z) :
  0 < height_of t ->
  EncounterBalancer.countApproachableDirections t x y = Ok (open_lanes t x y).
Proof.
  intros Hh. unfold EncounterBalancer.countApproachableDirections, open_lanes.
  rewrite (fold_offsets_sum t x y _ (fun _ _ c => indicator (walkable c)))
    by (try exact Hh; intros nx ny c n _; unfold walkable, indicator;
        destruct (negb _); f_equal; lia).
  reflexivity.
Qed.

Lemma calculateFlanking_spec (t : Grid) (x y : Z) :
  0 < height_of t ->
  EncounterBalancer.calculateFlanking t x y = Ok (flanking_of t x y).
Proof.
  intros Hh. unfold EncounterBalancer.calculateFlanking, flanking_of.
  rewrite (fold_offsets_sum t x y _
             (fun nx ny c => indicator (walkable c && (3 <=? open_lanes t nx ny)))).
  - rewrite (neighbour_sum_perm _ _ _ _ _ _ directions_are_the_neighbours).
    reflexivity.
  - exact Hh.
  - intros nx ny c n _. rewrite countApproachableDirections_spec by exact Hh.
    unfold walkable, indicator. cbn [rbind].
    destruct (negb _); cbn [andb]; [|f_equal; lia].
    destruct (3 <=? open_lanes t nx ny); f_equal; lia.
Qed.

Lemma nan_add_0_r (n : option Z) : nan_add n (Some 0) = n.
Proof. destruct n as [n|]; [cbn; f_equal; lia | reflexivity]. Qed.

Lemma nan_add_0_l (n : option Z) : nan_add (Some 0) n = n.
Proof. destruct n as [n|]; reflexivity. Qed.

Lemma nan_add_assoc (a b c : option Z) :
  nan_add (nan_add a b) c = nan_add a (nan_add b c).
Proof.
  destruct a as [a|], b as [b|], c as [c|]; try reflexivity.
  cbn. f_equal. lia.
Qed.

(** A neighbour loop that adds a number per visited cell computes the
    sum of these numbers, [NaN] included. *)
Lemma fold_offsets_nan_sum (t : Grid) (x y : Z)
    (update : Z -> Z -> cell -> option Z -> result (option Z))
    (weight : Z -> Z -> cell -> option Z) (offsets : list (Z * Z)) :
  0 < height_of t ->
  (forall nx ny c n, inside t nx ny = true ->
     update nx ny c n = Ok (nan_add n (weight nx ny c))) ->
  forall acc,
    fold_offsets offsets (EncounterBalancer.visit t x y update) acc
    = Ok (nan_add acc (neighbour_nan_sum offsets t x y weight)).
Proof.
  intros Hh Hupd. unfold neighbour_nan_sum.
  induction offsets as [|[dx dy] l IH]; intros acc;
    cbn [fold_offsets fmap list_fmap foldr].
  - rewrite nan_add_0_r. reflexivity.
  - rewrite visit_inside by exact Hh.
    destruct (inside t (x + dx) (y + dy)) eqn:E.
    + rewrite Hupd by exact E. cbn [rbind]. rewrite IH, nan_add_assoc.
      reflexivity.
    + cbn [rbind]. rewrite IH, nan_add_0_l. reflexivity.
Qed.

Lemma calculateMobility_spec (t : Grid) (x y : Z) :
  0 < height_of t ->
  EncounterBalancer.calculateMobility t x y = Ok (mobility_of t x y).
Proof.
  intros Hh. unfold EncounterBalancer.calculateMobility, mobility_of.
  rewrite (fold_offsets_nan_sum t x y _
             (fun _ _ c => if walkable c then ease c else Some 0)).
  - rewrite nan_add_0_l. reflexivity.
  - exact Hh.
  - intros nx ny c n _. unfold walkable, ease. cbv zeta.
    destruct (negb _); [reflexivity|]. rewrite nan_add_0_r. reflexivity.
Qed.

Lemma neighbour_sum_cons (dx dy : Z) (l : list (Z * Z)) (t : Grid) (x y : Z)
    (weight : Z -> Z -> cell -> Z) :
  neighbour_sum ((dx, dy) :: l) t x y weight
  = (if inside t (x + dx) (y + dy)
     then weight (x + dx) (y + dy) (cell_at t (x + dx) (y + dy)) else 0)
    + neighbour_sum l t x y weight.
Proof. reflexivity. Qed.

(** The cover loop: 1 per neighbour that blocks line of sight, one half
    per other neighbour of the partial-cover set. *)
Lemma cover_loop (t : Grid) (x y : Z) (offsets : list (Z * Z)) :
  0 < height_of t ->
  forall acc : Q,
    exists q,
      fold_offsets offsets
        (EncounterBalancer.visit t x y (fun _ _ neighborTerrain cover =>
           if truthy (TerrainUtils.blocksLineOfSight neighborTerrain)
           then Ok (cover + 1)%Q
           else if includes ["ruins"; "mushrooms"; "difficult"] neighborTerrain
           then Ok (cover + (1 # 2))%Q
           else Ok cover)) acc = Ok q /\
      (q == acc
            + inject_Z (neighbour_sum offsets t x y
                (fun _ _ c => indicator (blocks_sight c)))
            + (1 # 2) * inject_Z (neighbour_sum offsets t x y
                (fun _ _ c => indicator (negb (blocks_sight c)
                                         && partial_cover c))))%Q.
Proof.
  intros Hh. induction offsets as [|[dx dy] l IH]; intros acc.
  - exists acc. split; [reflexivity|]. unfold neighbour_sum.
    cbn [fmap list_fmap foldr]. change (inject_Z 0) with 0%Q. ring.
  - cbn [fold_offsets]. rewrite visit_inside by exact Hh.
    rewrite !neighbour_sum_cons. unfold partial_cover, blocks_sight in *.
    destruct (inside t (x + dx) (y + dy)).
    + destruct (truthy (TerrainUtils.blocksLineOfSight
                          (cell_at t (x + dx) (y + dy))));
        [|destruct (includes _ (cell_at t (x + dx) (y + dy)))];
        cbn [rbind negb andb indicator].
      * destruct (IH (acc + 1)%Q) as (q & E & Hq).
        exists q. split; [exact E|]. rewrite Hq, !inject_Z_plus.
        change (inject_Z 1) with 1%Q. change (inject_Z 0) with 0%Q. ring.
      * destruct (IH (acc + (1 # 2))%Q) as (q & E & Hq).
        exists q. split; [exact E|]. rewrite Hq, !inject_Z_plus.
        change (inject_Z 1) with 1%Q. change (inject_Z 0) with 0%Q. ring.
      * destruct (IH acc) as (q & E & Hq).
        exists q. split; [exact E|]. rewrite Hq, !inject_Z_plus.
        change (inject_Z 0) with 0%Q. ring.
    + cbn [rbind]. destruct (IH acc) as (q & E & Hq).
      exists q. split; [exact E|]. rewrite Hq, !inject_Z_plus.
      change (inject_Z 0) with 0%Q. ring.
Qed.

Lemma calculateCover_spec (t : Grid) (x y : Z) :
  0 < height_of t ->
  exists cover,
    EncounterBalancer.calculateCover t x y = Ok cover /\
    (cover == cover_of t x y)%Q.
Proof.
  intros Hh. destruct (cover_loop t x y around Hh 0%Q) as (q & E & Hq).
  exists q. split; [exact E|]. rewrite Hq. unfold cover_of. ring.
Qed.

Lemma isSuitableForMonster_spec (t : Grid) (x y : Z) :
  0 <= y < height_of t ->
  EncounterBalancer.isSuitableForMonster t x y = Ok (eligible t x y).
Proof.
  intros Hrow. assert (Hh : 0 < height_of t) by lia.
  unfold EncounterBalancer.isSuitableForMonster, eligible, walkable, hazard.
  rewrite get_inside by exact Hrow. cbn [rbind].
  destruct (truthy (TerrainUtils.blocksMovement (cell_at t x y)));
    [reflexivity|].
  destruct (includes _ (cell_at t x y)); [reflexivity|].
  rewrite hasTacticalViability_spec by exact Hh. reflexivity.
Qed.

Lemma calculateTacticalValue_spec (t : Grid) (x y : Z) :
  0 <= y < height_of t ->
  exists value,
    EncounterBalancer.calculateTacticalValue t x y = Ok value /\
    same_number value (tactical_value t x y).
Proof.
  intros Hrow. assert (Hh : 0 < height_of t) by lia.
  destruct (calculateCover_spec t x y Hh) as (cover & Ecover & Hcover).
  unfold EncounterBalancer.calculateTacticalValue. cbv zeta.
  rewrite get_inside by exact Hrow. cbn [rbind].
  rewrite Ecover. cbn [rbind].
  rewrite calculateFlanking_spec by exact Hh. cbn [rbind].
  rewrite calculateMobility_spec by exact Hh. cbn [rbind].
  eexists. split; [reflexivity|].
  unfold tactical_value, elevation_of, EncounterBalancer.getElevation.
  destruct (mobility_of t x y) as [mobility|];
    cbn [num_add num_mul num_of_Z default same_number]; [|exact I].
  rewrite Hcover. ring.
Qed.

(** C6 (as the code has it): for every grid and every cell of a row of
    the grid, the cell is found suitable exactly when its terrain does
    not block movement, is none of pit, lava and water, and at least 2 of
    its 8 neighbours do not block movement; the cover computed for it
    counts 1 per neighbour that blocks line of sight and 0.5 per other
    neighbour of the partial-cover set, each neighbour once; the flanking
    and the mobility are the counts and the sum the scorer describes; and
    the tactical value computed for the cell is
    [terrainBaseValue + 10 cover + 5 flanking + 3 mobility + 2 elevation]
    with an elevation term of 0, which is [NaN] exactly when the mobility
    is. *)
Theorem tactical_scoring (t : Grid) (x y : Z) (Hrow : 0 <= y < height_of t) :
  EncounterBalancer.isSuitableForMonster t x y = Ok (eligible t x y) /\
  (exists cover,
     EncounterBalancer.calculateCover t x y = Ok cover /\
     (cover == cover_of t x y)%Q) /\
  EncounterBalancer.calculateFlanking t x y = Ok (flanking_of t x y) /\
  EncounterBalancer.calculateMobility t x y = Ok (mobility_of t x y) /\
  (exists value,
     EncounterBalancer.calculateTacticalValue t x y = Ok value /\
     same_number value (tactical_value t x y)).
Proof.
  assert (Hh : 0 < height_of t) by lia.
  split; [apply isSuitableForMonster_spec, Hrow|].
  split; [apply calculateCover_spec, Hh|].
  split; [apply calculateFlanking_spec, Hh|].
  split; [apply calculateMobility_spec, Hh|].
  apply calculateTacticalValue_spec, Hrow.
Qed.

Lemma tactical_scoring_witness :
  EncounterBalancer.isSuitableForMonster arena 1 1 = Ok (eligible arena 1 1) /\
  (exists cover,
     EncounterBalancer.calculateCover arena 1 1 = Ok cover /\
     (cover == cover_of arena 1 1)%Q) /\
  EncounterBalancer.calculateFlanking arena 1 1 = Ok (flanking_of arena 1 1) /\
  EncounterBalancer.calculateMobility arena 1 1 = Ok (mobility_of arena 1 1) /\
  (exists value,
     EncounterBalancer.calculateTacticalValue arena 1 1 = Ok value /\
     same_number value (tactical_value arena 1 1)).
Proof. apply (tactical_scoring arena 1 1). split; [lia | reflexivity]. Defined.

(** C6 as stated fails at the cell [(3, 2)] of the arena, which is
    eligible.  Its neighbour of ruins blocks line of sight and belongs to
    the partial-cover set; the code counts it once, for 1, so the cover is
    4.5 (three walls, the ruins, one half for the difficult terrain) and
    the value 128/2 = 64, where the claim's count of 1 and 0.5 gives a cover of 5
    and a value of 69. *)
Lemma cover_counts_a_neighbour_once :
  EncounterBalancer.isSuitableForMonster arena 3 2 = Ok true /\
  EncounterBalancer.calculateCover arena 3 2 = Ok (9 # 2) /\
  EncounterBalancer.calculateFlanking arena 3 2 = Ok 2 /\
  EncounterBalancer.calculateMobility arena 3 2 = Ok (Some 2) /\
  EncounterBalancer.calculateTacticalValue arena 3 2 = Ok (Some (128 # 2)) /\
  (cover_as_worded arena 3 2 == 5)%Q /\
  ~ (9 # 2 == cover_as_worded arena 3 2)%Q /\
  ~ (128 # 2
     == inject_Z (EncounterBalancer.getTerrainTacticalValue (cell_at arena 3 2))
        + 10 * cover_as_worded arena 3 2 + 5 * 2 + 3 * 2 + 2 * 0)%Q.
Proof.
  do 6 (split; [vm_compute; reflexivity|]).
  split; intros H; vm_compute in H; discriminate H.
Qed.

(** In the arena, the cell [(1, 1)] is eligible: cover 6 (five walls and
    the ruins), 3 flanking neighbours, mobility 4, value 3 + 60 + 15 + 12.
    The pit at [(3, 3)] and the wall at [(0, 0)] are not eligible. *)
Example arena_scores :
  EncounterBalancer.isSuitableForMonster arena 1 1 = Ok true /\
  EncounterBalancer.calculateCover arena 1 1 = Ok 6%Q /\
  EncounterBalancer.calculateFlanking arena 1 1 = Ok 3 /\
  EncounterBalancer.calculateMobility arena 1 1 = Ok (Some 4) /\
  EncounterBalancer.calculateTacticalValue arena 1 1 = Ok (Some 90%Q) /\
  EncounterBalancer.isSuitableForMonster arena 3 3 = Ok false /\
  EncounterBalancer.isSuitableForMonster arena 0 0 = Ok false.
Proof. evaluate. Qed.

(** A cell named after a member of [Object.prototype]: the lookup finds
    the inherited member, whose fields are [undefined], so the cell
    [(1, 0)] does not block movement and is suitable, with a value of 24;
    it has no movement cost, so the mobility and the tactical value of
    its neighbour [(0, 0)] are [NaN]. *)
Example inherited_name_scores :
  TerrainUtils.getTerrain (Some "constructor") = Inherited /\
  TerrainUtils.blocksMovement (Some "constructor") = None /\
  TerrainUtils.getMovementCost (Some "constructor") = None /\
  EncounterBalancer.isSuitableForMonster arena_with_constructor 1 0 = Ok true /\
  EncounterBalancer.calculateTacticalValue arena_with_constructor 1 0
  = Ok (Some 24%Q) /\
  EncounterBalancer.calculateMobility arena_with_constructor 0 0 = Ok None /\
  EncounterBalancer.calculateTacticalValue arena_with_constructor 0 0
  = Ok None /\
  EncounterBalancer.calculateCover arena_with_constructor 0 0 = Ok 0%Q /\
  ordinary arena_with_constructor = false /\
  ordinary arena = true.
Proof. evaluate. Qed.

(** ** The border of the template layout *)

Lemma sprinkle_edged (c : GenerationConfig) (p : Q) (v : string) (w h : Z)
    (t : Grid) (x y : Z) :
  shaped w h t -> edged v w h t -> 1 <= x <= w - 2 -> 1 <= y <= h - 2 ->
  returns (sprinkle c p t x y) (fun t' => shaped w h t' /\ edged v w h t').
Proof.
  intros Hs He Hx Hy. unfold sprinkle.
  apply returns_bind_lift with (a := cell_at t x y);
    [apply (get_shaped w h); [exact Hs|lia]|].
  destruct (cell_is _ _); [|apply returns_ret; split; assumption].
  apply returns_bind_random. intros r.
  destruct (Qltb r p); [|apply returns_ret; split; assumption].
  unfold pick. cbv zeta.
  apply returns_bind with (P := fun _ => True).
  - apply returns_bind_random. intros r'. apply returns_ret. exact I.
  - intros feature _. apply (set_interior v w h); assumption.
Qed.

Lemma sprinkleInterior_edged (c : GenerationConfig) (p : Q) (v : string)
    (w h : Z) (t : Grid) :
  1 <= h -> shaped w h t -> edged v w h t ->
  returns (sprinkleInterior c p t) (fun t' => shaped w h t' /\ edged v w h t').
Proof.
  intros Hh Hs He. unfold sprinkleInterior, for_lt.
  assert (Eh : height_of t = h) by apply Hs. rewrite Eh.
  apply returns_forM_inv; [split; assumption|].
  intros y t1 Hy [Hs1 He1]. apply elem_of_seqZ in Hy.
  apply returns_bind_lift with (a := w);
    [apply (width_of_shaped w h); [exact Hs1|lia]|].
  apply returns_forM_inv; [split; assumption|].
  intros x t2 Hx [Hs2 He2]. apply elem_of_seqZ in Hx.
  apply sprinkle_edged; try assumption; lia.
Qed.

(** Writing [v] into a cell of the grid keeps every cell known to hold
    [v], and adds the cell written. *)
Lemma set_known (v : string) (w h : Z) (P : Z -> Z -> Prop) (t : Grid)
    (x y : Z) :
  shaped w h t -> (forall x' y', P x' y' -> cell_at t x' y' = Some v) ->
  0 <= x < w -> 0 <= y < h ->
  returns (lift (set t y x (Some v)))
    (fun t' => shaped w h t' /\
       forall x' y', P x' y' \/ (x' = x /\ y' = y) -> cell_at t' x' y' = Some v).
Proof.
  intros Hs HP Hx Hy.
  destruct (set_shaped w h t x y (Some v) Hs) as (t' & E & Hs' & Hcell); try lia.
  apply returns_lift with (a := t'); [exact E|].
  split; [exact Hs'|]. intros x' y' H. rewrite Hcell.
  destruct (decide (x' = x /\ y' = y)); [reflexivity|].
  destruct H as [H|H]; [apply HP, H | contradiction].
Qed.

Lemma createBaseTemplate_walled (c : GenerationConfig) :
  1 <= width c < 2 ^ 32 -> 1 <= height c < 2 ^ 32 ->
  returns (createBaseTemplate c) (walled (width c) (height c)).
Proof.
  intros Hw Hh. unfold createBaseTemplate. cbv zeta.
  set (w := width c) in *. set (h := height c) in *.
  destruct (new_grid_shaped w h "empty") as (t0 & E0 & Hs0 & _); try lia.
  apply returns_bind_lift with (a := t0); [exact E0|].
  apply returns_bind with (P := shaped w h).
  { (* the main chamber *)
    unfold for_le. apply returns_forM_inv; [exact Hs0|].
    intros y t1 _ Hs1. apply returns_forM_inv; [exact Hs1|].
    intros x t2 _ Hs2.
    destruct ((0 <=? x) && (x <? w) && (0 <=? y) && (y <? h)) eqn:E;
      [|apply returns_ret, Hs2].
    rewrite !andb_true_iff in E. destruct E as [[[Hx0 Hx1] Hy0] Hy1].
    apply Z.leb_le in Hx0, Hy0. apply Z.ltb_lt in Hx1, Hy1.
    destruct (set_shaped w h t2 x y (Some "empty") Hs2) as (t' & E & Hs' & _);
      try lia.
    apply returns_lift with (a := t'); assumption. }
  intros t1 Hs1.
  apply returns_bind with
    (P := fun t' => shaped w h t' /\
            forall x y, 0 <= x < w /\ (y = 0 \/ y = h - 1) ->
              cell_at t' x y = Some "wall").
  { (* the top and bottom rows *)
    unfold for_lt.
    apply returns_weaken with
      (P := fun t' => shaped w h t' /\
              forall x y, x ∈ seqZ 0 (w - 0) /\ (y = 0 \/ y = h - 1) ->
                cell_at t' x y = Some "wall").
    - apply (returns_forM (fun pre t' => shaped w h t' /\
               forall x y, x ∈ pre /\ (y = 0 \/ y = h - 1) ->
                 cell_at t' x y = Some "wall")).
      + split; [exact Hs1|]. intros x y [Hin _].
        apply elem_of_nil in Hin. contradiction.
      + intros pre x post t2 Hl [Hs2 Hk2].
        assert (Hx : 0 <= x < w).
        { apply elem_of_middle in Hl. apply elem_of_seqZ in Hl. lia. }
        eapply returns_bind.
        * apply (set_known "wall" w h _ t2 x 0 Hs2 Hk2); lia.
        * intros t3 [Hs3 Hk3]. cbv beta.
          eapply returns_weaken.
          -- apply (set_known "wall" w h _ t3 x (h - 1) Hs3 Hk3); lia.
          -- intros t4 [Hs4 Hk4]. split; [exact Hs4|].
             intros x' y' [Hin Hy']. apply Hk4.
             apply elem_of_app in Hin. destruct Hin as [Hin|Hin]; [tauto|].
             apply list_elem_of_singleton in Hin. subst x'. lia.
    - intros t' [Hs' Hk']. split; [exact Hs'|].
      intros x y [Hx Hy]. apply Hk'. split; [apply elem_of_seqZ; lia | exact Hy]. }
  intros t2 [Hs2 Hk2].
  (* the left and right columns *)
  unfold for_lt.
  apply returns_weaken with
    (P := fun t' => shaped w h t' /\
            forall x y, (0 <= x < w /\ (y = 0 \/ y = h - 1)) \/
                        (y ∈ seqZ 0 (h - 0) /\ (x = 0 \/ x = w - 1)) ->
              cell_at t' x y = Some "wall").
  - apply (returns_forM (fun pre t' => shaped w h t' /\
             forall x y, (0 <= x < w /\ (y = 0 \/ y = h - 1)) \/
                         (y ∈ pre /\ (x = 0 \/ x = w - 1)) ->
               cell_at t' x y = Some "wall")).
    + split; [exact Hs2|]. intros x y [H|[Hin _]]; [apply Hk2, H|].
      apply elem_of_nil in Hin. contradiction.
    + intros pre y post t3 Hl [Hs3 Hk3].
      assert (Hy : 0 <= y < h).
      { apply elem_of_middle in Hl. apply elem_of_seqZ in Hl. lia. }
      eapply returns_bind.
      * apply (set_known "wall" w h _ t3 0 y Hs3 Hk3); lia.
      * intros t4 [Hs4 Hk4]. cbv beta.
        eapply returns_weaken.
        -- apply (set_known "wall" w h _ t4 (w - 1) y Hs4 Hk4); lia.
        -- intros t5 [Hs5 Hk5]. split; [exact Hs5|].
           intros x' y' H. apply Hk5.
           destruct H as [H|[Hin Hx']]; [tauto|].
           apply elem_of_app in Hin. destruct Hin as [Hin|Hin]; [tauto|].
           apply list_elem_of_singleton in Hin. subst y'. lia.
  - intros t' [Hs' Hk']. split; [exact Hs'|].
    intros x y Hx Hy Hedge. apply Hk'. unfold on_edge in Hedge.
    destruct Hedge as [E|[E|[E|E]]].
    + right. split; [apply elem_of_seqZ; lia | tauto].
    + right. split; [apply elem_of_seqZ; lia | tauto].
    + left. tauto.
    + left. tauto.
Qed.

(** The border invariant of the template layout: for every seed, theme and
    size, [generate()] returns a grid whose edge cells are all ['wall']. *)
Lemma template_edges_are_wall (c : GenerationConfig) (fuel : nat) :
  algorithm c = "template" ->
  1 <= width c < 2 ^ 32 -> 1 <= height c < 2 ^ 32 ->
  exists terrain g',
    generate fuel (new_TerrainGenerator c) = Ok (terrain, g') /\
    forall x y, 0 <= x < width c -> 0 <= y < height c ->
      on_edge (width c) (height c) x y ->
      cell_at terrain x y = Some "wall" /\
      obstructing (cell_at terrain x y) = true.
Proof.
  intros Halg Hw Hh.
  assert (H : returns (generateTemplate c) (walled (width c) (height c))).
  { unfold generateTemplate.
    apply returns_bind with (1 := createBaseTemplate_walled c Hw Hh).
    intros t [Hs He]. unfold varyTemplate.
    apply sprinkleInterior_edged; [lia | exact Hs | exact He]. }
  destruct (H (Rng.seededRandom (seed c))) as (terrain & s' & E & _ & He).
  exists terrain, (mkGenerator c s'). split.
  - unfold generate, generate_body, new_TerrainGenerator; cbn [config stream].
    rewrite Halg. cbn [String.eqb Ascii.eqb Bool.eqb]. rewrite E. reflexivity.
  - intros x y Hx Hy Hedge. rewrite (He x y Hx Hy Hedge).
    split; reflexivity.
Qed.

(** ** The border of the partition layout with the default corridors *)

Lemma succeeds_ret {A} (a : A) (P : A -> Prop) : P a -> succeeds (ret a) P.
Proof.
  intros HP s Hs. exists a, s. split; [reflexivity|]. split; assumption.
Qed.

Lemma succeeds_bind {A B} (c : M A) (k : A -> M B) (P : A -> Prop)
    (R : B -> Prop) :
  succeeds c P -> (forall a, P a -> succeeds (k a) R) -> succeeds (bind c k) R.
Proof.
  intros Hc Hk s Hs. destruct (Hc s Hs) as (a & s1 & E & Hs1 & Pa).
  destruct (Hk a Pa s1 Hs1) as (b & s2 & E2 & Hs2 & Rb).
  exists b, s2. unfold bind. rewrite E. split; [exact E2|]. split; assumption.
Qed.

Lemma succeeds_random : succeeds random (fun r => (0 <= r < 1)%Q).
Proof.
  intros s Hs. pose proof (completes_random s Hs) as H. unfold random in *.
  destruct (Rng.next s) as [r s']. exists r, s'.
  destruct H as [Hs' Hr]. split; [reflexivity|]. split; assumption.
Qed.

Lemma succeeds_weaken {A} (c : M A) (P R : A -> Prop) :
  succeeds c P -> (forall a, P a -> R a) -> succeeds c R.
Proof.
  intros Hc HPR s Hs. destruct (Hc s Hs) as (a & s' & E & Hs' & Pa).
  exists a, s'. split; [exact E|]. split; [exact Hs' | apply HPR, Pa].
Qed.

(** A computation that returns from every state and keeps the stream in
    range succeeds. *)
Lemma returns_succeeds {A} (c : M A) (P : A -> Prop) :
  returns c P -> completes c (fun _ => True) -> succeeds c P.
Proof.
  intros Hr Hc s Hs. destruct (Hr s) as (a & s' & E & Pa).
  specialize (Hc s Hs). rewrite E in Hc. destruct Hc as [Hs' _].
  exists a, s'. split; [exact E|]. split; assumption.
Qed.

Lemma returns_forEach_inv {A S} (I : S -> Prop) (Pa : A -> Prop)
    (l : list A) (body : A -> S -> M S) (acc : S) :
  I acc -> Forall Pa l ->
  (forall a s, Pa a -> I s -> returns (body a s) I) ->
  returns (forEach l body acc) I.
Proof.
  intros H0 Hl Hbody. revert acc H0.
  induction Hl as [|a l Ha Hl IH]; intros acc H0.
  - apply returns_ret, H0.
  - cbn [forEach]. apply returns_bind with (P := I).
    + apply Hbody; assumption.
    + intros s Hs. apply IH, Hs.
Qed.

Lemma floor_mul_range (r : Q) (k : Z) :
  (0 <= r < 1)%Q -> Z.min 0 k <= floor_mul r k <= Z.max 0 (k - 1).
Proof.
  intros Hr. destruct (Z.le_gt_cases 0 k) as [Hk|Hk].
  - pose proof (floor_mul_bounds r k Hr Hk). lia.
  - destruct r as [n d]. unfold Qle, Qlt, floor_mul, Qfloor in *; cbn in *.
    rewrite Pos.mul_1_r. destruct Hr as [Hlo Hhi].
    assert (Hn : 0 <= n < Z.pos d) by lia.
    assert (k <= n * k / Z.pos d) by (apply Z.div_le_lower_bound; nia).
    assert (n * k / Z.pos d <= 0).
    { assert (n * k / Z.pos d < 1); [|lia].
      apply Z.div_lt_upper_bound; nia. }
    lia.
Qed.

(** One axis of the single room of a region: the room starts in the
    region and, after the adjustment of its size, ends in it. *)
Lemma room_axis (x w ms f1 f3 : Z) :
  1 <= ms -> ms <= w ->
  Z.min 0 (w - ms) <= f1 <= Z.max 0 (w - ms - 1) ->
  let rw := Z.max ms (Z.min (w - 2) (f1 + ms)) in
  Z.min 0 (w - rw - 1) <= f3 <= Z.max 0 (w - rw - 1 - 1) ->
  let roomX := x + f3 + 1 in
  x <= roomX /\
  roomX + (if x + w <? roomX + rw then (x + w) - roomX - 1 else rw) <= x + w.
Proof.
  intros Hms Hw H1 rw H3 roomX. subst rw roomX.
  destruct (x + w <? _) eqn:E;
    [apply Z.ltb_lt in E | apply Z.ltb_ge in E]; lia.
Qed.

(** The rooms of a region that can hold a minimum room lie in the
    region. *)
Lemma generateRoomsBSP_within (fuel : nat) :
  forall x y w h ms mr,
    1 <= ms -> ms <= w -> ms <= h -> Z.max 0 (w + h) < Z.of_nat fuel ->
    succeeds (generateRoomsBSP fuel x y w h ms mr)
             (Forall (room_within x y w h)).
Proof.
  induction fuel as [|fuel IH]; intros x y w h ms mr Hms Hmw Hmh Hfuel; [lia|].
  cbn [generateRoomsBSP]. unfold roomsBody. cbv zeta.
  destruct ((w <? ms * 2) || (h <? ms * 2) || (mr <=? Z.of_nat (length [])))
    eqn:Ebase.
  - (* a single room *)
    apply succeeds_bind with (1 := succeeds_random). intros r1 Hr1.
    apply succeeds_bind with (1 := succeeds_random). intros r2 Hr2.
    apply succeeds_bind with (1 := succeeds_random). intros r3 Hr3.
    apply succeeds_bind with (1 := succeeds_random). intros r4 Hr4.
    apply succeeds_ret. cbn [app]. constructor; [|constructor].
    pose proof (room_axis x w ms _ _ Hms Hmw
                  (floor_mul_range r1 (w - ms) Hr1)
                  (floor_mul_range r3 _ Hr3)) as Hx.
    pose proof (room_axis y h ms _ _ Hms Hmh
                  (floor_mul_range r2 (h - ms) Hr2)
                  (floor_mul_range r4 _ Hr4)) as Hy.
    cbv zeta in Hx, Hy. unfold room_within.
    destruct (x + w <? _); destruct (y + h <? _);
      cbn [Room.x Room.y Room.width Room.height Room.set_width Room.set_height];
      tauto.
  - apply orb_false_iff in Ebase. destruct Ebase as [Ebase _].
    apply orb_false_iff in Ebase. destruct Ebase as [Ew Eh].
    apply Z.ltb_ge in Ew, Eh.
    apply succeeds_bind with (1 := succeeds_random). intros r _.
    destruct (Qltb r (1 # 2) && (ms * 2 <=? h)).
    + apply succeeds_bind with (1 := succeeds_random). intros r' Hr'.
      pose proof (floor_mul_range r' (h - ms * 2) Hr') as Hf.
      eapply succeeds_bind; [apply IH; lia|]. intros top Htop. cbv beta.
      eapply succeeds_bind; [apply IH; lia|]. intros bottom Hbottom. cbv beta.
      apply succeeds_ret. apply Forall_app. split.
      * eapply Forall_impl; [exact Htop|]. unfold room_within. intros; lia.
      * eapply Forall_impl; [exact Hbottom|]. unfold room_within. intros; lia.
    + replace (ms * 2 <=? w) with true by (symmetry; apply Z.leb_le; lia).
      apply succeeds_bind with (1 := succeeds_random). intros r' Hr'.
      pose proof (floor_mul_range r' (w - ms * 2) Hr') as Hf.
      eapply succeeds_bind; [apply IH; lia|]. intros left Hleft. cbv beta.
      eapply succeeds_bind; [apply IH; lia|]. intros right Hright. cbv beta.
      apply succeeds_ret. apply Forall_app. split.
      * eapply Forall_impl; [exact Hleft|]. unfold room_within. intros; lia.
      * eapply Forall_impl; [exact Hright|]. unfold room_within. intros; lia.
Qed.

(** A room inside the border ring is stamped on interior cells only. *)
Lemma createRoom_edged (v : string) (w h : Z) (t : Grid) (room : Room.t) :
  shaped w h t -> edged v w h t -> room_within 1 1 (w - 2) (h - 2) room ->
  returns (createRoom t room) (fun t' => shaped w h t' /\ edged v w h t').
Proof.
  intros Hs He (Hx0 & Hx1 & Hy0 & Hy1). unfold createRoom, for_lt.
  apply returns_forM_inv; [split; assumption|].
  intros y t1 Hy [Hs1 He1]. apply elem_of_seqZ in Hy.
  apply returns_forM_inv; [split; assumption|].
  intros x t2 Hx [Hs2 He2]. apply elem_of_seqZ in Hx.
  destruct ((x =? Room.x room) || (x =? Room.x room + Room.width room - 1) ||
            (y =? Room.y room) || (y =? Room.y room + Room.height room - 1));
    apply (set_interior v w h); try assumption; lia.
Qed.

Lemma carve_edged (v : string) (w h : Z) (t : Grid) (x cy : Z) :
  shaped w h t -> edged v w h t -> 1 <= x <= w - 2 -> 1 <= cy <= h - 2 ->
  returns (carve t x cy) (fun t' => shaped w h t' /\ edged v w h t').
Proof.
  intros Hs He Hx Hy. unfold carve.
  destruct (in_bounds_yx t x cy); [|apply returns_ret; split; assumption].
  apply returns_bind_lift with (a := cell_at t x cy);
    [apply (get_shaped w h); [exact Hs|lia]|].
  destruct (cell_is _ _ || cell_is _ _); [|apply returns_ret; split; assumption].
  apply (set_interior v w h); assumption.
Qed.

(** Corridors one cell wide stay inside the border ring. *)
Lemma connectRooms_edged (v : string) (w h : Z) (t : Grid)
    (rooms : list Room.t) (cw : Z) :
  cw / 2 = 0 -> 3 <= w -> 3 <= h -> shaped w h t -> edged v w h t ->
  returns (connectRooms t rooms cw) (fun t' => shaped w h t' /\ edged v w h t').
Proof.
  intros Hcw Hw Hh Hs He. unfold connectRooms.
  apply returns_forEach_inv with (Pa := fun _ => True);
    [split; assumption | apply Forall_true; trivial |].
  intros [currentRoom nextRoom] t1 _ [Hs1 He1].
  apply returns_bind_lift with (a := w);
    [apply (width_of_shaped w h); [exact Hs1|lia]|].
  assert (Eh : height_of t1 = h) by apply Hs1. rewrite Eh, Hcw.
  unfold for_le.
  apply returns_bind with (P := fun t' => shaped w h t' /\ edged v w h t').
  - apply returns_forM_inv; [split; assumption|].
    intros x t2 Hx [Hs2 He2]. apply elem_of_seqZ in Hx.
    apply returns_forM_inv; [split; assumption|].
    intros cy t3 Hcy [Hs3 He3]. apply elem_of_seqZ in Hcy.
    apply carve_edged; try assumption; lia.
  - intros t2 [Hs2 He2].
    apply returns_forM_inv; [split; assumption|].
    intros y t3 Hy [Hs3 He3]. apply elem_of_seqZ in Hy.
    apply returns_forM_inv; [split; assumption|].
    intros cx t4 Hcx [Hs4 He4]. apply elem_of_seqZ in Hcx.
    apply carve_edged; try assumption; lia.
Qed.

Lemma addCorridorFeatures_edged (v : string) (w h : Z) (t : Grid) :
  1 <= h -> shaped w h t -> edged v w h t ->
  returns (addCorridorFeatures t) (fun t' => shaped w h t' /\ edged v w h t').
Proof.
  intros Hh Hs He. unfold addCorridorFeatures, for_lt. cbv zeta.
  assert (Eh : height_of t = h) by apply Hs. rewrite Eh.
  apply returns_forM_inv; [split; assumption|].
  intros y t1 Hy [Hs1 He1]. apply elem_of_seqZ in Hy.
  apply returns_bind_lift with (a := w);
    [apply (width_of_shaped w h); [exact Hs1|lia]|].
  apply returns_forM_inv; [split; assumption|].
  intros x t2 Hx [Hs2 He2]. apply elem_of_seqZ in Hx.
  apply returns_bind_lift with (a := cell_at t2 x y);
    [apply (get_shaped w h); [exact Hs2|lia]|].
  destruct (cell_is _ _); [|apply returns_ret; split; assumption].
  apply returns_bind_random. intros r.
  destruct (Qltb r _); [|apply returns_ret; split; assumption].
  destruct (countNeighborsOfType_ok w h t2 x y "difficult" Hs2) as [k Ek]; [lia|].
  apply returns_bind_lift with (a := k); [exact Ek|].
  destruct (4 <=? k); [|apply returns_ret; split; assumption].
  unfold pick. cbv zeta.
  apply returns_bind with (P := fun _ => True).
  - apply returns_bind_random. intros r'. apply returns_ret. exact I.
  - intros feature _. apply (set_interior v w h); try assumption; lia.
Qed.

Lemma addBSPFeatures_edged (c : GenerationConfig) (v : string) (w h : Z)
    (t : Grid) (rooms : list Room.t) :
  1 <= h -> shaped w h t -> edged v w h t ->
  Forall (room_within 1 1 (w - 2) (h - 2)) rooms ->
  returns (addBSPFeatures c t rooms)
          (fun t' => shaped w h t' /\ edged v w h t').
Proof.
  intros Hh Hs He Hrooms. unfold addBSPFeatures. cbv zeta.
  apply returns_bind with (P := fun t' => shaped w h t' /\ edged v w h t').
  - apply returns_forEach_inv with (Pa := room_within 1 1 (w - 2) (h - 2));
      [split; assumption | exact Hrooms |].
    intros room t1 (Hx0 & Hx1 & Hy0 & Hy1) [Hs1 He1].
    destruct ((Room.width room - 2 <? 2) || (Room.height room - 2 <? 2));
      [apply returns_ret; split; assumption|].
    unfold for_lt.
    apply returns_forM_inv; [split; assumption|].
    intros y t2 Hy [Hs2 He2]. apply elem_of_seqZ in Hy.
    apply returns_forM_inv; [split; assumption|].
    intros x t3 Hx [Hs3 He3]. apply elem_of_seqZ in Hx.
    apply sprinkle_edged; try assumption; lia.
  - intros t1 [Hs1 He1]. apply addCorridorFeatures_edged; assumption.
Qed.

(** The loop of [generateBSP] that writes the border. *)
Lemma border_pass (w h : Z) (t : Grid) :
  shaped w h t ->
  returns
    (for_lt 0 h (fun y terrain =>
       for_lt 0 w (fun x terrain =>
         if (x =? 0) || (x =? w - 1) || (y =? 0) || (y =? h - 1)
         then lift (set terrain y x (Some "difficult"))
         else ret terrain) terrain) t)
    (fun t' => shaped w h t' /\ edged "difficult" w h t').
Proof.
  intros Hs. unfold for_lt.
  apply returns_weaken with
    (P := fun t' => shaped w h t' /\
            forall x y, (y ∈ seqZ 0 (h - 0) /\ 0 <= x < w /\ on_edge w h x y) ->
              cell_at t' x y = Some "difficult").
  - apply (returns_forM (fun pre t' => shaped w h t' /\
             forall x y, (y ∈ pre /\ 0 <= x < w /\ on_edge w h x y) ->
               cell_at t' x y = Some "difficult")).
    + split; [exact Hs|]. intros x y [Hin _].
      apply elem_of_nil in Hin. contradiction.
    + intros pre y post t1 Hl [Hs1 Hk1].
      assert (Hy : 0 <= y < h).
      { apply elem_of_middle in Hl. apply elem_of_seqZ in Hl. lia. }
      apply returns_weaken with
        (P := fun t' => shaped w h t' /\
                forall x' y',
                  (y' ∈ pre /\ 0 <= x' < w /\ on_edge w h x' y') \/
                  (y' = y /\ x' ∈ seqZ 0 (w - 0) /\ on_edge w h x' y') ->
                  cell_at t' x' y' = Some "difficult").
      * apply (returns_forM (fun prex t' => shaped w h t' /\
                 forall x' y',
                   (y' ∈ pre /\ 0 <= x' < w /\ on_edge w h x' y') \/
                   (y' = y /\ x' ∈ prex /\ on_edge w h x' y') ->
                   cell_at t' x' y' = Some "difficult")).
        -- split; [exact Hs1|]. intros x' y' [H|(_ & Hin & _)]; [apply Hk1, H|].
           apply elem_of_nil in Hin. contradiction.
        -- intros prex x postx t2 Hlx [Hs2 Hk2].
           assert (Hx : 0 <= x < w).
           { apply elem_of_middle in Hlx. apply elem_of_seqZ in Hlx. lia. }
           destruct ((x =? 0) || (x =? w - 1) || (y =? 0) || (y =? h - 1)) eqn:E.
           ++ eapply returns_weaken.
              ** apply (set_known "difficult" w h _ t2 x y Hs2 Hk2); lia.
              ** intros t3 [Hs3 Hk3]. split; [exact Hs3|].
                 intros x' y' H. apply Hk3.
                 destruct H as [H|(-> & Hin & Hedge)]; [left; left; exact H|].
                 apply elem_of_app in Hin. destruct Hin as [Hin|Hin].
                 --- left. right. tauto.
                 --- apply list_elem_of_singleton in Hin. right. tauto.
           ++ apply returns_ret. split; [exact Hs2|].
              intros x' y' H. apply Hk2.
              destruct H as [H|(-> & Hin & Hedge)]; [left; exact H|].
              apply elem_of_app in Hin. destruct Hin as [Hin|Hin].
              ** right. tauto.
              ** apply list_elem_of_singleton in Hin. subst x'. exfalso.
                 rewrite !orb_false_iff in E. destruct E as [[[E1 E2] E3] E4].
                 apply Z.eqb_neq in E1, E2, E3, E4.
                 unfold on_edge in Hedge. lia.
      * intros t' [Hs' Hk']. split; [exact Hs'|].
        intros x' y' (Hin & Hx' & Hedge). apply Hk'.
        apply elem_of_app in Hin. destruct Hin as [Hin|Hin]; [left; tauto|].
        apply list_elem_of_singleton in Hin. right.
        split; [exact Hin|]. split; [apply elem_of_seqZ; lia | exact Hedge].
  - intros t' [Hs' Hk']. split; [exact Hs'|].
    intros x y Hx Hy Hedge. apply Hk'.
    split; [apply elem_of_seqZ; lia|]. split; assumption.
Qed.

Lemma generateBSP_bordered (fuel : nat) (c : GenerationConfig) :
  let ms := or_default (minRoomSize (parameters c)) 4 in
  1 <= ms -> or_default (corridorWidth (parameters c)) 1 = 1 ->
  ms + 2 <= width c < 2 ^ 32 -> ms + 2 <= height c < 2 ^ 32 ->
  enough_fuel c fuel ->
  succeeds (generateBSP fuel c)
    (fun t => shaped (width c) (height c) t /\
              edged "difficult" (width c) (height c) t).
Proof.
  intros ms Hms Hcw Hw Hh Hfuel. unfold generateBSP. cbv zeta.
  fold ms. rewrite Hcw.
  set (w := width c) in *. set (h := height c) in *.
  destruct (new_grid_shaped w h "empty") as (t0 & E0 & Hs0 & _); try lia.
  apply succeeds_bind with (P := fun t => t = t0).
  { apply returns_succeeds;
      [apply returns_lift with (a := t0); [exact E0|reflexivity]
      |apply completes_lift, new_grid_done]. }
  intros ? ->.
  apply succeeds_bind with
    (P := fun t => shaped w h t /\ edged "difficult" w h t).
  { apply returns_succeeds; [apply border_pass, Hs0|].
    unfold for_lt. completes_all. }
  intros t1 [Hs1 He1].
  eapply succeeds_bind.
  { apply (generateRoomsBSP_within fuel 1 1 (w - 2) (h - 2) ms); try lia.
    exact Hfuel. }
  intros rooms Hrooms. cbv beta.
  apply succeeds_bind with
    (P := fun t => shaped w h t /\ edged "difficult" w h t).
  { apply returns_succeeds.
    - apply returns_forEach_inv with (Pa := room_within 1 1 (w - 2) (h - 2));
        [split; assumption | exact Hrooms |].
      intros room t Hroom [Hs He]. apply createRoom_edged; assumption.
    - apply completes_forEach. intros. apply createRoom_completes. }
  intros t2 [Hs2 He2].
  apply succeeds_bind with
    (P := fun t => shaped w h t /\ edged "difficult" w h t).
  { apply returns_succeeds; [|apply connectRooms_completes].
    apply connectRooms_edged; try assumption; try reflexivity; lia. }
  intros t3 [Hs3 He3].
  apply returns_succeeds; [|apply addBSPFeatures_completes].
  apply addBSPFeatures_edged; try assumption; lia.
Qed.

(** The border invariant of the partition layout with corridors of the
    default width: for a non-negative seed and a grid that leaves room for
    a minimum room inside the border ring, [generate()] returns a grid
    whose edge cells are all ['difficult']. *)
Lemma bsp_default_border (c : GenerationConfig) (fuel : nat) :
  algorithm c = "bsp" -> 0 <= seed c ->
  1 <= or_default (minRoomSize (parameters c)) 4 ->
  or_default (corridorWidth (parameters c)) 1 = 1 ->
  or_default (minRoomSize (parameters c)) 4 + 2 <= width c < 2 ^ 32 ->
  or_default (minRoomSize (parameters c)) 4 + 2 <= height c < 2 ^ 32 ->
  enough_fuel c fuel ->
  exists terrain g',
    generate fuel (new_TerrainGenerator c) = Ok (terrain, g') /\
    forall x y, 0 <= x < width c -> 0 <= y < height c ->
      on_edge (width c) (height c) x y ->
      cell_at terrain x y = Some "difficult" /\
      obstructing (cell_at terrain x y) = true.
Proof.
  intros Halg Hseed Hms Hcw Hw Hh Hfuel.
  pose proof (generateBSP_bordered fuel c Hms Hcw Hw Hh Hfuel) as H.
  destruct (H (Rng.seededRandom (seed c))) as (terrain & s' & E & _ & _ & He).
  { apply seededRandom_in_range, Hseed. }
  exists terrain, (mkGenerator c s'). split.
  - unfold generate, generate_body, new_TerrainGenerator; cbn [config stream].
    rewrite Halg. cbn [String.eqb Ascii.eqb Bool.eqb]. rewrite E. reflexivity.
  - intros x y Hx Hy Hedge. rewrite (He x y Hx Hy Hedge).
    split; reflexivity.
Qed.

(** The 25 by 25 scenario of the specification keeps its border with
    [corridorWidth: 1]. *)
Example bsp_25x25_default_border :
  let c := mkConfig 25 25 12345 "dungeon" "bsp"
             (mkParameters (Some 4) (Some 8) (Some 1) None None None None None None) in
  exists terrain g',
    generate 50 (new_TerrainGenerator c) = Ok (terrain, g') /\
    forall x y, 0 <= x < 25 -> 0 <= y < 25 -> on_edge 25 25 x y ->
      cell_at terrain x y = Some "difficult" /\
      obstructing (cell_at terrain x y) = true.
Proof.
  cbv zeta.
  apply (bsp_default_border
           (mkConfig 25 25 12345 "dungeon" "bsp"
              (mkParameters (Some 4) (Some 8) (Some 1)
                 None None None None None None)) 50);
    cbn; unfold enough_fuel; cbn; try reflexivity; lia.
Qed.

(** ** The codec, continued: what [compressMap] emits *)

Lemma no_repeat_snoc (l : list cell) (a b : cell) :
  no_repeat (l ++ [a; b]) = no_repeat (l ++ [a]) && negb (cell_eqb a b).
Proof.
  induction l as [|c l IH].
  - cbn. rewrite andb_true_r. reflexivity.
  - destruct l as [|d l].
    + cbn. rewrite !andb_true_r. reflexivity.
    + change (no_repeat ((c :: d :: l) ++ [a; b]))
        with (negb (cell_eqb c d) && no_repeat ((d :: l) ++ [a; b])).
      change (no_repeat ((c :: d :: l) ++ [a]))
        with (negb (cell_eqb c d) && no_repeat ((d :: l) ++ [a])).
      rewrite IH, andb_assoc. reflexivity.
Qed.

Lemma sumCounts_from (segs : list MapCompression.RLESegment) (a : option Z) :
  fold_left (fun sum seg => nan_add sum (MapCompression.count seg)) segs a
  = nan_add a (MapCompression.sumCounts segs).
Proof.
  unfold MapCompression.sumCounts.
  revert a. induction segs as [|seg segs IH] using rev_ind; intros a.
  - cbn. destruct a; cbn; [f_equal; lia | reflexivity].
  - rewrite !fold_left_app. cbn. rewrite IH.
    destruct a as [a|], (fold_left _ segs (Some 0)) as [b|],
      (MapCompression.count seg) as [c|]; cbn; try reflexivity.
    f_equal. lia.
Qed.

Lemma sumCounts_snoc (segs : list MapCompression.RLESegment) (t : cell) (n : Z) :
  MapCompression.sumCounts (segs ++ [MapCompression.mkSegment t (Some n)])
  = nan_add (MapCompression.sumCounts segs) (Some n).
Proof. unfold MapCompression.sumCounts. rewrite fold_left_app. reflexivity. Qed.

(** The state of the scan after the cells [1 .. n], continued: the
    counts are positive and sum to [n + 1], and a segment is only pushed
    when the terrain changes. *)
Lemma scan_canonical (row : jsarray) (n : nat) :
  forall segs cur count,
    fold_left (MapCompression.scanStep row) (seqZ 1 (Z.of_nat n))
              ([], arr_get row 0, 1) = (segs, cur, count) ->
    canonical_row (segs ++ [MapCompression.mkSegment cur (Some count)]) = true /\
    MapCompression.sumCounts (segs ++ [MapCompression.mkSegment cur (Some count)])
    = Some (Z.of_nat n + 1).
Proof.
  unfold canonical_row.
  induction n as [|n IH]; intros segs cur count.
  - cbn. intros [= <- <- <-]. split; reflexivity.
  - rewrite seqZ_S, fold_left_app.
    destruct (fold_left (MapCompression.scanStep row) (seqZ 1 (Z.of_nat n))
                ([], arr_get row 0, 1)) as [[segs0 cur0] count0] eqn:E0.
    destruct (IH segs0 cur0 count0 eq_refl) as (Hcan & Hsum).
    apply andb_true_iff in Hcan. destruct Hcan as [Hpos Hrep].
    rewrite forallb_app in Hpos. apply andb_true_iff in Hpos.
    destruct Hpos as [Hpos Hc0]. cbn in Hc0. rewrite andb_true_r in Hc0.
    rewrite fmap_app in Hrep. cbn [fmap list_fmap MapCompression.terrain] in Hrep.
    cbn [fold_left MapCompression.scanStep].
    destruct (cell_eqb (arr_get row (1 + Z.of_nat n)) cur0) eqn:Eq.
    + intros [= <- <- <-]. split.
      * rewrite forallb_app, Hpos, fmap_app. cbn.
        replace (1 <=? count0 + 1) with true by (symmetry; apply Z.leb_le; lia).
        exact Hrep.
      * rewrite sumCounts_snoc in Hsum. rewrite sumCounts_snoc.
        destruct (MapCompression.sumCounts segs0) as [a|]; cbn in *; [|discriminate].
        f_equal. injection Hsum. lia.
    + intros [= <- <- <-]. split.
      * rewrite !forallb_app, Hpos. cbn. rewrite Hc0. cbn.
        rewrite !fmap_app. cbn. rewrite <- app_assoc. cbn.
        rewrite no_repeat_snoc, Hrep. cbn.
        destruct (cell_eqb cur0 (arr_get row (1 + Z.of_nat n))) eqn:Eq'; [|reflexivity].
        apply cell_eqb_eq in Eq'. rewrite <- Eq' in Eq.
        assert (cell_eqb cur0 cur0 = true) by (apply cell_eqb_eq; reflexivity).
        congruence.
      * rewrite sumCounts_snoc, Hsum. cbn. f_equal. lia.
Qed.

Lemma compressRow_canonical (w : Z) (row : jsarray) :
  1 <= w ->
  canonical_row (MapCompression.compressRow w row) = true /\
  MapCompression.sumCounts (MapCompression.compressRow w row) = Some w.
Proof.
  intros Hw. unfold MapCompression.compressRow.
  pose proof (scan_canonical row (Z.to_nat (w - 1))) as H.
  rewrite Z2Nat.id in H by lia.
  destruct (fold_left (MapCompression.scanStep row) (seqZ 1 (w - 1))
              ([], arr_get row 0, 1)) as [[segs cur] count].
  destruct (H segs cur count eq_refl) as (Hcan & Hsum).
  split; [exact Hcan|]. rewrite Hsum. f_equal. lia.
Qed.

(** Pushing cells onto an array: the length grows by their number and
    the new elements are the cells pushed. *)
Lemma push_all_spec (l : list cell) (r : jsarray) :
  0 <= len r -> len r + Z.of_nat (length l) < 2 ^ 32 ->
  len (push_all l r) = len r + Z.of_nat (length l) /\
  forall x, arr_get (push_all l r) x
            = if decide (len r <= x < len r + Z.of_nat (length l))
              then mjoin (l !! Z.to_nat (x - len r)) else arr_get r x.
Proof.
  revert r. induction l as [|c l IH]; intros r H0 Hlt.
  - cbn. split; [lia|]. intros x. destruct (decide _); [lia | reflexivity].
  - cbn [push_all fold_left length] in *.
    assert (Hlen : len (arr_push r c) = len r + 1).
    { unfold arr_push, arr_set; cbn.
      replace (0 <=? len r) with true by (symmetry; apply Z.leb_le; lia).
      replace (len r <? 2 ^ 32 - 1) with true by (symmetry; apply Z.ltb_lt; lia).
      rewrite Z.leb_refl. reflexivity. }
    destruct (IH (arr_push r c)) as [Hl Hg]; [lia | lia |].
    fold (push_all l (arr_push r c)) in *.
    split; [lia|]. intros x. rewrite Hg, Hlen.
    destruct (decide (len r + 1 <= x < len r + 1 + Z.of_nat (length l))).
    + rewrite decide_True by lia.
      replace (Z.to_nat (x - len r)) with (S (Z.to_nat (x - (len r + 1)))) by lia.
      reflexivity.
    + unfold arr_push. rewrite arr_get_set.
      destruct (decide (x = len r)) as [->|].
      * rewrite decide_True by lia. rewrite Z.sub_diag. reflexivity.
      * rewrite decide_False by lia. reflexivity.
Qed.

Lemma push_all_empty (l : list cell) :
  Z.of_nat (length l) < 2 ^ 32 ->
  len (push_all l arr_empty) = Z.of_nat (length l) /\
  forall x, 0 <= x < Z.of_nat (length l) ->
    Some (arr_get (push_all l arr_empty) x) = l !! Z.to_nat x.
Proof.
  intros Hl. destruct (push_all_spec l arr_empty) as [Hlen Hget]; cbn; [lia | lia |].
  cbn in Hlen, Hget. split; [exact Hlen|]. intros x Hx.
  rewrite Hget, decide_True by lia. rewrite Z.sub_0_r.
  destruct (lookup_lt_is_Some_2 l (Z.to_nat x)) as [c Hc]; [lia|].
  rewrite Hc. reflexivity.
Qed.

(** Expanding the segments of a row gives back its first [w] cells. *)
Lemma expand_compressRow_cells (w : Z) (row : jsarray) :
  1 <= w < 2 ^ 32 ->
  len (MapCompression.expandSegments (MapCompression.compressRow w row)) = w /\
  forall x, 0 <= x < w ->
    arr_get (MapCompression.expandSegments (MapCompression.compressRow w row)) x
    = arr_get row x.
Proof.
  intros Hw. unfold MapCompression.expandSegments. rewrite expandSegments_from.
  destruct (compressRow_spec w row) as [Hexp _]; [lia|]. rewrite Hexp.
  assert (Hlen : Z.of_nat (length (arr_get row <$> seqZ 0 w)) = w).
  { rewrite length_fmap, length_seqZ. lia. }
  destruct (push_all_empty (arr_get row <$> seqZ 0 w)) as [Hl Hg]; [lia|].
  split; [lia|]. intros x Hx.
  specialize (Hg x). rewrite Hlen in Hg. specialize (Hg Hx).
  rewrite list_lookup_fmap in Hg.
  rewrite (lookup_seqZ_lt 0 w (Z.to_nat x)) in Hg by lia.
  cbn in Hg. injection Hg as Hg. rewrite Hg. f_equal. lia.
Qed.

Lemma compressMap_row (g : Grid) (seed : Z) (theme : string) (i : nat)
    (row : jsarray) :
  g !! i = Some row ->
  MapCompression.rleData (MapCompression.compressMap g seed theme) !! i
  = Some (MapCompression.mkRow
            (MapCompression.compressRow
               (match g with r :: _ => len r | [] => 0 end) row)
            (Z.of_nat i)).
Proof.
  intros Hrow. unfold MapCompression.compressMap; cbn [MapCompression.rleData].
  rewrite list_lookup_imap, Hrow. reflexivity.
Qed.

(** X1: the run-length rows [compressMap] emits lose nothing.  For every
    grid whose first row has [w >= 1] cells, the data has one row per grid
    row, numbered from 0, and expanding the segments of row [i] with the
    loops of [decompressMap] gives an array of length [w] whose cells are
    the first [w] cells of [terrainLayer[i]]. *)
Theorem compressMap_rows_expand_to_the_grid (g : Grid) (seed : Z)
    (theme : string) (w : Z)
    (Hwidth : MapCompression.width
                (MapCompression.dimensions
                   (MapCompression.compressMap g seed theme)) = Some w)
    (Hw : 1 <= w < 2 ^ 32) :
  let c := MapCompression.compressMap g seed theme in
  MapCompression.height (MapCompression.dimensions c) = Some (height_of g) /\
  length (MapCompression.rleData c) = length g /\
  forall (i : nat) (row : jsarray), g !! i = Some row ->
    exists r,
      MapCompression.rleData c !! i = Some r /\
      MapCompression.y r = Z.of_nat i /\
      len (MapCompression.expandSegments (MapCompression.segments r)) = w /\
      forall x, 0 <= x < w ->
        arr_get (MapCompression.expandSegments (MapCompression.segments r)) x
        = arr_get row x.
Proof.
  intros c. subst c. split; [reflexivity|]. split.
  { unfold MapCompression.compressMap; cbn. apply length_imap. }
  intros i row Hrow. eexists. split; [apply compressMap_row, Hrow|].
  cbn [MapCompression.y MapCompression.segments]. split; [reflexivity|].
  cbn in Hwidth. injection Hwidth as ->.
  apply expand_compressRow_cells, Hw.
Qed.

Lemma compressMap_rows_expand_to_the_grid_witness :
  let g := grid_of_lists sample_3x2 in
  let c := MapCompression.compressMap g 1 "dungeon" in
  MapCompression.height (MapCompression.dimensions c) = Some (height_of g) /\
  length (MapCompression.rleData c) = length g /\
  forall (i : nat) (row : jsarray), g !! i = Some row ->
    exists r,
      MapCompression.rleData c !! i = Some r /\
      MapCompression.y r = Z.of_nat i /\
      len (MapCompression.expandSegments (MapCompression.segments r)) = 3 /\
      forall x, 0 <= x < 3 ->
        arr_get (MapCompression.expandSegments (MapCompression.segments r)) x
        = arr_get row x.
Proof.
  apply (compressMap_rows_expand_to_the_grid (grid_of_lists sample_3x2) 1
           "dungeon" 3); [reflexivity | lia].
Defined.

(** X2: the rows [compressMap] emits are in canonical form.  In every
    row each count is a number and at least 1, the counts sum to the
    width, and two consecutive segments never hold the same terrain: the
    runs are maximal. *)
Theorem compressMap_rows_are_canonical (g : Grid) (seed : Z) (theme : string)
    (w : Z)
    (Hwidth : MapCompression.width
                (MapCompression.dimensions
                   (MapCompression.compressMap g seed theme)) = Some w)
    (Hw : 1 <= w) :
  Forall (fun r =>
            canonical_row (MapCompression.segments r) = true /\
            MapCompression.sumCounts (MapCompression.segments r) = Some w)
         (MapCompression.rleData (MapCompression.compressMap g seed theme)).
Proof.
  cbn in Hwidth. injection Hwidth as Hwidth.
  unfold MapCompression.compressMap; cbn [MapCompression.rleData].
  rewrite Hwidth. apply Forall_lookup_2. intros i r Hr.
  rewrite list_lookup_imap in Hr.
  destruct (g !! i) as [row|]; [|discriminate]. injection Hr as <-.
  cbn [MapCompression.segments]. apply compressRow_canonical, Hw.
Qed.

Lemma compressMap_rows_are_canonical_witness :
  Forall (fun r =>
            canonical_row (MapCompression.segments r) = true /\
            MapCompression.sumCounts (MapCompression.segments r) = Some 3)
         (MapCompression.rleData
            (MapCompression.compressMap (grid_of_lists sample_3x2) 1 "dungeon")).
Proof.
  apply (compressMap_rows_are_canonical (grid_of_lists sample_3x2) 1 "dungeon" 3);
    [reflexivity | lia].
Defined.

(** *** The statistics *)

Lemma countStep_scanStep (row : jsarray) (l : list Z) :
  forall est segs cur n,
    fold_left (MapCompression.countStep row) l (est, cur, n)
    = let '(segs', cur', n') :=
        fold_left (MapCompression.scanStep row) l (segs, cur, n) in
      (est + Z.of_nat (length segs') - Z.of_nat (length segs), cur', n').
Proof.
  induction l as [|x l IH]; intros est segs cur n.
  - cbn. f_equal. f_equal. lia.
  - cbn [fold_left MapCompression.countStep MapCompression.scanStep].
    destruct (cell_eqb (arr_get row x) cur).
    + apply IH.
    + rewrite (IH (est + 1) (segs ++ [MapCompression.mkSegment cur (Some n)])).
      destruct (fold_left _ l _) as [[segs' cur'] n'].
      rewrite length_app. cbn. f_equal. f_equal. lia.
Qed.

Lemma stats_row (w : Z) (row : jsarray) (est : Z) :
  (let '(est', _, _) :=
     fold_left (MapCompression.countStep row) (seqZ 1 (w - 1))
               (est, arr_get row 0, 1) in est' + 1)
  = est + Z.of_nat (length (MapCompression.compressRow w row)).
Proof.
  rewrite (countStep_scanStep row _ est []).
  unfold MapCompression.compressRow.
  destruct (fold_left (MapCompression.scanStep row) _ _) as [[segs cur] n].
  rewrite length_app. cbn. lia.
Qed.

Lemma stats_fold (w : Z) (g : Grid) (a : Z) :
  fold_left
    (fun est row =>
       let '(est', _, _) :=
         fold_left (MapCompression.countStep row) (seqZ 1 (w - 1))
                   (est, arr_get row 0, 1) in est' + 1) g a
  = a + Z.of_nat (sum_list_with
                    (fun row => length (MapCompression.compressRow w row)) g).
Proof.
  revert a. induction g as [|row g' IH]; intros a; [cbn; lia|].
  cbn [fold_left sum_list_with]. rewrite stats_row, IH. lia.
Qed.

Lemma sum_imap_rows (F : jsarray -> list MapCompression.RLESegment) (g : Grid) :
  forall k : nat,
    sum_list_with (fun row => length (MapCompression.segments row))
      (imap (fun j row => MapCompression.mkRow (F row) (Z.of_nat (k + j))) g)
    = sum_list_with (fun row => length (F row)) g.
Proof.
  induction g as [|row g IH]; intros k; [reflexivity|].
  cbn. f_equal. rewrite <- (IH (S k)). f_equal. apply imap_ext.
  intros j x _. cbn. f_equal. f_equal. lia.
Qed.

(** X3: [getCompressionStats] agrees with [compressMap] on every grid:
    its estimate is the number of segments [compressMap] emits, its
    original size is height times width, and its ratio is the
    [compressionRatio] stored in the metadata. *)
Theorem getCompressionStats_agrees_with_compressMap (g : Grid) (seed : Z)
    (theme : string) :
  let c := MapCompression.compressMap g seed theme in
  let stats := MapCompression.getCompressionStats g in
  MapCompression.estimatedCompressedSize stats = totalSegments c /\
  Some (MapCompression.originalSize stats)
  = nan_mul (MapCompression.height (MapCompression.dimensions c))
            (MapCompression.width (MapCompression.dimensions c)) /\
  MapCompression.compressionRatio' stats
  = MapCompression.compressionRatio (MapCompression.metadata c).
Proof.
  cbv zeta.
  assert (H : MapCompression.estimatedCompressedSize
                (MapCompression.getCompressionStats g)
              = totalSegments (MapCompression.compressMap g seed theme)).
  { unfold totalSegments, MapCompression.compressedSize,
      MapCompression.getCompressionStats, MapCompression.compressMap.
    cbn [MapCompression.estimatedCompressedSize MapCompression.rleData].
    rewrite compressedSize_from.
    rewrite (sum_imap_rows _ g 0). apply stats_fold. }
  split; [exact H|]. split; [reflexivity|].
  unfold MapCompression.getCompressionStats at 1.
  cbn [MapCompression.compressionRatio'].
  change (fold_left _ g 0)
    with (MapCompression.estimatedCompressedSize
            (MapCompression.getCompressionStats g)).
  rewrite H. reflexivity.
Qed.

(** ** The compact string *)

Lemma append_cons (ch : ascii) (a b : string) :
  (String ch a ++ b)%string = String ch (a ++ b)%string.
Proof. reflexivity. Qed.

Lemma append_nil (b : string) : ("" ++ b)%string = b.
Proof. reflexivity. Qed.

Lemma append_assoc' (a b c : string) :
  ((a ++ b) ++ c)%string = (a ++ (b ++ c))%string.
Proof.
  induction a as [|ch a IH]; rewrite ?append_cons, ?append_nil;
    [reflexivity | rewrite IH; reflexivity].
Qed.

Lemma free_of_append (sep : ascii) (a b : string) :
  free_of sep (a ++ b)%string = free_of sep a && free_of sep b.
Proof.
  induction a as [|ch a IH]; rewrite ?append_cons, ?append_nil; [reflexivity|].
  cbn [free_of]. rewrite IH, andb_assoc. reflexivity.
Qed.

Lemma split_free (sep : ascii) (s : string) :
  free_of sep s = true -> split sep s = [s].
Proof.
  induction s as [|ch s IH]; simpl; [reflexivity|].
  intros H. apply andb_true_iff in H. destruct H as [Hch Hs].
  apply negb_true_iff in Hch. rewrite Hch, (IH Hs). reflexivity.
Qed.

Lemma split_append (sep : ascii) (a b : string) :
  free_of sep a = true ->
  split sep (a ++ String sep b)%string = a :: split sep b.
Proof.
  induction a as [|ch a IH]; rewrite ?append_cons, ?append_nil; cbn [split free_of].
  - intros _. rewrite Ascii.eqb_refl. reflexivity.
  - intros H. apply andb_true_iff in H. destruct H as [Hch Ha].
    apply negb_true_iff in Hch. rewrite Hch, (IH Ha). reflexivity.
Qed.

Lemma split_join (sep : ascii) (l : list string) :
  l <> [] -> Forall (fun s => free_of sep s = true) l ->
  split sep (join (String sep "") l) = l.
Proof.
  induction l as [|s l IH]; [congruence|]. intros _ Hall.
  apply Forall_cons in Hall. destruct Hall as [Hs Hl].
  destruct l as [|s' l].
  - cbn. apply split_free, Hs.
  - change (join (String sep "") (s :: s' :: l))
      with (s ++ String sep (join (String sep "") (s' :: l)))%string.
    rewrite split_append by exact Hs. f_equal. apply IH; [congruence | exact Hl].
Qed.

(** *** Decimal numerals *)

Lemma read_digits_numeral (d : Decimal.uint) (acc : Z) (seen : bool) :
  read_digits (NilEmpty.string_of_uint d) acc seen
  = (uint_value d acc, seen || negb (is_nil d), "").
Proof.
  revert acc seen.
  induction d; intros acc seen; cbn [NilEmpty.string_of_uint uint_value];
    [cbn; rewrite orb_false_r; reflexivity | ..];
    cbn [read_digits]; change (is_digit _) with true; cbn iota;
    rewrite IHd; cbn [is_nil negb]; rewrite orb_true_r;
    destruct (is_nil d); reflexivity.
Qed.

Lemma uint_value_acc (d : Decimal.uint) (acc : positive) :
  uint_value d (Z.pos acc) = Z.pos (Pos.of_uint_acc d acc).
Proof.
  revert acc. induction d; intros acc; cbn [uint_value Pos.of_uint_acc];
    [reflexivity | ..];
    match goal with
    | |- uint_value _ ?v = _ =>
        match goal with
        | |- _ = Z.pos (Pos.of_uint_acc _ ?p) =>
            replace v with (Z.pos p) by lia; apply IHd
        end
    end.
Qed.

Lemma uint_value_0 (d : Decimal.uint) :
  uint_value d 0 = Z.of_N (Pos.of_uint d).
Proof.
  induction d; cbn [uint_value Pos.of_uint]; [reflexivity | ..];
    try (rewrite <- IHd; reflexivity);
    match goal with
    | |- uint_value _ ?v = Z.of_N (N.pos (Pos.of_uint_acc _ ?p)) =>
        change v with (Z.pos p); apply uint_value_acc
    end.
Qed.

Lemma to_uint_value (p : positive) :
  uint_value (Pos.to_uint p) 0 = Z.pos p /\ is_nil (Pos.to_uint p) = false.
Proof.
  rewrite uint_value_0.
  pose proof (DecimalN.Unsigned.of_to (N.pos p)) as H.
  unfold N.of_uint, N.to_uint in H. rewrite H. split; [reflexivity|].
  destruct (Pos.to_uint p) eqn:E; try reflexivity.
  discriminate H.
Qed.

Lemma parse_numeral (d : Decimal.uint) :
  is_nil d = false ->
  skip_spaces (NilEmpty.string_of_uint d) = NilEmpty.string_of_uint d /\
  read_sign (NilEmpty.string_of_uint d) = (1, NilEmpty.string_of_uint d) /\
  NilEmpty.string_of_uint d <> "".
Proof. destruct d; intros H; try discriminate H; repeat split; discriminate. Qed.

Lemma show_number_parses (z : Z) :
  parseInt (Some (MapCompression.show_number (Some z))) = Some z /\
  Number (MapCompression.show_number (Some z)) = Some z.
Proof.
  unfold MapCompression.show_number, parseInt, Number.
  destruct z as [|p|p]; cbn [Z.to_int NilZero.string_of_int].
  - split; reflexivity.
  - destruct (to_uint_value p) as [Hv Hn].
    unfold NilZero.string_of_uint.
    replace (match Pos.to_uint p with Nil => "0" | _ => NilEmpty.string_of_uint (Pos.to_uint p) end)
      with (NilEmpty.string_of_uint (Pos.to_uint p))
      by (destruct (Pos.to_uint p); try reflexivity; discriminate Hn).
    destruct (parse_numeral _ Hn) as (Hsk & Hsg & Hne).
    rewrite Hsk, Hsg, read_digits_numeral, Hv, Hn. cbn [orb negb].
    rewrite Z.mul_1_l. split; [reflexivity|].
    destruct (NilEmpty.string_of_uint (Pos.to_uint p)); [congruence|].
    reflexivity.
  - destruct (to_uint_value p) as [Hv Hn].
    unfold NilZero.string_of_uint.
    replace (match Pos.to_uint p with Nil => "0" | _ => NilEmpty.string_of_uint (Pos.to_uint p) end)
      with (NilEmpty.string_of_uint (Pos.to_uint p))
      by (destruct (Pos.to_uint p); try reflexivity; discriminate Hn).
    cbn [skip_spaces]. change (is_space "-") with false. cbn iota.
    cbn [read_sign]. rewrite read_digits_numeral, Hv, Hn. cbn [orb negb].
    split; reflexivity.
Qed.

Lemma numeral_free (sep : ascii) (d : Decimal.uint) :
  is_digit sep = false ->
  free_of sep (NilEmpty.string_of_uint d) = true.
Proof.
  intros Hsep. induction d; cbn [NilEmpty.string_of_uint free_of];
    [reflexivity | ..]; rewrite IHd, andb_true_r; apply negb_true_iff;
    apply Ascii.eqb_neq; intros <-; discriminate Hsep.
Qed.

Lemma nilzero_free (sep : ascii) (d : Decimal.uint) :
  is_digit sep = false ->
  free_of sep (NilZero.string_of_uint d) = true.
Proof.
  intros Hsep. destruct d; try (apply numeral_free, Hsep).
  change (negb (Ascii.eqb "0" sep) && true = true).
  rewrite andb_true_r. apply negb_true_iff, Ascii.eqb_neq.
  intros <-. discriminate Hsep.
Qed.

Lemma show_number_free (sep : ascii) (z : Z) :
  is_digit sep = false -> sep <> "-"%char ->
  free_of sep (MapCompression.show_number (Some z)) = true.
Proof.
  intros Hsep Hdash. unfold MapCompression.show_number.
  destruct z as [|p|p]; cbn [Z.to_int NilZero.string_of_int];
    try (apply nilzero_free, Hsep).
  cbn [free_of]. apply andb_true_iff. split.
  - apply negb_true_iff, Ascii.eqb_neq. congruence.
  - apply nilzero_free, Hsep.
Qed.

Lemma free_of_join (sep c : ascii) (l : list string) :
  c <> sep -> Forall (fun s => free_of sep s = true) l ->
  free_of sep (join (String c "") l) = true.
Proof.
  intros Hc. induction l as [|s l IH]; intros Hall; [reflexivity|].
  apply Forall_cons in Hall. destruct Hall as [Hs Hl].
  destruct l as [|s' l]; [exact Hs|].
  change (join (String c "") (s :: s' :: l))
    with (s ++ String c (join (String c "") (s' :: l)))%string.
  rewrite free_of_append, Hs. cbn [free_of andb].
  rewrite (IH Hl), andb_true_r. apply negb_true_iff, Ascii.eqb_neq, Hc.
Qed.

Lemma plain_id_free (id : string) :
  plain_id id = true ->
  free_of "|" id = true /\ free_of "," id = true /\ free_of ":" id = true.
Proof.
  unfold plain_id. intros H.
  apply andb_true_iff in H. destruct H as [H H3].
  apply andb_true_iff in H. destruct H as [H1 H2]. auto.
Qed.

Lemma show_segment_free (sep : ascii) (seg : MapCompression.RLESegment) :
  printable_segment seg = true -> sep = "|"%char \/ sep = ","%char ->
  free_of sep (MapCompression.show_segment seg) = true.
Proof.
  unfold printable_segment, MapCompression.show_segment.
  destruct seg as [[id|] [n|]]; cbn [MapCompression.terrain MapCompression.count];
    try discriminate.
  intros Hid Hsep. destruct (plain_id_free id Hid) as (H1 & H2 & H3).
  cbn [MapCompression.show_string].
  rewrite free_of_append, append_cons, append_nil. cbn [free_of].
  destruct Hsep as [-> | ->].
  - rewrite H1, show_number_free; [reflexivity | reflexivity | discriminate].
  - rewrite H2, show_number_free; [reflexivity | reflexivity | discriminate].
Qed.

Lemma parse_show_segment (seg : MapCompression.RLESegment) :
  printable_segment seg = true ->
  (let fields := split ":" (MapCompression.show_segment seg) in
   MapCompression.mkSegment (fields !! 0%nat) (parseInt (fields !! 1%nat)))
  = seg.
Proof.
  unfold printable_segment, MapCompression.show_segment.
  destruct seg as [[id|] [n|]]; cbn [MapCompression.terrain MapCompression.count];
    try discriminate.
  intros Hid. destruct (plain_id_free id Hid) as (H1 & H2 & H3).
  cbn [MapCompression.show_string]. cbv zeta.
  rewrite append_cons, append_nil, split_append by exact H3.
  rewrite split_free by (apply show_number_free; [reflexivity | discriminate]).
  cbn [lookup list_lookup]. destruct (show_number_parses n) as [-> _].
  reflexivity.
Qed.

Lemma parseSegments_show (segs : list MapCompression.RLESegment) :
  segs <> [] -> forallb printable_segment segs = true ->
  MapCompression.parseSegments (join "," (MapCompression.show_segment <$> segs))
  = segs.
Proof.
  intros Hne Hall. unfold MapCompression.parseSegments.
  rewrite forallb_forall in Hall.
  rewrite split_join.
  - rewrite <- list_fmap_compose.
    rewrite <- (list_fmap_id segs) at 2. apply list_fmap_ext.
    intros i seg Hseg. cbn. apply parse_show_segment, Hall.
    apply list_elem_of_In, list_elem_of_lookup. eauto.
  - destruct segs; [congruence | discriminate].
  - apply Forall_fmap, Forall_forall. intros seg Hseg. cbn.
    apply show_segment_free; [|right; reflexivity].
    apply Hall, list_elem_of_In, Hseg.
Qed.

Lemma show_row_free (row : MapCompression.RLERow) :
  forallb printable_segment (MapCompression.segments row) = true ->
  free_of "|" (show_row row) = true.
Proof.
  intros Hall. unfold show_row. apply free_of_join; [discriminate|].
  rewrite forallb_forall in Hall.
  apply Forall_fmap, Forall_forall. intros seg Hseg. cbn.
  apply show_segment_free; [|left; reflexivity].
  apply Hall, list_elem_of_In, Hseg.
Qed.

(** The fields of the string [toCompactString] builds. *)
Lemma toCompactString_fields (c : MapCompression.CompressedMapData) :
  MapCompression.toCompactString c
  = ((MapCompression.show_number (MapCompression.width (MapCompression.dimensions c))
      ++ String "x"
           (MapCompression.show_number
              (MapCompression.height (MapCompression.dimensions c))))
     ++ String "|"
       (MapCompression.show_number (MapCompression.seed (MapCompression.metadata c))
        ++ String "|"
          (MapCompression.show_string (MapCompression.theme (MapCompression.metadata c))
           ++ String "|"
             (MapCompression.show_string
                (MapCompression.version (MapCompression.metadata c))
              ++ String "|"
                   (join "|" (show_row <$> MapCompression.rleData c))))))%string.
Proof.
  unfold MapCompression.toCompactString. cbv zeta.
  rewrite !append_assoc', !append_cons, !append_nil. reflexivity.
Qed.

(** Reading back what [toCompactString] wrote, for data whose fields
    are printable and whose rows are numbered from 0. *)
Lemma fromCompactString_toCompactString (w h seed : Z) (theme version : string)
    (rle : list MapCompression.RLERow) (q : option Q) :
  free_of "|" theme = true -> free_of "|" version = true ->
  rle <> [] ->
  (forall (i : nat) r, rle !! i = Some r ->
     MapCompression.y r = Z.of_nat i /\ MapCompression.segments r <> [] /\
     forallb printable_segment (MapCompression.segments r) = true) ->
  MapCompression.fromCompactString
    (MapCompression.toCompactString
       (MapCompression.mkData (MapCompression.mkDimensions (Some w) (Some h)) rle
          (MapCompression.mkMetadata (Some theme) (Some seed) (Some version) q)))
  = Ok (MapCompression.mkData (MapCompression.mkDimensions (Some w) (Some h)) rle
          (MapCompression.mkMetadata (Some theme) (Some seed) (Some version)
             (MapCompression.ratio (MapCompression.compressedSize rle)
                                   (Some (w * h))))).
Proof.
  intros Hth Hv Hne Hrows.
  set (c := MapCompression.mkData _ _ _).
  assert (Hparts :
    split "|" (MapCompression.toCompactString c)
    = (MapCompression.show_number (Some w) ++ String "x"
         (MapCompression.show_number (Some h)))%string
      :: MapCompression.show_number (Some seed) :: theme :: version
      :: (show_row <$> rle)).
  { rewrite toCompactString_fields. subst c.
    cbn [MapCompression.dimensions MapCompression.metadata MapCompression.rleData
         MapCompression.width MapCompression.height MapCompression.seed
         MapCompression.theme MapCompression.version MapCompression.show_string].
    rewrite split_append.
    2: { rewrite free_of_append. cbn [free_of].
         rewrite !show_number_free; try reflexivity; discriminate. }
    rewrite split_append
      by (apply show_number_free; [reflexivity | discriminate]).
    rewrite split_append by exact Hth.
    rewrite split_append by exact Hv.
    rewrite split_join; [reflexivity | |].
    - destruct rle; [congruence | discriminate].
    - apply Forall_fmap, Forall_forall. intros r Hr. cbn.
      apply list_elem_of_lookup in Hr. destruct Hr as [i Hr].
      apply show_row_free, (Hrows i r Hr). }
  assert (Hrowf : MapCompression.rowFields (MapCompression.toCompactString c)
                  = show_row <$> rle).
  { unfold MapCompression.rowFields. rewrite Hparts. cbn [skipn].
    apply split_join.
    - destruct rle; [congruence | discriminate].
    - apply Forall_fmap, Forall_forall. intros r Hr. cbn.
      apply list_elem_of_lookup in Hr. destruct Hr as [i Hr].
      apply show_row_free, (Hrows i r Hr). }
  unfold MapCompression.fromCompactString, MapCompression.header.
  rewrite Hrowf, Hparts. cbn [firstn lookup list_lookup default from_option Datatypes.id].
  assert (Hdims :
    MapCompression.parseDimensions
      (MapCompression.show_number (Some w) ++ String "x"
         (MapCompression.show_number (Some h)))%string
    = MapCompression.mkDimensions (Some w) (Some h)).
  { unfold MapCompression.parseDimensions.
    rewrite split_append
      by (apply show_number_free; [reflexivity | discriminate]).
    rewrite split_free
      by (apply show_number_free; [reflexivity | discriminate]).
    cbn [fmap list_fmap lookup list_lookup mjoin option_join].
    destruct (show_number_parses w) as [_ ->].
    destruct (show_number_parses h) as [_ ->]. reflexivity. }
  rewrite Hdims. cbn [MapCompression.width MapCompression.height nan_mul].
  destruct (show_number_parses seed) as [-> _].
  assert (Hrle :
    imap (fun y rowStr =>
            MapCompression.mkRow (MapCompression.parseSegments rowStr) (Z.of_nat y))
         (show_row <$> rle) = rle).
  { apply list_eq. intros i. rewrite list_lookup_imap, list_lookup_fmap.
    destruct (rle !! i) as [r|] eqn:Hr; [|reflexivity]. cbn.
    destruct (Hrows i r Hr) as (Hy & Hsegs & Hall).
    unfold show_row. rewrite parseSegments_show by assumption.
    rewrite <- Hy. destruct r; reflexivity. }
  rewrite Hrle. reflexivity.
Qed.

(** Every segment of an encoded row of ids carries one of the ids. *)
Lemma compressRow_printable (l : list string) (w : Z) :
  Z.of_nat (length l) = w -> 1 <= w < 2 ^ 32 ->
  Forall (fun id => plain_id id = true) l ->
  MapCompression.compressRow w (arr_of_list l) <> [] /\
  forallb printable_segment (MapCompression.compressRow w (arr_of_list l)) = true.
Proof.
  intros Hlen Hw Hids. subst w.
  destruct (compressRow_spec (Z.of_nat (length l)) (arr_of_list l))
    as [Hexp Hn]; [lia|].
  destruct (compressRow_canonical (Z.of_nat (length l)) (arr_of_list l))
    as [Hcan _]; [lia|].
  split.
  { destruct (MapCompression.compressRow _ (arr_of_list l));
      [discriminate Hn | discriminate]. }
  rewrite arr_of_list_cells in Hexp by lia.
  apply andb_true_iff in Hcan. destruct Hcan as [Hpos _].
  rewrite forallb_forall in Hpos. apply forallb_forall. intros seg Hseg.
  specialize (Hpos seg Hseg). unfold printable_segment.
  destruct (MapCompression.count seg) as [n|] eqn:Hc; [|discriminate].
  apply Z.leb_le in Hpos.
  assert (Hin : MapCompression.terrain seg ∈ Some <$> l).
  { rewrite <- Hexp. unfold expandCells. apply list_elem_of_bind.
    exists seg. split; [|apply list_elem_of_In, Hseg].
    rewrite Hc. destruct (Z.to_nat n) eqn:En; [lia|]. cbn. left. }
  apply list_elem_of_fmap in Hin. destruct Hin as (id & -> & Hid).
  rewrite Forall_forall in Hids. apply Hids, Hid.
Qed.

(** X4: the compact string is a faithful carrier of what [compressMap]
    builds.  For a non-empty rectangular grid of fewer than 2^32 rows and
    of width at least 1 whose terrain ids contain none of [|], [,] and
    [:], an integer seed of absolute value below 2^53 and a theme without
    [|], parsing the string [toCompactString] writes gives back the very
    [CompressedMapData]: dimensions, rows, seed, theme, version and
    ratio. *)
Theorem compact_string_round_trip (rows : list (list string)) (w seed : Z)
    (theme : string)
    (Hrows : rows <> []) (Hheight : Z.of_nat (length rows) < 2 ^ 32)
    (Hw : 1 <= w < 2 ^ 32) (Hrect : rectangular w rows)
    (Hids : Forall (Forall (fun id => plain_id id = true)) rows)
    (Hseed : - 2 ^ 53 < seed < 2 ^ 53)
    (Htheme : free_of "|" theme = true) :
  let c := MapCompression.compressMap (grid_of_lists rows) seed theme in
  MapCompression.fromCompactString (MapCompression.toCompactString c) = Ok c.
Proof.
  cbv zeta. unfold rectangular in Hrect.
  assert (Hfirst : match grid_of_lists rows with r :: _ => len r | [] => 0 end = w).
  { destruct rows as [|r0 rows']; [congruence|].
    apply Forall_cons in Hrect. destruct Hrect as [Hr0 _].
    cbn. destruct (arr_of_list_spec r0) as [-> _]; lia. }
  unfold MapCompression.compressMap. rewrite Hfirst.
  rewrite fromCompactString_toCompactString.
  - rewrite (Z.mul_comm w). reflexivity.
  - exact Htheme.
  - reflexivity.
  - destruct rows; [congruence | discriminate].
  - intros i r Hr. rewrite list_lookup_imap in Hr.
    unfold grid_of_lists in Hr. rewrite list_lookup_fmap in Hr.
    destruct (rows !! i) as [l|] eqn:Hl; [|discriminate].
    cbn in Hr. injection Hr as <-.
    cbn [MapCompression.y MapCompression.segments].
    split; [reflexivity|].
    apply compressRow_printable; [| exact Hw |].
    + rewrite Forall_forall in Hrect. apply Hrect.
      apply list_elem_of_lookup. eauto.
    + rewrite Forall_forall in Hids. apply Hids.
      apply list_elem_of_lookup. eauto.
Qed.

Lemma compact_string_round_trip_witness :
  let c := MapCompression.compressMap (grid_of_lists sample_3x2) 1 "dungeon" in
  MapCompression.fromCompactString (MapCompression.toCompactString c) = Ok c.
Proof.
  apply (compact_string_round_trip sample_3x2 3 1 "dungeon");
    [discriminate | cbn; lia | lia | repeat constructor | repeat constructor
    | lia | reflexivity].
Defined.

(** The encoding of the empty grid does not survive the string: it has
    no row, and the string read back has one row holding a segment of
    terrain [""] and count [NaN]. *)
Example compact_string_of_empty_grid :
  let c := MapCompression.compressMap [] 5 "dungeon" in
  MapCompression.rleData c = [] /\
  MapCompression.toCompactString c = "0x0|5|dungeon|1.0.0|" /\
  (MapCompression.rleData <$>
     match MapCompression.fromCompactString (MapCompression.toCompactString c) with
     | Ok c' => Some c'
     | _ => None
     end)
  = Some [MapCompression.mkRow [MapCompression.mkSegment (Some "") None] 0].
Proof. repeat split. Qed.

(** ** What a run leaves in the grid *)

Lemma ensures_ret {A} (a : A) (P : A -> Prop) : P a -> ensures (ret a) P.
Proof. intros H s a' s' [= <- _]. exact H. Qed.

Lemma ensures_bind {A B} (c : M A) (k : A -> M B) (P : A -> Prop)
    (R : B -> Prop) :
  ensures c P -> (forall a, P a -> ensures (k a) R) -> ensures (bind c k) R.
Proof.
  intros Hc Hk s b s'. unfold bind.
  destruct (c s) as [[a s0]| |] eqn:E; try discriminate.
  intros H. exact (Hk a (Hc s a s0 E) s0 b s' H).
Qed.

Lemma ensures_lift {A} (r : result A) (P : A -> Prop) :
  (forall a, r = Ok a -> P a) -> ensures (lift r) P.
Proof.
  intros H s a s'. unfold lift. destruct r; try discriminate.
  intros [= <- _]. apply H. reflexivity.
Qed.

Lemma ensures_weaken {A} (c : M A) (P R : A -> Prop) :
  ensures c P -> (forall a, P a -> R a) -> ensures c R.
Proof. intros Hc HPR s a s' E. apply HPR, (Hc s a s' E). Qed.

Lemma ensures_true {A} (c : M A) : ensures c (fun _ => True).
Proof. intros s a s' _. exact I. Qed.

Lemma ensures_forM {S} (I : S -> Prop) (l : list Z) (body : Z -> S -> M S)
    (acc : S) :
  I acc -> (forall i a, I a -> ensures (body i a) I) ->
  ensures (forM l body acc) I.
Proof.
  intros Hacc Hbody. revert acc Hacc.
  induction l as [|i l IH]; intros acc Hacc; cbn [forM].
  - apply ensures_ret, Hacc.
  - apply ensures_bind with (P := I); [apply Hbody, Hacc | exact IH].
Qed.

Lemma ensures_forEach {A S} (I : S -> Prop) (l : list A)
    (body : A -> S -> M S) (acc : S) :
  I acc -> (forall x a, I a -> ensures (body x a) I) ->
  ensures (forEach l body acc) I.
Proof.
  intros Hacc Hbody. revert acc Hacc.
  induction l as [|x l IH]; intros acc Hacc; cbn [forEach].
  - apply ensures_ret, Hacc.
  - apply ensures_bind with (P := I); [apply Hbody, Hacc | exact IH].
Qed.

(** A write changes the cell written and no other. *)
Lemma cell_at_set (t t' : Grid) (x y : Z) (v : cell) :
  set t y x v = Ok t' ->
  forall x' y', cell_at t' x' y'
                = if decide (x' = x /\ y' = y) then v else cell_at t x' y'.
Proof.
  unfold set. destruct (row_at t y) as [r|] eqn:Hr; [|discriminate].
  intros [= <-] x' y'. unfold cell_at, row_at in *.
  destruct (y <? 0) eqn:Ey; [discriminate|].
  destruct (y' <? 0) eqn:Ey'.
  - apply Z.ltb_lt in Ey'. apply Z.ltb_ge in Ey.
    destruct (decide (x' = x /\ y' = y)); [lia|reflexivity].
  - apply Z.ltb_ge in Ey, Ey'.
    destruct (decide (y' = y)) as [->|Hne].
    + rewrite list_lookup_insert_eq by (eapply lookup_lt_Some, Hr).
      rewrite arr_get_set.
      destruct (decide (x' = x)); destruct (decide (x' = x /\ y = y));
        try reflexivity; try tauto.
      rewrite Hr. reflexivity.
    + rewrite list_lookup_insert_ne by lia.
      destruct (decide (x' = x /\ y' = y)); [tauto|reflexivity].
Qed.

Lemma get_cell_at (t : Grid) (x y : Z) (v : cell) :
  get t y x = Ok v -> v = cell_at t x y.
Proof.
  unfold get, cell_at. destruct (row_at t y); [|discriminate].
  intros [= <-]. reflexivity.
Qed.

Lemma set_among (ids : list string) (t : Grid) (x y : Z) (v : cell) :
  cells_among ids t -> value_among ids v ->
  ensures (lift (set t y x v)) (cells_among ids).
Proof.
  intros Ht Hv. apply ensures_lift. intros t' E x' y' id.
  rewrite (cell_at_set t t' x y v E).
  destruct (decide _); [apply Hv | apply Ht].
Qed.

Lemma value_among_lit (ids : list string) (id : string) :
  In id ids -> value_among ids (Some id).
Proof. intros H id' [= <-]. exact H. Qed.

Lemma new_grid_among (ids : list string) (h w : Z) (v : string) :
  In v ids -> ensures (lift (new_grid h w v)) (cells_among ids).
Proof.
  intros Hv. apply ensures_lift. intros t. unfold new_grid.
  destruct (negb (valid_length h)); [discriminate|].
  destruct (h =? 0).
  - intros [= <-] x y id. unfold cell_at, row_at.
    destruct (y <? 0); [discriminate|]. rewrite lookup_nil. discriminate.
  - destruct (negb (valid_length w)); [discriminate|].
    intros [= <-] x y id. unfold cell_at, row_at.
    destruct (y <? 0); [discriminate|].
    destruct (replicate (Z.to_nat h) (arr_fill w v) !! Z.to_nat y) as [r|] eqn:Hr;
      [|discriminate].
    apply lookup_replicate in Hr. destruct Hr as [-> _].
    rewrite arr_get_fill. destruct (decide _); [|discriminate].
    intros [= <-]. exact Hv.
Qed.

Lemma list_at_among (l : list string) (i : Z) : value_among l (list_at l i).
Proof.
  intros id. unfold list_at. destruct (i <? 0); [discriminate|].
  intros H. apply list_elem_of_In. eapply list_elem_of_lookup_2. exact H.
Qed.

Lemma pick_among (l : list string) : ensures (pick l) (value_among l).
Proof.
  intros s v s'. unfold pick, bind, random, ret.
  destruct (Rng.next s) as [r s1]. intros [= <- _]. apply list_at_among.
Qed.

Lemma value_among_incl (l ids : list string) (v : cell) :
  incl l ids -> value_among l v -> value_among ids v.
Proof. intros Hincl Hv id E. apply Hincl, Hv, E. Qed.

Lemma get_among (ids : list string) (t : Grid) (x y : Z) :
  cells_among ids t -> ensures (lift (get t y x)) (value_among ids).
Proof.
  intros Ht. apply ensures_lift. intros v E id ->.
  apply (Ht x y). symmetry. apply get_cell_at, E.
Qed.

Ltac member :=
  first [ assumption
        | solve [cbn; tauto]
        | solve [apply in_or_app; left; cbn; tauto]
        | solve [apply in_or_app; right; assumption] ].

(** One step of a proof that a pass keeps the cells among [ids]. *)
Ltac among_step :=
  lazymatch goal with
  | |- ensures (ret _) _ => apply ensures_ret; assumption
  | |- ensures (lift (new_grid _ _ _)) _ => apply new_grid_among; member
  | |- ensures (lift (set _ _ _ (Some _))) _ =>
      apply set_among; [assumption | apply value_among_lit; member]
  | |- ensures (lift (set _ _ _ _)) _ =>
      apply set_among; [assumption | eassumption]
  | |- ensures (forM _ _ _) _ =>
      apply ensures_forM; [assumption | intros ? ? ?]
  | |- ensures (for_lt _ _ _ _) _ =>
      apply ensures_forM; [assumption | intros ? ? ?]
  | |- ensures (for_le _ _ _ _) _ =>
      apply ensures_forM; [assumption | intros ? ? ?]
  | |- ensures (forEach _ _ _) _ =>
      apply ensures_forEach; [assumption | intros ? ? ?]
  | |- ensures (bind ?c _) ?R =>
      lazymatch type of c with
      | M (list jsarray) => apply ensures_bind with (P := R); [|intros ? ?]
      | _ => eapply ensures_bind; [apply ensures_true | intros ? _]
      end
  | |- ensures (if ?b then _ else _) _ => destruct b
  | |- ensures (match ?p with (_, _) => _ end) _ => destruct p
  | |- context [match ?p with (_, _) => _ end] => is_var p; destruct p
  | _ => progress cbv beta
  end.

Section Among.
Variable ids : list string.

Lemma createRoom_among (t : Grid) (room : Room.t) :
  In "difficult" ids -> In "empty" ids ->
  cells_among ids t -> ensures (createRoom t room) (cells_among ids).
Proof. intros Hd He Ht. unfold createRoom. repeat among_step. Qed.

Lemma carve_among (t : Grid) (x cy : Z) :
  In "empty" ids ->
  cells_among ids t -> ensures (carve t x cy) (cells_among ids).
Proof. intros He Ht. unfold carve. repeat among_step. Qed.

Lemma connectRooms_among (t : Grid) (rooms : list Room.t) (cw : Z) :
  In "empty" ids ->
  cells_among ids t -> ensures (connectRooms t rooms cw) (cells_among ids).
Proof.
  intros He Ht. unfold connectRooms. repeat among_step.
  - apply carve_among; assumption.
  - repeat among_step. apply carve_among; assumption.
Qed.

Lemma pick_among_ids (l : list string) :
  incl l ids -> ensures (pick l) (value_among ids).
Proof.
  intros Hl. eapply ensures_weaken; [apply pick_among|].
  intros v. apply value_among_incl, Hl.
Qed.

Lemma addCorridorFeatures_among (t : Grid) :
  incl ["pit"; "difficult"; "water"] ids ->
  cells_among ids t -> ensures (addCorridorFeatures t) (cells_among ids).
Proof.
  intros Hf Ht. unfold addCorridorFeatures. cbv zeta.
  apply ensures_forM; [assumption | intros y t1 Ht1].
  among_step. apply ensures_forM; [assumption | intros x t2 Ht2].
  among_step. among_step; [|among_step]. among_step.
  among_step; [|among_step]. among_step. among_step; [|among_step].
  eapply ensures_bind; [apply pick_among_ids, Hf|].
  intros v Hv. among_step.
Qed.

Lemma sprinkle_among (c : GenerationConfig) (p : Q) (t : Grid) (x y : Z) :
  incl (getThemeFeatures c) ids ->
  cells_among ids t -> ensures (sprinkle c p t x y) (cells_among ids).
Proof.
  intros Hf Ht. unfold sprinkle. cbv zeta.
  among_step. among_step; [|among_step]. among_step.
  among_step; [|among_step].
  eapply ensures_bind; [apply pick_among_ids, Hf|].
  intros v Hv. among_step.
Qed.

Lemma sprinkleInterior_among (c : GenerationConfig) (p : Q) (t : Grid) :
  incl (getThemeFeatures c) ids ->
  cells_among ids t -> ensures (sprinkleInterior c p t) (cells_among ids).
Proof.
  intros Hf Ht. unfold sprinkleInterior. repeat among_step.
  apply sprinkle_among; assumption.
Qed.

Lemma addBSPFeatures_among (c : GenerationConfig) (t : Grid)
    (rooms : list Room.t) :
  incl (getThemeFeatures c) ids -> incl ["pit"; "difficult"; "water"] ids ->
  cells_among ids t -> ensures (addBSPFeatures c t rooms) (cells_among ids).
Proof.
  intros Hf Hc Ht. unfold addBSPFeatures. cbv zeta.
  apply ensures_bind with (P := cells_among ids);
    [|intros t1 Ht1; apply addCorridorFeatures_among; assumption].
  repeat among_step. apply sprinkle_among; assumption.
Qed.

Lemma generateBSP_among (fuel : nat) (c : GenerationConfig) :
  incl (getThemeFeatures c) ids ->
  incl ["empty"; "difficult"; "pit"; "water"] ids ->
  ensures (generateBSP fuel c) (cells_among ids).
Proof.
  intros Hf Hl.
  assert (He : In "empty" ids) by (apply Hl; cbn; tauto).
  assert (Hd : In "difficult" ids) by (apply Hl; cbn; tauto).
  assert (Hc : incl ["pit"; "difficult"; "water"] ids).
  { intros name Hn. apply Hl. cbn in Hn |- *. tauto. }
  unfold generateBSP. cbv zeta.
  apply ensures_bind with (P := cells_among ids); [among_step|].
  intros t0 Ht0. apply ensures_bind with (P := cells_among ids);
    [repeat among_step|].
  intros t1 Ht1. among_step. apply ensures_bind with (P := cells_among ids).
  { among_step. apply createRoom_among; assumption. }
  intros t2 Ht2. apply ensures_bind with (P := cells_among ids);
    [apply connectRooms_among; assumption|].
  intros t3 Ht3. apply addBSPFeatures_among; assumption.
Qed.

Lemma generateMixed_among (fuel : nat) (c : GenerationConfig) :
  incl (getThemeFeatures c) ids ->
  incl ["empty"; "difficult"; "pit"; "water"] ids ->
  ensures (generateMixed fuel c) (cells_among ids).
Proof.
  intros Hf Hl. unfold generateMixed, addCellularFeaturesToBSP. cbv zeta.
  apply ensures_bind with (P := cells_among ids);
    [apply generateBSP_among; assumption|].
  intros t Ht. apply sprinkleInterior_among; assumption.
Qed.

Lemma initialFillPass_among (w h : Z) (p : Q) (t : Grid) :
  In "empty" ids ->
  cells_among ids t -> ensures (initialFillPass w h p t) (cells_among ids).
Proof. intros He Ht. unfold initialFillPass. repeat among_step. Qed.

Lemma automatonPass_among (w h b d : Z) (t : Grid) :
  In "wall" ids -> In "empty" ids ->
  cells_among ids t -> ensures (automatonPass w h b d t) (cells_among ids).
Proof.
  intros Hw He Ht. unfold automatonPass.
  apply ensures_bind with (P := cells_among ids); [among_step|].
  intros n0 Hn0. apply ensures_bind with (P := cells_among ids);
    [repeat among_step|].
  intros n Hn. apply ensures_forM; [assumption | intros y t1 Ht1].
  apply ensures_forM; [assumption | intros x t2 Ht2].
  eapply ensures_bind; [apply get_among, Hn|].
  intros v Hv. among_step.
Qed.

Lemma addCellularFeatures_among (c : GenerationConfig) (t : Grid) :
  incl ["pit"; "water"; "difficult"; "crystal"] ids ->
  cells_among ids t -> ensures (addCellularFeatures c t) (cells_among ids).
Proof.
  intros Hf Ht.
  assert (In "pit" ids) by (apply Hf; cbn; tauto).
  assert (In "water" ids) by (apply Hf; cbn; tauto).
  assert (In "difficult" ids) by (apply Hf; cbn; tauto).
  assert (In "crystal" ids) by (apply Hf; cbn; tauto).
  unfold addCellularFeatures. cbv zeta. repeat among_step.
Qed.

Lemma generateCellular_among (c : GenerationConfig) :
  incl ["wall"; "empty"; "pit"; "water"; "difficult"; "crystal"] ids ->
  ensures (generateCellular c) (cells_among ids).
Proof.
  intros Hl.
  assert (Hw : In "wall" ids) by (apply Hl; cbn; tauto).
  assert (He : In "empty" ids) by (apply Hl; cbn; tauto).
  assert (Hf : incl ["pit"; "water"; "difficult"; "crystal"] ids).
  { intros name Hn. apply Hl. cbn in Hn |- *. tauto. }
  unfold generateCellular, cellularCore. cbv zeta.
  apply ensures_bind with (P := cells_among ids);
    [|intros t Ht; apply addCellularFeatures_among; assumption].
  apply ensures_bind with (P := cells_among ids); [among_step|].
  intros t0 Ht0. apply ensures_bind with (P := cells_among ids);
    [apply initialFillPass_among; assumption|].
  intros t1 Ht1. unfold automatonLoop.
  apply ensures_forM; [assumption | intros i t2 Ht2].
  apply automatonPass_among; assumption.
Qed.

Lemma drunkardBranch_among (t : Grid) (x y steps : Z) :
  In "empty" ids ->
  cells_among ids t -> ensures (drunkardBranch t x y steps) (cells_among ids).
Proof.
  intros He Ht. unfold drunkardBranch.
  apply ensures_bind with (P := fun '(t', _, _) => cells_among ids t').
  - apply ensures_forM; [exact Ht|].
    intros i [[t1 x1] y1] Ht1. among_step.
    destruct (move _ x1 y1) as [newX newY]. among_step.
    among_step; [|apply ensures_ret; exact Ht1].
    apply ensures_bind with (P := cells_among ids); [among_step|].
    intros t2 Ht2. apply ensures_ret. exact Ht2.
  - intros [[t1 x1] y1] Ht1. apply ensures_ret. exact Ht1.
Qed.

Lemma generateDrunkardWalk_among (c : GenerationConfig) :
  In "wall" ids -> In "empty" ids ->
  ensures (generateDrunkardWalk c) (cells_among ids).
Proof.
  intros Hw He. unfold generateDrunkardWalk. cbv zeta.
  apply ensures_bind with (P := cells_among ids); [among_step|].
  intros t0 Ht0. apply ensures_bind with (P := cells_among ids); [among_step|].
  intros t1 Ht1.
  apply ensures_bind with (P := fun '(t', _, _) => cells_among ids t').
  - apply ensures_forM; [exact Ht1|].
    intros i [[t2 x2] y2] Ht2. among_step.
    destruct (move _ x2 y2) as [newX newY].
    among_step; [|apply ensures_ret; exact Ht2].
    apply ensures_bind with (P := cells_among ids); [among_step|].
    intros t3 Ht3. among_step.
    among_step; [|apply ensures_ret; exact Ht3].
    among_step.
    apply ensures_bind with (P := cells_among ids);
      [apply drunkardBranch_among; assumption|].
    intros t4 Ht4. apply ensures_ret. exact Ht4.
  - intros [[t2 x2] y2] Ht2. apply ensures_ret. exact Ht2.
Qed.

Lemma generateTemplate_among (c : GenerationConfig) :
  incl (getThemeFeatures c) ids -> In "empty" ids -> In "wall" ids ->
  ensures (generateTemplate c) (cells_among ids).
Proof.
  intros Hf He Hw. unfold generateTemplate, varyTemplate. cbv zeta.
  apply ensures_bind with (P := cells_among ids);
    [|intros t Ht; apply sprinkleInterior_among; assumption].
  unfold createBaseTemplate. cbv zeta.
  apply ensures_bind with (P := cells_among ids); [among_step|].
  intros t0 Ht0. repeat among_step.
Qed.
End Among.

Lemma generate_body_among (fuel : nat) (c : GenerationConfig) :
  ensures (generate_body fuel c) (cells_among (algorithm_ids c)).
Proof.
  unfold generate_body, algorithm_ids. cbv zeta.
  destruct (String.eqb (algorithm c) "bsp") eqn:Ebsp.
  { apply String.eqb_eq in Ebsp. rewrite Ebsp. cbn [String.eqb Ascii.eqb Bool.eqb].
    apply generateBSP_among; intros name Hn;
      apply in_or_app; [right | left]; assumption. }
  destruct (String.eqb (algorithm c) "cellular").
  { apply generateCellular_among. intros name Hn. exact Hn. }
  destruct (String.eqb (algorithm c) "drunkard").
  { apply generateDrunkardWalk_among; cbn; tauto. }
  destruct (String.eqb (algorithm c) "template").
  { apply generateTemplate_among;
      [intros name Hn; apply in_or_app; right; exact Hn | cbn; tauto | cbn; tauto]. }
  destruct (String.eqb (algorithm c) "mixed").
  { apply generateMixed_among; intros name Hn;
      apply in_or_app; [right | left]; assumption. }
  apply generateBSP_among; intros name Hn;
    apply in_or_app; [right | left]; assumption.
Qed.

Lemma algorithm_ids_catalogued (c : GenerationConfig) (name : string) :
  In name (algorithm_ids c) ->
  exists t, TerrainUtils.getTerrain (Some name) = Own t /\ id t = name.
Proof.
  unfold algorithm_ids, getThemeFeatures. cbv zeta.
  repeat match goal with |- context [if ?b then _ else _] => destruct b end;
    cbn [app In]; intros H;
    repeat (destruct H as [<- | H]; [eexists; split; reflexivity|]);
    destruct H.
Qed.

(** X5: whatever the algorithm, theme, parameters and state of the
    stream, a cell of a grid that [generate()] returns either holds
    [undefined] or holds one of the ids of its layout, and that id is an
    own key of the terrain table: no cell holds a string that is not a
    terrain.  The automaton writes ['wall'], ['empty'], ['pit'],
    ['water'], ['difficult'] and ['crystal'] only, the random walk
    ['wall'] and ['empty'] only, and the partition layouts never write
    ['wall'].  (A cell holds [undefined] when a feature pick reads
    outside the feature list, which a negative seed brings about.) *)
Theorem generated_cells_are_catalogued (fuel : nat) (g : TerrainGenerator)
    (x y : Z) (name : string)
    (Hcell : outcome_cell (generate fuel g) x y = Ok (Some name)) :
  In name (algorithm_ids (config g)) /\
  exists t, TerrainUtils.getTerrain (Some name) = Own t /\ id t = name.
Proof.
  assert (H : In name (algorithm_ids (config g))).
  { unfold outcome_cell, generate in Hcell.
    destruct (generate_body fuel (config g) (stream g)) as [[t s']| |] eqn:E;
      try discriminate.
    injection Hcell as Hcell.
    exact (generate_body_among fuel (config g) (stream g) t s' E x y name Hcell). }
  split; [exact H | apply (algorithm_ids_catalogued _ _ H)].
Qed.

Lemma generated_cells_are_catalogued_witness :
  outcome_cell (generate 0 (new_TerrainGenerator cave_6x6)) 0 0 = Ok (Some "wall") /\
  In "wall" (algorithm_ids cave_6x6) /\
  exists t, TerrainUtils.getTerrain (Some "wall") = Own t /\ id t = "wall".
Proof.
  assert (H : outcome_cell (generate 0 (new_TerrainGenerator cave_6x6)) 0 0
              = Ok (Some "wall")) by (vm_compute; reflexivity).
  split; [exact H|].
  exact (generated_cells_are_catalogued 0 (new_TerrainGenerator cave_6x6) 0 0
           "wall" H).
Defined.

(** ** The random walk *)

Lemma reachable_mono (t t' : Grid) (x0 y0 x y : Z) :
  (forall a b, open_at t a b -> open_at t' a b) ->
  reachable t x0 y0 x y -> reachable t' x0 y0 x y.
Proof.
  intros Hsub H. induction H as [H0 | x y x' y' _ IH Hadj Hopen].
  - apply reach_start, Hsub, H0.
  - eapply reach_step; [exact IH | exact Hadj | apply Hsub, Hopen].
Qed.

Lemma move_adjacent (d x y : Z) :
  let '(nx, ny) := move d x y in (nx = x /\ ny = y) \/ adjacent x y nx ny.
Proof.
  unfold move, adjacent.
  repeat match goal with |- context [if ?b then _ else _] => destruct b end;
    lia.
Qed.

(** Opening a cell next to an open cell of a cave, or an open cell
    itself, gives a cave. *)
Lemma cave_open (w h x0 y0 : Z) (t : Grid) (x y nx ny : Z) :
  cave w h x0 y0 t -> open_at t x y ->
  (nx = x /\ ny = y) \/ adjacent x y nx ny ->
  0 <= nx < w -> 0 <= ny < h ->
  returns (lift (set t ny nx (Some "empty")))
          (fun t' => cave w h x0 y0 t' /\ open_at t' nx ny /\
                     forall a b, open_at t a b -> open_at t' a b).
Proof.
  intros (Hs & Hab & H0 & Hreach) Hxy Hmove Hnx Hny.
  destruct (set_shaped w h t nx ny (Some "empty") Hs Hny) as (t' & E & Hs' & Hc);
    [lia|].
  eapply returns_lift; [exact E|].
  assert (Hsub : forall a b, open_at t a b -> open_at t' a b).
  { intros a b Hopen. unfold open_at in *. rewrite Hc.
    destruct (decide _); [reflexivity | exact Hopen]. }
  assert (Hnew : open_at t' nx ny).
  { unfold open_at. rewrite Hc, decide_True by tauto. reflexivity. }
  split; [|split; [exact Hnew | exact Hsub]].
  split; [exact Hs'|]. split; [|split].
  - intros a b Ha Hb. rewrite Hc. destruct (decide _); [right; reflexivity|].
    apply Hab; assumption.
  - apply Hsub, H0.
  - intros a b Hopen. unfold open_at in Hopen. rewrite Hc in Hopen.
    destruct (decide (a = nx /\ b = ny)) as [[-> ->]|Hne].
    + split; [tauto|].
      destruct Hmove as [[-> ->] | Hadj].
      * eapply reachable_mono; [exact Hsub | apply Hreach, Hxy].
      * eapply reach_step; [|exact Hadj | exact Hnew].
        eapply reachable_mono; [exact Hsub | apply Hreach, Hxy].
    + destruct (Hreach a b Hopen) as [Hin Hr]. split; [exact Hin|].
      eapply reachable_mono; [exact Hsub | exact Hr].
Qed.

Lemma drunkardBranch_cave (w h x0 y0 : Z) (t : Grid) (x y steps : Z) :
  0 < h -> cave w h x0 y0 t -> open_at t x y ->
  returns (drunkardBranch t x y steps)
          (fun t' => cave w h x0 y0 t' /\
                     forall a b, open_at t a b -> open_at t' a b).
Proof.
  intros Hh Hcave Hxy. unfold drunkardBranch.
  apply returns_bind
    with (P := fun '(t', x', y') =>
                 cave w h x0 y0 t' /\ open_at t' x' y' /\
                 forall a b, open_at t a b -> open_at t' a b).
  - apply returns_forM_inv; [auto|].
    intros i [[t1 x1] y1] _ (Hc1 & Ho1 & Hm1).
    apply returns_bind_random. intros r.
    pose proof (move_adjacent (floor_mul r 4) x1 y1) as Hmove.
    destruct (move (floor_mul r 4) x1 y1) as [newX newY].
    assert (Hs1 : shaped w h t1) by apply Hc1.
    rewrite (in_bounds_xy_shaped w h t1 newX newY Hs1 Hh).
    eapply returns_bind_lift; [reflexivity|].
    destruct ((0 <=? newX) && (newX <? w) && (0 <=? newY) && (newY <? h)) eqn:Eb.
    + apply andb_true_iff in Eb. destruct Eb as [Eb E4].
      apply andb_true_iff in Eb. destruct Eb as [Eb E3].
      apply andb_true_iff in Eb. destruct Eb as [E1 E2].
      apply Z.leb_le in E1, E3. apply Z.ltb_lt in E2, E4.
      eapply returns_bind;
        [apply (cave_open w h x0 y0 t1 x1 y1 newX newY); try assumption; lia|].
      intros t2 (Hc2 & Ho2 & Hm2). apply returns_ret. auto.
    + apply returns_ret. auto.
  - intros [[t1 x1] y1] (Hc1 & _ & Hm1). apply returns_ret. auto.
Qed.

Lemma generateDrunkardWalk_cave (c : GenerationConfig) :
  1 <= width c < 2 ^ 32 -> 1 <= height c < 2 ^ 32 ->
  returns (generateDrunkardWalk c)
          (cave (width c) (height c) (width c / 2) (height c / 2)).
Proof.
  intros Hw Hh. unfold generateDrunkardWalk. cbv zeta.
  set (w := width c) in *. set (h := height c) in *.
  assert (Hx0 : 0 <= w / 2 < w).
  { split; [apply Z.div_pos; lia | apply Z.div_lt_upper_bound; lia]. }
  assert (Hy0 : 0 <= h / 2 < h).
  { split; [apply Z.div_pos; lia | apply Z.div_lt_upper_bound; lia]. }
  destruct (new_grid_shaped w h "wall") as (t0 & E0 & Hs0 & Hc0); try lia.
  apply returns_bind_lift with (a := t0); [exact E0|].
  assert (Hwall : cells_among ["wall"] t0).
  { apply (new_grid_among ["wall"] h w "wall" (or_introl eq_refl) 0 t0 0).
    unfold lift. rewrite E0. reflexivity. }
  destruct (set_shaped w h t0 (w / 2) (h / 2) (Some "empty") Hs0)
    as (t1 & E1 & Hs1 & Hc1); try lia.
  apply returns_bind_lift with (a := t1); [exact E1|].
  assert (Hopen1 : open_at t1 (w / 2) (h / 2)).
  { unfold open_at. rewrite Hc1, decide_True by tauto. reflexivity. }
  assert (Hcave1 : cave w h (w / 2) (h / 2) t1).
  { split; [exact Hs1|]. split; [|split; [exact Hopen1|]].
    - intros x y Hx Hy. rewrite Hc1. destruct (decide _); [right; reflexivity|].
      left. apply Hc0; assumption.
    - intros x y Hopen. unfold open_at in Hopen. rewrite Hc1 in Hopen.
      destruct (decide (x = w / 2 /\ y = h / 2)) as [[-> ->]|Hne].
      + split; [tauto | apply reach_start, Hopen1].
      + apply Hwall in Hopen. destruct Hopen as [Hopen|[]]. discriminate. }
  apply returns_bind
    with (P := fun '(t', x', y') =>
                 cave w h (w / 2) (h / 2) t' /\ open_at t' x' y').
  - apply returns_forM_inv; [split; assumption|].
    intros i [[t2 x2] y2] _ [Hc2 Ho2].
    apply returns_bind_random. intros r.
    pose proof (move_adjacent (floor_mul r 4) x2 y2) as Hmove.
    destruct (move (floor_mul r 4) x2 y2) as [newX newY].
    destruct ((0 <=? newX) && (newX <? w) && (0 <=? newY) && (newY <? h)) eqn:Eb.
    + apply andb_true_iff in Eb. destruct Eb as [Eb E4].
      apply andb_true_iff in Eb. destruct Eb as [Eb E3].
      apply andb_true_iff in Eb. destruct Eb as [Eb1 E2].
      apply Z.leb_le in Eb1, E3. apply Z.ltb_lt in E2, E4.
      eapply returns_bind;
        [apply (cave_open w h (w / 2) (h / 2) t2 x2 y2 newX newY);
         try assumption; lia|].
      intros t3 (Hc3 & Ho3 & _). apply returns_bind_random. intros r'.
      destruct (Qltb r' _); [|apply returns_ret; split; assumption].
      apply returns_bind_random. intros r''.
      eapply returns_bind;
        [apply (drunkardBranch_cave w h (w / 2) (h / 2));
         [lia | exact Hc3 | exact Ho3]|].
      intros t4 [Hc4 Hm4]. apply returns_ret. split; [exact Hc4 | apply Hm4, Ho3].
    + apply returns_ret. split; assumption.
  - intros [[t2 x2] y2] [Hc2 _]. apply returns_ret. exact Hc2.
Qed.

Lemma generate_drunkard (c : GenerationConfig) (fuel : nat) :
  algorithm c = "drunkard" ->
  1 <= width c < 2 ^ 32 -> 1 <= height c < 2 ^ 32 ->
  exists terrain g',
    generate fuel (new_TerrainGenerator c) = Ok (terrain, g') /\
    cave (width c) (height c) (width c / 2) (height c / 2) terrain.
Proof.
  intros Halg Hw Hh.
  destruct (generateDrunkardWalk_cave c Hw Hh (Rng.seededRandom (seed c)))
    as (terrain & s' & E & Hcave).
  exists terrain, (mkGenerator c s'). split; [|exact Hcave].
  unfold generate, generate_body, new_TerrainGenerator; cbn [config stream].
  rewrite Halg. cbn [String.eqb Ascii.eqb Bool.eqb]. rewrite E. reflexivity.
Qed.

(** X6: the random walk returns a full grid of walls and floor.  For
    every seed, step count and branch chance, on a grid of at least one
    row and one column [generate()] returns [height] rows of [width]
    cells, every cell is ['wall'] or ['empty'], and the centre cell, where
    the walk starts, is ['empty']. *)
Theorem drunkard_grid_is_wall_and_floor (c : GenerationConfig) (fuel : nat)
    (Halg : algorithm c = "drunkard")
    (Hw : 1 <= width c < 2 ^ 32) (Hh : 1 <= height c < 2 ^ 32) :
  exists terrain g',
    generate fuel (new_TerrainGenerator c) = Ok (terrain, g') /\
    height_of terrain = height c /\
    Forall (fun row => len row = width c) terrain /\
    (forall x y, 0 <= x < width c -> 0 <= y < height c ->
       cell_at terrain x y = Some "wall" \/ cell_at terrain x y = Some "empty") /\
    cell_at terrain (width c / 2) (height c / 2) = Some "empty".
Proof.
  destruct (generate_drunkard c fuel Halg Hw Hh)
    as (terrain & g' & E & (Hh' & Hrows) & Hcells & Hstart & _).
  exists terrain, g'. auto.
Qed.

Lemma drunkard_grid_is_wall_and_floor_witness :
  exists terrain g',
    generate 0 (new_TerrainGenerator walk_9x7) = Ok (terrain, g') /\
    height_of terrain = 7 /\
    Forall (fun row => len row = 9) terrain /\
    (forall x y, 0 <= x < 9 -> 0 <= y < 7 ->
       cell_at terrain x y = Some "wall" \/ cell_at terrain x y = Some "empty") /\
    cell_at terrain 4 3 = Some "empty".
Proof.
  apply (drunkard_grid_is_wall_and_floor walk_9x7 0); [reflexivity | cbn; lia ..].
Defined.

(** X7: the floor of a random-walk grid is connected.  Every ['empty']
    cell of the grid [generate()] returns lies in the grid and can be
    reached from the centre cell by steps along rows and columns through
    ['empty'] cells, branches included. *)
Theorem drunkard_floor_is_connected (c : GenerationConfig) (fuel : nat)
    (Halg : algorithm c = "drunkard")
    (Hw : 1 <= width c < 2 ^ 32) (Hh : 1 <= height c < 2 ^ 32) :
  exists terrain g',
    generate fuel (new_TerrainGenerator c) = Ok (terrain, g') /\
    forall x y, cell_at terrain x y = Some "empty" ->
      (0 <= x < width c /\ 0 <= y < height c) /\
      reachable terrain (width c / 2) (height c / 2) x y.
Proof.
  destruct (generate_drunkard c fuel Halg Hw Hh)
    as (terrain & g' & E & _ & _ & _ & Hreach).
  exists terrain, g'. split; [exact E | exact Hreach].
Qed.

Lemma drunkard_floor_is_connected_witness :
  exists terrain g',
    generate 0 (new_TerrainGenerator walk_9x7) = Ok (terrain, g') /\
    forall x y, cell_at terrain x y = Some "empty" ->
      (0 <= x < 9 /\ 0 <= y < 7) /\ reachable terrain 4 3 x y.
Proof.
  apply (drunkard_floor_is_connected walk_9x7 0); [reflexivity | cbn; lia ..].
Defined.

(** ** The automaton returns a full grid *)

Lemma set_filled (w h : Z) (t : Grid) (x y : Z) (v : string) :
  filled w h t -> 0 <= y < h -> x < w ->
  returns (lift (set t y x (Some v))) (filled w h).
Proof.
  intros [Hs Hf] Hy Hx.
  destruct (set_shaped w h t x y (Some v) Hs Hy Hx) as (t' & E & Hs' & Hc).
  apply returns_lift with (a := t'); [exact E|].
  split; [exact Hs'|]. intros x' y' Hx' Hy'. rewrite Hc.
  destruct (decide _); [eexists; reflexivity | apply Hf; assumption].
Qed.

Lemma new_grid_filled (w h : Z) (v : string) :
  0 <= w < 2 ^ 32 -> 0 <= h < 2 ^ 32 ->
  exists t, new_grid h w v = Ok t /\ filled w h t.
Proof.
  intros Hw Hh. destruct (new_grid_shaped w h v Hw Hh) as (t & E & Hs & Hc).
  exists t. split; [exact E|]. split; [exact Hs|].
  intros x y Hx Hy. rewrite Hc by assumption. eexists; reflexivity.
Qed.

Lemma initialFillPass_filled (w h : Z) (p : Q) (t : Grid) :
  filled w h t -> returns (initialFillPass w h p t) (filled w h).
Proof.
  intros Hf. unfold initialFillPass, for_lt.
  apply returns_forM_inv; [exact Hf|].
  intros y t1 Hy Hf1. apply elem_of_seqZ in Hy.
  apply returns_forM_inv; [exact Hf1|].
  intros x t2 Hx Hf2. apply elem_of_seqZ in Hx.
  apply returns_bind_random. intros r.
  destruct (Qltb r p); [|apply returns_ret, Hf2].
  apply set_filled; [exact Hf2 | lia | lia].
Qed.

Lemma automatonPass_filled (w h b d : Z) (t : Grid) :
  1 <= w < 2 ^ 32 -> 1 <= h < 2 ^ 32 -> shaped w h t ->
  returns (automatonPass w h b d t) (filled w h).
Proof.
  intros Hw Hh Hs. unfold automatonPass.
  destruct (new_grid_filled w h "wall") as (n0 & En & Hfn); try lia.
  apply returns_bind_lift with (a := n0); [exact En|].
  apply returns_bind with (P := filled w h).
  - unfold for_lt. apply returns_forM_inv; [exact Hfn|].
    intros y n1 Hy Hf1. apply elem_of_seqZ in Hy.
    apply returns_forM_inv; [exact Hf1|].
    intros x n2 Hx Hf2. apply elem_of_seqZ in Hx.
    destruct (countNeighborsOfType_ok w h t x y "empty" Hs) as [k Ek]; [lia|].
    unfold countNeighbors.
    apply returns_bind_lift with (a := k); [exact Ek|].
    apply returns_bind_lift with (a := cell_at t x y);
      [apply (get_shaped w h); [exact Hs|lia]|].
    destruct (cell_is _ _); [destruct (k <? d) | destruct (b <? k)];
      apply set_filled; try assumption; lia.
  - intros n [Hsn Hfn'].
    apply returns_weaken with (1 := copy_back w h n t Hsn Hs).
    intros t' [Hs' Hc']. split; [exact Hs'|].
    intros x y Hx Hy. rewrite Hc' by assumption. apply Hfn'; assumption.
Qed.

Lemma automatonLoop_filled (w h n b d : Z) (t : Grid) :
  1 <= w < 2 ^ 32 -> 1 <= h < 2 ^ 32 -> filled w h t ->
  returns (automatonLoop w h n b d t) (filled w h).
Proof.
  intros Hw Hh Hf. unfold automatonLoop, for_lt.
  apply returns_forM_inv; [exact Hf|].
  intros i t1 _ [Hs1 _]. apply automatonPass_filled; assumption.
Qed.

Lemma addCellularFeatures_filled (c : GenerationConfig) (w h : Z) (t : Grid) :
  1 <= h -> filled w h t ->
  returns (addCellularFeatures c t) (filled w h).
Proof.
  intros Hh Hf. unfold addCellularFeatures, for_lt.
  assert (Eh : height_of t = h) by apply Hf. rewrite Eh.
  apply returns_forM_inv; [exact Hf|].
  intros y t1 Hy Hf1. apply elem_of_seqZ in Hy.
  apply returns_bind_lift with (a := w);
    [apply (width_of_shaped w h); [apply Hf1|lia]|].
  apply returns_forM_inv; [exact Hf1|].
  intros x t2 Hx Hf2. apply elem_of_seqZ in Hx.
  apply returns_bind_lift with (a := cell_at t2 x y);
    [apply (get_shaped w h); [apply Hf2|lia]|].
  assert (Hset : forall u, returns (lift (set t2 y x (Some u))) (filled w h)).
  { intros u. apply set_filled; [exact Hf2 | lia | lia]. }
  assert (Hret : returns (ret t2) (filled w h)) by (apply returns_ret, Hf2).
  destruct (cell_is _ _); [|exact Hret].
  apply returns_bind_random. intros r.
  destruct (Qltb r _); [|exact Hret].
  destruct (String.eqb (theme c) "dungeon").
  { apply returns_bind_random. intros r1. destruct (Qltb r1 _); [apply Hset|].
    apply returns_bind_random. intros r2. destruct (Qltb r2 _); apply Hset. }
  destruct (String.eqb (theme c) "wilderness"); [apply Hset|].
  destruct (String.eqb (theme c) "underground"); [|exact Hret].
  apply returns_bind_random. intros r1. destruct (Qltb r1 _); [apply Hset|].
  apply returns_bind_random. intros r2. destruct (Qltb r2 _); [apply Hset|exact Hret].
Qed.

Lemma generateCellular_filled (c : GenerationConfig) :
  1 <= width c < 2 ^ 32 -> 1 <= height c < 2 ^ 32 ->
  returns (generateCellular c) (filled (width c) (height c)).
Proof.
  intros Hw Hh. unfold generateCellular, cellularCore. cbv zeta.
  apply returns_bind with (P := filled (width c) (height c));
    [|intros t Ht; apply addCellularFeatures_filled; [lia | exact Ht]].
  destruct (new_grid_filled (width c) (height c) "wall") as (t0 & E0 & Hf0);
    try lia.
  apply returns_bind_lift with (a := t0); [exact E0|].
  apply returns_bind with (P := filled (width c) (height c));
    [apply initialFillPass_filled, Hf0|].
  intros t1 Hf1. apply automatonLoop_filled; assumption.
Qed.

(** X8: the automaton returns a full grid whatever its knobs.  For every
    seed, fill ratio, iteration count (zero and negative counts included)
    and thresholds, on a grid of at least one row and one column
    [generate()] returns [height] rows of [width] cells, and every cell
    holds one of ['wall'], ['empty'], ['pit'], ['water'], ['difficult'] and
    ['crystal']. *)
Theorem cellular_grid_is_full (c : GenerationConfig) (fuel : nat)
    (Halg : algorithm c = "cellular")
    (Hw : 1 <= width c < 2 ^ 32) (Hh : 1 <= height c < 2 ^ 32) :
  exists terrain g',
    generate fuel (new_TerrainGenerator c) = Ok (terrain, g') /\
    height_of terrain = height c /\
    Forall (fun row => len row = width c) terrain /\
    forall x y, 0 <= x < width c -> 0 <= y < height c ->
      exists name,
        cell_at terrain x y = Some name /\
        In name ["wall"; "empty"; "pit"; "water"; "difficult"; "crystal"].
Proof.
  destruct (generateCellular_filled c Hw Hh (Rng.seededRandom (seed c)))
    as (terrain & s' & E & (Hh' & Hrows) & Hfull).
  exists terrain, (mkGenerator c s'). split; [|split; [exact Hh' | split; [exact Hrows|]]].
  - unfold generate, generate_body, new_TerrainGenerator; cbn [config stream].
    rewrite Halg. cbn [String.eqb Ascii.eqb Bool.eqb]. rewrite E. reflexivity.
  - intros x y Hx Hy. destruct (Hfull x y Hx Hy) as [name Hname].
    exists name. split; [exact Hname|].
    eapply (generateCellular_among _ c (fun _ H => H) _ _ _ E). exact Hname.
Qed.

Lemma cellular_grid_is_full_witness :
  exists terrain g',
    generate 0 (new_TerrainGenerator cave_6x6_zero) = Ok (terrain, g') /\
    height_of terrain = 6 /\
    Forall (fun row => len row = 6) terrain /\
    forall x y, 0 <= x < 6 -> 0 <= y < 6 ->
      exists name,
        cell_at terrain x y = Some name /\
        In name ["wall"; "empty"; "pit"; "water"; "difficult"; "crystal"].
Proof.
  apply (cellular_grid_is_full cave_6x6_zero 0); [reflexivity | cbn; lia ..].
Defined.

(** ** Degenerate seeds *)

Lemma a_m_coprime : Z.gcd Rng.m Rng.a = 1.
Proof. vm_compute. reflexivity. Qed.

(** A step of a congruential stream keeps the sign of the state when the
    multiplier is positive and prime to the modulus. *)
Lemma lcg_step_sign (m a s : Z) :
  0 < m -> 0 < a -> Z.gcd m a = 1 -> - m < s < m ->
  - m < Z.rem (s * a) m < m /\
  (0 < s -> 0 < Z.rem (s * a) m) /\
  (s < 0 -> Z.rem (s * a) m < 0) /\
  (s = 0 -> Z.rem (s * a) m = 0).
Proof.
  intros Hm Ha Hgcd Hs.
  assert (Hnz : s <> 0 -> Z.rem (s * a) m <> 0).
  { intros Hne Hrem. apply Z.rem_divide in Hrem; [|lia].
    rewrite Z.mul_comm in Hrem.
    apply Z.gauss in Hrem; [|exact Hgcd].
    destruct Hrem as [k Hk].
    assert (k = 0) by nia. subst k. lia. }
  pose proof (Z.rem_bound_abs (s * a) m ltac:(lia)) as Hb.
  pose proof (Z.rem_sign_mul (s * a) m ltac:(lia)) as Hsign.
  split; [lia|]. split; [|split].
  - intros Hpos. specialize (Hnz ltac:(lia)).
    assert (0 < s * a) by nia. nia.
  - intros Hneg. specialize (Hnz ltac:(lia)).
    assert (s * a < 0) by nia. nia.
  - intros ->. apply Z.rem_0_l. lia.
Qed.

Lemma state_after_sign (n : nat) (s : Z) :
  - Rng.m < s < Rng.m ->
  - Rng.m < Rng.state_after n s < Rng.m /\
  (0 < s -> 0 < Rng.state_after n s) /\
  (s < 0 -> Rng.state_after n s < 0) /\
  (s = 0 -> Rng.state_after n s = 0).
Proof.
  intros Hs. induction n as [|n IH]; cbn [Rng.state_after]; [tauto|].
  destruct IH as (Hr & Hp & Hn & Hz). rewrite next_state.
  destruct (lcg_step_sign Rng.m Rng.a (Rng.state_after n s) m_pos eq_refl
              a_m_coprime Hr) as (Hr' & Hp' & Hn' & Hz').
  split; [exact Hr'|]. split; [|split]; intros H; auto.
Qed.

Lemma seededRandom_sign (seed : Z) :
  - Rng.m < Rng.seededRandom seed < Rng.m /\
  (0 < Rng.seededRandom seed <-> 0 < seed /\ Z.rem seed Rng.m <> 0) /\
  (Rng.seededRandom seed < 0 <-> seed < 0 /\ Z.rem seed Rng.m <> 0).
Proof.
  unfold Rng.seededRandom. pose proof m_pos as Hm.
  pose proof (Z.rem_bound_abs seed Rng.m ltac:(lia)) as Hb.
  pose proof (Z.rem_sign_mul seed Rng.m ltac:(lia)) as Hsign.
  assert (H0 : seed = 0 -> Z.rem seed Rng.m = 0)
    by (intros ->; apply Z.rem_0_l; lia).
  split; [lia|]. split; split.
  - intros H. split; [nia | lia].
  - intros [H1 H2]. nia.
  - intros H. split; [nia | lia].
  - intros [H1 H2]. nia.
Qed.

(** X9: the values of the stream have the sign of the seed.  A seed that
    is a multiple of [m], the seed [0] among them, gives a stream whose
    every value is [0]; any other positive seed gives values strictly
    between 0 and 1, and any other negative seed values strictly between
    -1 and 0. *)
Theorem seededRandom_sign_of_seed (seed : Z) (n : nat) :
  let out := Rng.output (S n) (Rng.seededRandom seed) in
  (Z.rem seed Rng.m = 0 -> (out == 0)%Q) /\
  (0 < seed -> Z.rem seed Rng.m <> 0 -> (0 < out < 1)%Q) /\
  (seed < 0 -> Z.rem seed Rng.m <> 0 -> (-1 < out < 0)%Q).
Proof.
  cbv zeta. cbn [Rng.output].
  destruct (seededRandom_sign seed) as (Hr & Hp & Hn).
  destruct (state_after_sign (S n) (Rng.seededRandom seed) Hr)
    as (Hr' & Hp' & Hn' & Hz').
  cbn [Rng.state_after] in *.
  set (s' := snd (Rng.next (Rng.state_after n (Rng.seededRandom seed)))) in *.
  assert (Hout : fst (Rng.next (Rng.state_after n (Rng.seededRandom seed)))
                 = Qmake s' (Z.to_pos Rng.m)) by reflexivity.
  rewrite Hout. unfold Qeq, Qlt; cbn [Qnum Qden].
  rewrite Z2Pos.id by apply m_pos.
  split; [|split].
  - intros Hrem. rewrite Hz' by exact Hrem. reflexivity.
  - intros Hpos Hrem. specialize (Hp' (proj2 Hp (conj Hpos Hrem))). lia.
  - intros Hneg Hrem. specialize (Hn' (proj2 Hn (conj Hneg Hrem))). lia.
Qed.

Lemma seededRandom_sign_of_seed_witness :
  (Rng.output 1 (Rng.seededRandom 0) == 0)%Q /\
  (0 < Rng.output 1 (Rng.seededRandom 12345) < 1)%Q /\
  (-1 < Rng.output 1 (Rng.seededRandom (-12345)) < 0)%Q.
Proof.
  split; [|split].
  - apply (seededRandom_sign_of_seed 0 0). reflexivity.
  - apply (seededRandom_sign_of_seed 12345 0); [lia | discriminate].
  - apply (seededRandom_sign_of_seed (-12345) 0); [lia | discriminate].
Defined.

(** ** The composite layout *)

Lemma ensures_forM_in {S} (I : S -> Prop) (l : list Z) (body : Z -> S -> M S)
    (acc : S) :
  I acc -> (forall i a, i ∈ l -> I a -> ensures (body i a) I) ->
  ensures (forM l body acc) I.
Proof.
  intros Hacc Hbody. revert acc Hacc.
  induction l as [|i l IH]; intros acc Hacc; cbn [forM].
  - apply ensures_ret, Hacc.
  - apply ensures_bind with (P := I).
    + apply Hbody; [apply elem_of_cons; left; reflexivity | exact Hacc].
    + intros a Ha. apply IH; [|exact Ha].
      intros j b Hj. apply Hbody. apply elem_of_cons. right. exact Hj.
Qed.

Lemma set_height (t t' : Grid) (x y : Z) (v : cell) :
  set t y x v = Ok t' -> height_of t' = height_of t.
Proof.
  unfold set. destruct (row_at t y); [|discriminate].
  intros [= <-]. unfold height_of. rewrite length_insert. reflexivity.
Qed.

Lemma cell_is_eq (v : cell) (s : string) : cell_is v s = true -> v = Some s.
Proof.
  destruct v as [u|]; cbn; [|discriminate].
  intros H. apply String.eqb_eq in H. congruence.
Qed.

Lemma sprinkle_sprinkled (c : GenerationConfig) (p : Q) (t0 t : Grid)
    (x y : Z) :
  1 <= x -> 1 <= y <= height_of t0 - 2 ->
  sprinkled c t0 t -> ensures (sprinkle c p t x y) (sprinkled c t0).
Proof.
  intros Hx Hy Hsp. unfold sprinkle. cbv zeta.
  apply ensures_bind with (P := fun v => v = cell_at t x y).
  { apply ensures_lift. intros v. apply get_cell_at. }
  intros v ->.
  destruct (cell_is (cell_at t x y) "empty") eqn:Ev;
    [|apply ensures_ret, Hsp].
  apply cell_is_eq in Ev.
  eapply ensures_bind; [apply ensures_true|]. intros r _.
  destruct (Qltb r p); [|apply ensures_ret, Hsp].
  apply ensures_bind with (P := value_among (getThemeFeatures c));
    [apply pick_among|].
  intros f Hf. apply ensures_lift. intros t2 Eset.
  destruct Hsp as [Hh Hcells]. split.
  - rewrite (set_height _ _ _ _ _ Eset). exact Hh.
  - intros x' y'. rewrite (cell_at_set _ _ _ _ _ Eset).
    destruct (decide (x' = x /\ y' = y)) as [[-> ->]|Hne]; [|apply Hcells].
    intros Hdiff. split; [|split; [split; assumption | exact Hf]].
    destruct (decide (cell_at t x y = cell_at t0 x y)) as [Heq|Hneq].
    + congruence.
    + apply Hcells, Hneq.
Qed.

Lemma sprinkleInterior_sprinkled (c : GenerationConfig) (p : Q) (t : Grid) :
  ensures (sprinkleInterior c p t) (sprinkled c t).
Proof.
  unfold sprinkleInterior, for_lt.
  apply ensures_forM_in.
  { split; [reflexivity|]. intros x y H. congruence. }
  intros y t1 Hy Hsp. apply elem_of_seqZ in Hy.
  eapply ensures_bind; [apply ensures_true|]. intros w0 _.
  apply ensures_forM_in; [exact Hsp|].
  intros x t2 Hx Hsp2. apply elem_of_seqZ in Hx.
  apply sprinkle_sprinkled; [lia | lia | exact Hsp2].
Qed.

(** X10: a mixed map is the partition map of the same configuration and
    stream with features sprinkled on its floor.  Whenever the mixed
    layout returns a grid, the partition layout returns one from the same
    stream state, with as many rows, and the two grids differ only in
    cells that the partition layout left ['empty'], off the first row and
    column and the last row, which now hold a feature of the theme, or
    [undefined] where the feature pick read outside the list of features
    (which a negative seed brings about). *)
Theorem mixed_is_bsp_with_features (c : GenerationConfig) (fuel : nat)
    (terrain : Grid) (g' : TerrainGenerator)
    (Halg : algorithm c = "mixed")
    (Hrun : generate fuel (new_TerrainGenerator c) = Ok (terrain, g')) :
  exists base gb,
    generate fuel (new_TerrainGenerator (with_algorithm c "bsp")) = Ok (base, gb) /\
    sprinkled c base terrain.
Proof.
  unfold generate, generate_body, new_TerrainGenerator in *;
    cbn [config stream with_algorithm algorithm seed] in *.
  rewrite Halg in Hrun. cbn [String.eqb Ascii.eqb Bool.eqb] in *.
  rewrite generateBSP_with_algorithm.
  unfold generateMixed, addCellularFeaturesToBSP in Hrun. cbv zeta in Hrun.
  unfold bind in Hrun.
  destruct (generateBSP fuel c (Rng.seededRandom (seed c))) as [[base s0]| |];
    try discriminate.
  destruct (sprinkleInterior c (5 # 100) base s0) as [[t s1]| |] eqn:E;
    try discriminate.
  injection Hrun as <- _.
  exists base, (mkGenerator (with_algorithm c "bsp") s0).
  split; [reflexivity|].
  exact (sprinkleInterior_sprinkled c _ base s0 t s1 E).
Qed.

Lemma mixed_is_bsp_with_features_witness :
  match generate 20 (new_TerrainGenerator mixed_10x10) with
  | Ok (terrain, _) =>
      exists base gb,
        generate 20 (new_TerrainGenerator (with_algorithm mixed_10x10 "bsp"))
        = Ok (base, gb) /\
        sprinkled mixed_10x10 base terrain
  | _ => False
  end.
Proof.
  assert (H : is_ok (generate 20 (new_TerrainGenerator mixed_10x10)) = true)
    by (vm_compute; reflexivity).
  destruct (generate 20 (new_TerrainGenerator mixed_10x10))
    as [[terrain g']| |] eqn:E; [|discriminate H ..].
  exact (mixed_is_bsp_with_features mixed_10x10 20 terrain g' eq_refl E).
Defined.

(** ** Sizes that are not sizes *)

Lemma new_grid_invalid (h w : Z) (v : string) :
  valid_length h = false \/ (h <> 0 /\ valid_length w = false) ->
  new_grid h w v = Throw RangeError.
Proof.
  unfold new_grid. intros [Hh | [Hh Hw]].
  - rewrite Hh. reflexivity.
  - destruct (valid_length h); [|reflexivity]. cbn [negb].
    destruct (h =? 0) eqn:E; [apply Z.eqb_eq in E; contradiction|].
    rewrite Hw. reflexivity.
Qed.

(** X11: a size that is no array length is a [RangeError].  When the
    configured height is negative or 2^32 or more, or the height is not
    0 and the width is, [generate()] throws a [RangeError] under every
    algorithm, before drawing from the stream. *)
Theorem invalid_size_is_a_RangeError (fuel : nat) (g : TerrainGenerator)
    (Hsize : valid_length (height (config g)) = false \/
             (height (config g) <> 0 /\
              valid_length (width (config g)) = false)) :
  generate fuel g = Throw RangeError.
Proof.
  unfold generate, generate_body.
  assert (E : forall v, new_grid (height (config g)) (width (config g)) v
                        = Throw RangeError)
    by (intros v; apply new_grid_invalid, Hsize).
  cbv zeta.
  repeat match goal with
         | |- context [if String.eqb ?a ?b then _ else _] =>
             destruct (String.eqb a b)
         end;
    unfold generateMixed, generateBSP, generateCellular, cellularCore,
      generateDrunkardWalk, generateTemplate, createBaseTemplate, bind, lift;
    cbv zeta; rewrite E; reflexivity.
Qed.

Lemma invalid_size_is_a_RangeError_witness :
  generate 0 (new_TerrainGenerator (mkConfig 25 (-1) 1 "dungeon" "cellular"
                                             no_parameters))
  = Throw RangeError.
Proof.
  apply invalid_size_is_a_RangeError. left. reflexivity.
Defined.

(** ** A grid without rows *)

Lemma forM_idle {S} (l : list Z) (body : Z -> S -> M S) (acc : S) :
  (forall i s, body i acc s = Ok (acc, s)) ->
  forall s, forM l body acc s = Ok (acc, s).
Proof.
  intros H. induction l as [|i l IH]; intros s; [reflexivity|].
  cbn [forM]. unfold bind. rewrite H. apply IH.
Qed.

Lemma automatonPass_no_rows (w b d : Z) (s : Z) :
  automatonPass w 0 b d [] s = Ok ([], s).
Proof. reflexivity. Qed.

Lemma initialFillPass_no_rows (w : Z) (p : Q) (t : Grid) (s : Z) :
  initialFillPass w 0 p t s = Ok (t, s).
Proof. reflexivity. Qed.

Lemma addCellularFeatures_no_rows (c : GenerationConfig) (s : Z) :
  addCellularFeatures c [] s = Ok ([], s).
Proof. reflexivity. Qed.

Lemma sprinkleInterior_no_rows (c : GenerationConfig) (p : Q) (s : Z) :
  sprinkleInterior c p [] s = Ok ([], s).
Proof. reflexivity. Qed.

(** X12: a configured height of 0.  The automaton then returns the empty
    grid without drawing from the stream, whatever the width and the
    iteration count; the random walk throws a [TypeError], its start row
    being missing; and so does the template as soon as the width is at
    least 1, on writing its first wall. *)
Theorem zero_height_edge (fuel : nat) (c : GenerationConfig)
    (Hh : height c = 0) :
  (algorithm c = "cellular" ->
   generate fuel (new_TerrainGenerator c)
   = Ok ([], new_TerrainGenerator c)) /\
  (algorithm c = "drunkard" ->
   generate fuel (new_TerrainGenerator c) = Throw TypeError) /\
  (algorithm c = "template" -> 1 <= width c ->
   generate fuel (new_TerrainGenerator c) = Throw TypeError).
Proof.
  unfold generate, generate_body, new_TerrainGenerator; cbn [config stream].
  split; [|split]; intros Halg; rewrite Halg;
    cbn [String.eqb Ascii.eqb Bool.eqb].
  - unfold generateCellular, cellularCore, bind, lift. cbv zeta.
    rewrite Hh. change (new_grid 0 (width c) "wall") with (@Ok Grid []).
    cbv beta iota. rewrite initialFillPass_no_rows.
    unfold automatonLoop, for_lt.
    rewrite forM_idle by (intros i s; reflexivity).
    rewrite addCellularFeatures_no_rows. reflexivity.
  - unfold generateDrunkardWalk, bind, lift. cbv zeta.
    rewrite Hh. reflexivity.
  - intros Hw. unfold generateTemplate, createBaseTemplate, bind, lift. cbv zeta.
    rewrite Hh. change (new_grid 0 (width c) "empty") with (@Ok Grid []).
    cbv beta iota. unfold for_le.
    rewrite forM_idle.
    2: { intros y s. apply forM_idle. intros x s0.
         replace ((0 <=? x) && (x <? width c) && (0 <=? y) && (y <? 0))
           with false; [reflexivity|].
         symmetry. destruct (0 <=? y) eqn:E1.
         - apply Z.leb_le in E1. apply andb_false_intro2, Z.ltb_ge, E1.
         - rewrite andb_false_r. reflexivity. }
    unfold for_lt. rewrite seqZ_cons by lia. cbn [forM].
    unfold bind, lift. reflexivity.
Qed.

Lemma zero_height_edge_witness :
  generate 0 (new_TerrainGenerator
                (mkConfig 25 0 1 "dungeon" "cellular" no_parameters))
  = Ok ([], new_TerrainGenerator
              (mkConfig 25 0 1 "dungeon" "cellular" no_parameters)) /\
  generate 0 (new_TerrainGenerator
                (mkConfig 25 0 1 "dungeon" "drunkard" no_parameters))
  = Throw TypeError /\
  generate 0 (new_TerrainGenerator
                (mkConfig 25 0 1 "dungeon" "template" no_parameters))
  = Throw TypeError.
Proof.
  split; [|split].
  - exact (proj1 (zero_height_edge 0
             (mkConfig 25 0 1 "dungeon" "cellular" no_parameters) eq_refl)
             eq_refl).
  - exact (proj1 (proj2 (zero_height_edge 0
             (mkConfig 25 0 1 "dungeon" "drunkard" no_parameters) eq_refl))
             eq_refl).
  - apply (proj2 (proj2 (zero_height_edge 0
             (mkConfig 25 0 1 "dungeon" "template" no_parameters) eq_refl)));
      [reflexivity | cbn; lia].
Defined.

(** ** The rooms of a partition *)

Lemma roomsBody_nonempty
    (self : Z -> Z -> Z -> Z -> Z -> Z -> M (list Room.t)) :
  (forall x y w h ms mr, ensures (self x y w h ms mr) (fun rooms => rooms <> [])) ->
  forall x y w h ms mr,
    ensures (roomsBody self x y w h ms mr) (fun rooms => rooms <> []).
Proof.
  intros Hself x y w h ms mr. unfold roomsBody. cbv zeta.
  destruct (_ || _ || _).
  - repeat (eapply ensures_bind; [apply ensures_true | intros ? _]).
    apply ensures_ret. discriminate.
  - eapply ensures_bind; [apply ensures_true | intros r _].
    destruct (_ && _); [|destruct (_ <=? _)].
    + eapply ensures_bind; [apply ensures_true | intros r' _].
      eapply ensures_bind; [apply Hself|]. intros top Htop.
      eapply ensures_bind; [apply ensures_true | intros bottom _].
      apply ensures_ret. destruct top; [congruence | discriminate].
    + eapply ensures_bind; [apply ensures_true | intros r' _].
      eapply ensures_bind; [apply Hself|]. intros left Hleft.
      eapply ensures_bind; [apply ensures_true | intros right _].
      apply ensures_ret. destruct left; [congruence | discriminate].
    + apply ensures_ret. discriminate.
Qed.

Lemma generateRoomsBSP_nonempty (fuel : nat) :
  forall x y w h ms mr,
    ensures (generateRoomsBSP fuel x y w h ms mr) (fun rooms => rooms <> []).
Proof.
  induction fuel as [|fuel IH]; intros x y w h ms mr.
  - intros s rooms s' E. discriminate E.
  - cbn [generateRoomsBSP]. apply roomsBody_nonempty, IH.
Qed.

(** X13: the rooms of a partition lie in the region partitioned.  For a
    minimum room size of at least 1 that fits the region both ways, and
    a stream state in [0, m), [generateRoomsBSP] returns at least one
    room, and every room it returns, after the adjustment of its width
    and height, lies inside the region [(x, y, w, h)] it was asked to
    partition, whatever [maxRooms] is. *)
Theorem bsp_rooms_lie_in_their_region (fuel : nat) (x y w h ms mr s : Z)
    (Hms : 1 <= ms) (Hw : ms <= w) (Hh : ms <= h)
    (Hfuel : Z.max 0 (w + h) < Z.of_nat fuel) (Hs : 0 <= s < Rng.m) :
  exists rooms s',
    generateRoomsBSP fuel x y w h ms mr s = Ok (rooms, s') /\
    0 <= s' < Rng.m /\ rooms <> [] /\
    Forall (room_within x y w h) rooms.
Proof.
  destruct (generateRoomsBSP_within fuel x y w h ms mr Hms Hw Hh Hfuel s Hs)
    as (rooms & s' & E & Hs' & Hin).
  exists rooms, s'. split; [exact E|]. split; [exact Hs'|].
  split; [|exact Hin].
  exact (generateRoomsBSP_nonempty fuel x y w h ms mr s rooms s' E).
Qed.

Lemma bsp_rooms_lie_in_their_region_witness :
  exists rooms s',
    generateRoomsBSP 20 1 1 8 8 4 8 (Rng.seededRandom 100000) = Ok (rooms, s') /\
    0 <= s' < Rng.m /\ rooms <> [] /\
    Forall (room_within 1 1 8 8) rooms.
Proof.
  apply (bsp_rooms_lie_in_their_region 20 1 1 8 8 4 8 (Rng.seededRandom 100000));
    try lia. vm_compute. split; [discriminate | reflexivity].
Defined.

(** ** The template is one walled room *)

Lemma set_walls_on_edge (w h : Z) (t : Grid) (x y : Z) (v : cell) :
  walls_on_edge w h t -> (v = Some "wall" -> on_edge w h x y) ->
  ensures (lift (set t y x v)) (walls_on_edge w h).
Proof.
  intros Ht Hv. apply ensures_lift. intros t' E x' y'.
  rewrite (cell_at_set t t' x y v E).
  destruct (decide _) as [[-> ->]|_]; [exact Hv | apply Ht].
Qed.

Lemma features_are_not_wall (c : GenerationConfig) :
  ~ In "wall" (getThemeFeatures c).
Proof.
  unfold getThemeFeatures. cbv zeta.
  repeat match goal with |- context [if ?b then _ else _] => destruct b end;
    cbn [In]; intros H;
    repeat (destruct H as [H|H]; [discriminate H|]); exact H.
Qed.

Lemma sprinkle_walls_on_edge (c : GenerationConfig) (p : Q) (w h : Z)
    (t : Grid) (x y : Z) :
  walls_on_edge w h t -> ensures (sprinkle c p t x y) (walls_on_edge w h).
Proof.
  intros Ht. unfold sprinkle. cbv zeta.
  eapply ensures_bind; [apply ensures_true | intros v _].
  destruct (cell_is v "empty"); [|apply ensures_ret, Ht].
  eapply ensures_bind; [apply ensures_true | intros r _].
  destruct (Qltb r p); [|apply ensures_ret, Ht].
  apply ensures_bind with (P := value_among (getThemeFeatures c));
    [apply pick_among|].
  intros f Hf. apply set_walls_on_edge; [exact Ht|].
  intros ->. exfalso. apply (features_are_not_wall c), Hf. reflexivity.
Qed.

Lemma generateTemplate_walls_on_edge (c : GenerationConfig) :
  ensures (generateTemplate c) (walls_on_edge (width c) (height c)).
Proof.
  unfold generateTemplate, varyTemplate, sprinkleInterior. cbv zeta.
  set (I := walls_on_edge (width c) (height c)).
  apply ensures_bind with (P := I).
  - unfold createBaseTemplate. cbv zeta.
    apply ensures_bind with (P := I).
    { eapply ensures_weaken; [apply (new_grid_among ["empty"]); left; reflexivity|].
      intros t Ht x y Hwall. apply Ht in Hwall.
      destruct Hwall as [Hwall|[]]. discriminate Hwall. }
    intros t0 Ht0. apply ensures_bind with (P := I).
    { apply ensures_forM; [exact Ht0 | intros y t1 Ht1].
      apply ensures_forM; [exact Ht1 | intros x t2 Ht2].
      destruct (_ && _); [|apply ensures_ret, Ht2].
      apply set_walls_on_edge; [exact Ht2 | discriminate]. }
    intros t1 Ht1. apply ensures_bind with (P := I).
    { apply ensures_forM; [exact Ht1 | intros x t2 Ht2].
      apply ensures_bind with (P := I).
      - apply set_walls_on_edge; [exact Ht2|]. intros _. unfold on_edge. tauto.
      - intros t3 Ht3. apply set_walls_on_edge; [exact Ht3|].
        intros _. unfold on_edge. tauto. }
    intros t2 Ht2. apply ensures_forM; [exact Ht2 | intros y t3 Ht3].
    apply ensures_bind with (P := I).
    + apply set_walls_on_edge; [exact Ht3|]. intros _. unfold on_edge. tauto.
    + intros t4 Ht4. apply set_walls_on_edge; [exact Ht4|].
      intros _. unfold on_edge. tauto.
  - intros t Ht. unfold for_lt.
    apply ensures_forM; [exact Ht | intros y t1 Ht1].
    eapply ensures_bind; [apply ensures_true | intros w0 _].
    apply ensures_forM; [exact Ht1 | intros x t2 Ht2].
    apply sprinkle_walls_on_edge, Ht2.
Qed.

(** X14: the template is one walled room.  For every seed and theme, on
    a grid of at least one row and one column [generate()] returns
    [height] rows of [width] cells in which a cell holds ['wall'] exactly
    when it lies on one of the four edges: the edge is closed and no
    variation puts a wall inside. *)
Theorem template_is_a_walled_room (c : GenerationConfig) (fuel : nat)
    (Halg : algorithm c = "template")
    (Hw : 1 <= width c < 2 ^ 32) (Hh : 1 <= height c < 2 ^ 32) :
  exists terrain g',
    generate fuel (new_TerrainGenerator c) = Ok (terrain, g') /\
    height_of terrain = height c /\
    Forall (fun row => len row = width c) terrain /\
    forall x y, 0 <= x < width c -> 0 <= y < height c ->
      (cell_at terrain x y = Some "wall" <-> on_edge (width c) (height c) x y).
Proof.
  assert (H : returns (generateTemplate c) (walled (width c) (height c))).
  { unfold generateTemplate.
    apply returns_bind with (1 := createBaseTemplate_walled c Hw Hh).
    intros t [Hs He]. unfold varyTemplate.
    apply sprinkleInterior_edged; [lia | exact Hs | exact He]. }
  destruct (H (Rng.seededRandom (seed c))) as (terrain & s' & E & [Hh' Hrows] & He).
  exists terrain, (mkGenerator c s'). split; [|split; [exact Hh' | split; [exact Hrows|]]].
  - unfold generate, generate_body, new_TerrainGenerator; cbn [config stream].
    rewrite Halg. cbn [String.eqb Ascii.eqb Bool.eqb]. rewrite E. reflexivity.
  - intros x y Hx Hy. split.
    + apply (generateTemplate_walls_on_edge c _ _ _ E).
    + apply He; assumption.
Qed.

Lemma template_is_a_walled_room_witness :
  exists terrain g',
    generate 0 (new_TerrainGenerator template_12x9) = Ok (terrain, g') /\
    height_of terrain = 9 /\
    Forall (fun row => len row = 12) terrain /\
    forall x y, 0 <= x < 12 -> 0 <= y < 9 ->
      (cell_at terrain x y = Some "wall" <-> on_edge 12 9 x y).
Proof.
  apply (template_is_a_walled_room template_12x9 0); [reflexivity | cbn; lia ..].
Defined.

(** ** The partition layouts keep their border *)

(** X15: with corridors one cell wide the partition layouts keep their
    border.  For the [bsp] and [mixed] algorithms, a non-negative seed, a
    minimum room size of at least 1, the default corridor width and a
    grid that leaves room for a minimum room inside the border ring,
    [generate()] returns [height] rows of [width] cells whose edge cells
    all hold ['difficult']. *)
Theorem partition_keeps_its_border (c : GenerationConfig) (fuel : nat)
    (Halg : algorithm c = "bsp" \/ algorithm c = "mixed")
    (Hseed : 0 <= seed c)
    (Hms : 1 <= or_default (minRoomSize (parameters c)) 4)
    (Hcw : or_default (corridorWidth (parameters c)) 1 = 1)
    (Hw : or_default (minRoomSize (parameters c)) 4 + 2 <= width c < 2 ^ 32)
    (Hh : or_default (minRoomSize (parameters c)) 4 + 2 <= height c < 2 ^ 32)
    (Hfuel : enough_fuel c fuel) :
  exists terrain g',
    generate fuel (new_TerrainGenerator c) = Ok (terrain, g') /\
    height_of terrain = height c /\
    Forall (fun row => len row = width c) terrain /\
    forall x y, 0 <= x < width c -> 0 <= y < height c ->
      on_edge (width c) (height c) x y ->
      cell_at terrain x y = Some "difficult".
Proof.
  pose proof (generateBSP_bordered fuel c Hms Hcw Hw Hh Hfuel) as Hbsp.
  assert (Hmixed : succeeds (generateMixed fuel c)
            (fun t => shaped (width c) (height c) t /\
                      edged "difficult" (width c) (height c) t)).
  { unfold generateMixed. apply succeeds_bind with (1 := Hbsp).
    intros t [Hs He]. unfold addCellularFeaturesToBSP.
    apply returns_succeeds; [|apply sprinkleInterior_completes].
    apply sprinkleInterior_edged; [lia | exact Hs | exact He]. }
  assert (Hrange : in_range (Rng.seededRandom (seed c)))
    by apply seededRandom_in_range, Hseed.
  assert (H : exists terrain s',
            generate_body fuel c (Rng.seededRandom (seed c)) = Ok (terrain, s') /\
            shaped (width c) (height c) terrain /\
            edged "difficult" (width c) (height c) terrain).
  { unfold generate_body. cbv zeta.
    destruct Halg as [-> | ->]; cbn [String.eqb Ascii.eqb Bool.eqb].
    - destruct (Hbsp _ Hrange) as (t & s' & E & _ & H). eauto.
    - destruct (Hmixed _ Hrange) as (t & s' & E & _ & H). eauto. }
  destruct H as (terrain & s' & E & [Hh' Hrows] & He).
  exists terrain, (mkGenerator c s').
  split; [|split; [exact Hh' | split; [exact Hrows | exact He]]].
  unfold generate, new_TerrainGenerator; cbn [config stream].
  rewrite E. reflexivity.
Qed.

Lemma partition_keeps_its_border_witness :
  exists terrain g',
    generate 20 (new_TerrainGenerator mixed_10x10) = Ok (terrain, g') /\
    height_of terrain = 10 /\
    Forall (fun row => len row = 10) terrain /\
    forall x y, 0 <= x < 10 -> 0 <= y < 10 -> on_edge 10 10 x y ->
      cell_at terrain x y = Some "difficult".
Proof.
  apply (partition_keeps_its_border mixed_10x10 20);
    [right; reflexivity | cbn; lia | cbn; lia | reflexivity
    | cbn; lia | cbn; lia | unfold enough_fuel; cbn; lia].
Defined.

(** ** The encounter budget *)

Lemma spend_spec (fuel : nat) (cost cap : Z) :
  0 < cost ->
  forall count remainingXP,
    bought cost (cap - count) remainingXP <= Z.of_nat fuel ->
    EncounterBalancer.spend fuel cost cap count remainingXP
    = Ok (count + bought cost (cap - count) remainingXP,
          remainingXP - cost * bought cost (cap - count) remainingXP).
Proof.
  intros Hcost. unfold bought.
  induction fuel as [|fuel IH]; intros count rem Hfuel.
  - cbn [EncounterBalancer.spend].
    destruct ((cost <=? rem) && (count <? cap)) eqn:E.
    + apply andb_true_iff in E. destruct E as [E1 E2].
      apply Z.leb_le in E1. apply Z.ltb_lt in E2.
      assert (1 <= rem / cost) by (apply Z.div_le_lower_bound; lia). lia.
    + assert (Hk : Z.max 0 (Z.min (cap - count) (rem / cost)) = 0).
      { apply andb_false_iff in E. destruct E as [E|E].
        - apply Z.leb_gt in E.
          assert (rem / cost <= 0).
          { destruct (Z_lt_le_dec rem 0).
            - pose proof (Z.div_lt_upper_bound rem cost 0 Hcost ltac:(lia)). lia.
            - rewrite Z.div_small by lia. lia. }
          lia.
        - apply Z.ltb_ge in E. lia. }
      rewrite Hk. f_equal. f_equal; lia.
  - cbn [EncounterBalancer.spend].
    destruct ((cost <=? rem) && (count <? cap)) eqn:E.
    + apply andb_true_iff in E. destruct E as [E1 E2].
      apply Z.leb_le in E1. apply Z.ltb_lt in E2.
      assert (Hdiv : (rem - cost) / cost = rem / cost - 1).
      { replace (rem - cost) with (rem + (-1) * cost) by lia.
        rewrite Z.div_add by lia. lia. }
      assert (1 <= rem / cost) by (apply Z.div_le_lower_bound; lia).
      rewrite IH.
      * rewrite Hdiv. f_equal. f_equal; lia.
      * rewrite Hdiv. lia.
    + assert (Hk : Z.max 0 (Z.min (cap - count) (rem / cost)) = 0).
      { apply andb_false_iff in E. destruct E as [E|E].
        - apply Z.leb_gt in E.
          assert (rem / cost <= 0).
          { destruct (Z_lt_le_dec rem 0).
            - pose proof (Z.div_lt_upper_bound rem cost 0 Hcost ltac:(lia)). lia.
            - rewrite Z.div_small by lia. lia. }
          lia.
        - apply Z.ltb_ge in E. lia. }
      rewrite Hk. f_equal. f_equal; lia.
Qed.

Lemma bought_bounds (cost cap budget : Z) :
  0 < cost ->
  0 <= bought cost cap budget <= Z.max 0 cap /\
  cost * bought cost cap budget <= Z.max 0 budget /\
  bought cost cap budget <= Z.max 0 budget.
Proof.
  intros Hcost. unfold bought.
  destruct (Z_lt_le_dec budget 0) as [Hneg|Hpos].
  - assert (budget / cost < 0) by (apply Z.div_lt_upper_bound; lia). lia.
  - assert (0 <= budget / cost) by (apply Z.div_pos; lia).
    assert (cost * (budget / cost) <= budget) by (apply Z.mul_div_le; lia).
    assert (budget / cost <= budget) by (apply Z.div_le_upper_bound; nia).
    split; [lia|]. split; [nia | lia].
Qed.

(** X16: the monster composition is the greedy purchase within budget
    and caps.  For every difficulty and XP budget, elites are bought
    first at 200 XP, then standards at 100 XP, then minions at 25 XP, each
    as many as the remaining budget pays for up to the cap of the role,
    and one solo is added when at least 500 XP remain and the difficulty
    allows solos.  No count exceeds its cap, at most one solo is placed,
    and the composition never costs more than the budget. *)
Theorem monster_composition_is_greedy (fuel : nat)
    (d : EncounterBalancer.EncounterDifficulty) (xpBudget : Z)
    (Hfuel : xpBudget <= Z.of_nat fuel) :
  let caps := EncounterBalancer.roleDistribution d in
  let e := bought 200 (EncounterBalancer.elites caps) xpBudget in
  let s := bought 100 (EncounterBalancer.standards caps) (xpBudget - 200 * e) in
  let m := bought 25 (EncounterBalancer.minions caps)
                  (xpBudget - 200 * e - 100 * s) in
  let rest := xpBudget - 200 * e - 100 * s - 25 * m in
  let o := if (500 <=? rest) && (0 <? EncounterBalancer.solos caps)
           then 1 else 0 in
  EncounterBalancer.generateMonsterComposition fuel d xpBudget
  = Ok (EncounterBalancer.mkRoles m s e o) /\
  (0 <= e <= Z.max 0 (EncounterBalancer.elites caps) /\
   0 <= s <= Z.max 0 (EncounterBalancer.standards caps) /\
   0 <= m <= Z.max 0 (EncounterBalancer.minions caps) /\
   0 <= o <= 1) /\
  composition_cost (EncounterBalancer.mkRoles m s e o) <= Z.max 0 xpBudget.
Proof.
  intros caps e s m rest o.
  destruct (bought_bounds 200 (EncounterBalancer.elites caps) xpBudget)
    as (He & Hce & Hfe); [lia|]. fold e in He, Hce, Hfe.
  destruct (bought_bounds 100 (EncounterBalancer.standards caps)
              (xpBudget - 200 * e)) as (Hs & Hcs & Hfs); [lia|].
  fold s in Hs, Hcs, Hfs.
  destruct (bought_bounds 25 (EncounterBalancer.minions caps)
              (xpBudget - 200 * e - 100 * s)) as (Hm & Hcm & Hfm); [lia|].
  fold m in Hm, Hcm, Hfm.
  split; [|split].
  - unfold EncounterBalancer.generateMonsterComposition. cbv zeta. fold caps.
    rewrite spend_spec; [|lia | rewrite Z.sub_0_r; fold e; lia].
    rewrite Z.sub_0_r, Z.add_0_l. fold e. cbn [rbind].
    rewrite spend_spec; [|lia | rewrite Z.sub_0_r; fold s; lia].
    rewrite Z.sub_0_r, Z.add_0_l. fold s. cbn [rbind].
    rewrite spend_spec; [|lia | rewrite Z.sub_0_r; fold m; lia].
    rewrite Z.sub_0_r, Z.add_0_l. fold m. cbn [rbind]. reflexivity.
  - repeat split; try lia; subst o; destruct (_ && _); lia.
  - unfold composition_cost. cbn [EncounterBalancer.elites
      EncounterBalancer.standards EncounterBalancer.minions
      EncounterBalancer.solos].
    subst o. destruct ((500 <=? rest) && _) eqn:E.
    + apply andb_true_iff in E. destruct E as [E _]. apply Z.leb_le in E.
      subst rest. lia.
    + lia.
Qed.

Lemma monster_composition_is_greedy_witness :
  EncounterBalancer.generateMonsterComposition 2000
    (EncounterBalancer.getDifficultyConfig 5) 2000
  = Ok (EncounterBalancer.mkRoles 20 5 2 1) /\
  (0 <= 2 <= 2 /\ 0 <= 5 <= 5 /\ 0 <= 20 <= 20 /\ 0 <= 1 <= 1) /\
  composition_cost (EncounterBalancer.mkRoles 20 5 2 1) <= 2000.
Proof.
  apply (monster_composition_is_greedy 2000
           (EncounterBalancer.getDifficultyConfig 5) 2000). lia.
Defined.

(** The budget of an integer level and player count is 100 XP per level
    and player. *)
Lemma calculateXPBudget_value (level playerCount : Z) :
  EncounterBalancer.calculateXPBudget
    (EncounterBalancer.getDifficultyConfig level) playerCount
  = 100 * level * playerCount.
Proof.
  unfold EncounterBalancer.calculateXPBudget,
    EncounterBalancer.getDifficultyConfig. cbv zeta.
  cbn [EncounterBalancer.xpBudget].
  rewrite <- (Qfloor_Z (100 * level * playerCount)).
  apply Qfloor_comp. unfold Qeq, Qdiv, Qmult, Qinv, inject_Z.
  cbn [Qnum Qden]. lia.
Qed.

(** The caps [minMonsters] and [maxMonsters] of a difficulty are not read
    by the composition: at level 1 with four players it holds five
    monsters, one more than [maxMonsters]. *)
Example composition_exceeds_maxMonsters :
  let d := EncounterBalancer.getDifficultyConfig 1 in
  EncounterBalancer.maxMonsters d = 4 /\
  EncounterBalancer.generateMonsterComposition 400 d
    (EncounterBalancer.calculateXPBudget d 4)
  = Ok (EncounterBalancer.mkRoles 4 1 0 0).
Proof. split; vm_compute; reflexivity. Qed.

(** ** Candidate positions *)

(** The body of the loop over [x]: an eligible position is pushed with
    its description, another one is skipped. *)
Lemma analyze_cell (t : Grid) (x y : Z)
    (positions : list EncounterBalancer.TacticalPosition) :
  0 <= y < height_of t ->
  exists l,
    rbind (EncounterBalancer.isSuitableForMonster t x y) (fun suitable =>
      if suitable then
        rbind (EncounterBalancer.calculateTacticalValue t x y) (fun tacticalValue =>
        rbind (get t y x) (fun terrainType =>
        rbind (EncounterBalancer.calculateCover t x y) (fun cover =>
        rbind (EncounterBalancer.calculateFlanking t x y) (fun flanking =>
        rbind (EncounterBalancer.calculateMobility t x y) (fun mobility =>
        Ok (positions ++
            [EncounterBalancer.mkPosition (x, y) tacticalValue terrainType
               cover flanking mobility]))))))
      else Ok positions)
    = Ok (positions ++ l) /\
    EncounterBalancer.position <$> l
    = List.filter (fun '(x, y) => eligible t x y) [(x, y)] /\
    Forall (describes t) l.
Proof.
  intros Hrow. assert (Hh : 0 < height_of t) by lia.
  rewrite isSuitableForMonster_spec by exact Hrow. cbn [rbind List.filter].
  destruct (eligible t x y) eqn:El.
  - destruct (calculateTacticalValue_spec t x y Hrow) as (value & Ev & Hv).
    destruct (calculateCover_spec t x y Hh) as (cover & Ec & Hc).
    rewrite Ev. cbn [rbind]. rewrite get_inside by exact Hrow. cbn [rbind].
    rewrite Ec. cbn [rbind].
    rewrite calculateFlanking_spec by exact Hh. cbn [rbind].
    rewrite calculateMobility_spec by exact Hh. cbn [rbind].
    eexists [_]. split; [reflexivity|]. split; [reflexivity|].
    apply Forall_singleton. unfold describes.
    cbn [EncounterBalancer.position EncounterBalancer.tacticalValue
         EncounterBalancer.terrainType EncounterBalancer.cover
         EncounterBalancer.flanking EncounterBalancer.mobility].
    repeat split; assumption || reflexivity.
  - exists []. rewrite app_nil_r. split; [reflexivity|].
    split; [reflexivity | constructor].
Qed.

Lemma analyze_row (t : Grid) (y : Z) (xs : list Z) :
  0 <= y < height_of t ->
  forall positions,
  exists l,
    EncounterBalancer.rforM xs (fun x positions =>
      rbind (EncounterBalancer.isSuitableForMonster t x y) (fun suitable =>
      if suitable then
        rbind (EncounterBalancer.calculateTacticalValue t x y) (fun tacticalValue =>
        rbind (get t y x) (fun terrainType =>
        rbind (EncounterBalancer.calculateCover t x y) (fun cover =>
        rbind (EncounterBalancer.calculateFlanking t x y) (fun flanking =>
        rbind (EncounterBalancer.calculateMobility t x y) (fun mobility =>
        Ok (positions ++
            [EncounterBalancer.mkPosition (x, y) tacticalValue terrainType
               cover flanking mobility]))))))
      else Ok positions)) positions
    = Ok (positions ++ l) /\
    EncounterBalancer.position <$> l
    = List.filter (fun '(x, y) => eligible t x y) ((fun x => (x, y)) <$> xs) /\
    Forall (describes t) l.
Proof.
  intros Hrow. induction xs as [|x xs IH]; intros positions.
  - exists []. rewrite app_nil_r. split; [reflexivity|].
    split; [reflexivity | constructor].
  - cbn [EncounterBalancer.rforM].
    destruct (analyze_cell t x y positions Hrow) as (l1 & E1 & P1 & D1).
    rewrite E1. cbn [rbind].
    destruct (IH (positions ++ l1)) as (l2 & E2 & P2 & D2).
    exists (l1 ++ l2). rewrite E2, app_assoc. split; [reflexivity|].
    split; [|apply Forall_app; split; assumption].
    rewrite fmap_app, P1, P2. cbn [fmap list_fmap List.filter].
    destruct (eligible t x y); reflexivity.
Qed.

Lemma analyze_rows (t : Grid) (ys : list Z) :
  (forall y, y ∈ ys -> 0 <= y < height_of t) ->
  forall positions,
  exists l,
    EncounterBalancer.rforM ys (fun y positions =>
      rbind (width_of t) (fun w0 =>
      EncounterBalancer.rforM (seqZ 0 w0) (fun x positions =>
        rbind (EncounterBalancer.isSuitableForMonster t x y) (fun suitable =>
        if suitable then
          rbind (EncounterBalancer.calculateTacticalValue t x y) (fun tacticalValue =>
          rbind (get t y x) (fun terrainType =>
          rbind (EncounterBalancer.calculateCover t x y) (fun cover =>
          rbind (EncounterBalancer.calculateFlanking t x y) (fun flanking =>
          rbind (EncounterBalancer.calculateMobility t x y) (fun mobility =>
          Ok (positions ++
              [EncounterBalancer.mkPosition (x, y) tacticalValue terrainType
                 cover flanking mobility]))))))
        else Ok positions)) positions)) positions
    = Ok (positions ++ l) /\
    EncounterBalancer.position <$> l
    = List.filter (fun '(x, y) => eligible t x y)
        (y ← ys; x ← seqZ 0 (match t with r :: _ => len r | [] => 0 end);
         [(x, y)]) /\
    Forall (describes t) l.
Proof.
  induction ys as [|y ys IH]; intros Hys positions.
  - exists []. rewrite app_nil_r. split; [reflexivity|].
    split; [reflexivity | constructor].
  - cbn [EncounterBalancer.rforM].
    assert (Hy : 0 <= y < height_of t)
      by (apply Hys, elem_of_cons; left; reflexivity).
    assert (Hrow : exists l1,
      rbind (width_of t) (fun w0 =>
      EncounterBalancer.rforM (seqZ 0 w0) (fun x positions =>
        rbind (EncounterBalancer.isSuitableForMonster t x y) (fun suitable =>
        if suitable then
          rbind (EncounterBalancer.calculateTacticalValue t x y) (fun tacticalValue =>
          rbind (get t y x) (fun terrainType =>
          rbind (EncounterBalancer.calculateCover t x y) (fun cover =>
          rbind (EncounterBalancer.calculateFlanking t x y) (fun flanking =>
          rbind (EncounterBalancer.calculateMobility t x y) (fun mobility =>
          Ok (positions ++
              [EncounterBalancer.mkPosition (x, y) tacticalValue terrainType
                 cover flanking mobility]))))))
        else Ok positions)) positions)
      = Ok (positions ++ l1) /\
      EncounterBalancer.position <$> l1
      = List.filter (fun '(x, y) => eligible t x y)
          ((fun x => (x, y)) <$>
             seqZ 0 (match t with r :: _ => len r | [] => 0 end)) /\
      Forall (describes t) l1).
    { assert (Hw : width_of t
                   = Ok (match t with r :: _ => len r | [] => 0 end)).
      { destruct t as [|r t'];
          [change (height_of []) with 0 in Hy; lia | reflexivity]. }
      rewrite Hw. cbn [rbind]. apply analyze_row, Hy. }
    destruct Hrow as (l1 & E1 & P1 & D1).
    rewrite E1. cbn [rbind].
    destruct (IH (fun y' H => Hys y' (proj2 (elem_of_cons _ _ _) (or_intror H)))
                 (positions ++ l1)) as (l2 & E2 & P2 & D2).
    exists (l1 ++ l2). rewrite E2, app_assoc. split; [reflexivity|].
    split; [|apply Forall_app; split; assumption].
    rewrite fmap_app, P1, P2. cbn [mbind list_bind].
    rewrite List.filter_app. f_equal.
Qed.

Lemma analyzeAllPositions_spec (t : Grid) :
  exists l,
    EncounterBalancer.analyzeAllPositions t = Ok l /\
    EncounterBalancer.position <$> l
    = List.filter (fun '(x, y) => eligible t x y) (scan_order t) /\
    Forall (describes t) l.
Proof.
  destruct (analyze_rows t (seqZ 0 (height_of t))) with (positions := @nil EncounterBalancer.TacticalPosition)
    as (l & E & P & D).
  { intros y Hy. apply elem_of_seqZ in Hy. lia. }
  exists l. split; [exact E|]. split; [exact P | exact D].
Qed.

(** X17: [analyzeAllPositions] lists the eligible cells.  On every grid
    it throws nothing and returns, in row-major order over the width of
    the first row, exactly the positions that are eligible for a monster,
    each with its tactical value, terrain, cover, flanking and mobility
    (the value and the mobility being [NaN] where the scorer computes
    [NaN]); on a grid without rows it returns nothing. *)
Theorem analyzeAllPositions_lists_the_eligible_cells (t : Grid) :
  exists l,
    EncounterBalancer.analyzeAllPositions t = Ok l /\
    EncounterBalancer.position <$> l
    = List.filter (fun '(x, y) => eligible t x y) (scan_order t) /\
    Forall (describes t) l.
Proof.
  destruct (analyze_rows t (seqZ 0 (height_of t)))
    with (positions := @nil EncounterBalancer.TacticalPosition)
    as (l & E & P & D).
  { intros y Hy. apply elem_of_seqZ in Hy. lia. }
  exists l. split; [exact E|]. split; [exact P | exact D].
Qed.

(** ** Grids of terrain ids *)

Lemma ordinary_cell (t : Grid) (x y : Z) :
  ordinary t = true -> plain (cell_at t x y) = true.
Proof.
  intros Ho. unfold cell_at, row_at.
  destruct (y <? 0); [reflexivity|].
  destruct (t !! Z.to_nat y) as [row|] eqn:Er; [|reflexivity].
  unfold arr_get. destruct (cells row !! x) as [name|] eqn:Ec; [|reflexivity].
  unfold ordinary in Ho. rewrite List.forallb_forall in Ho.
  specialize (Ho row). rewrite <- list_elem_of_In in Ho.
  specialize (Ho (list_elem_of_lookup_2 _ _ _ Er)).
  rewrite List.forallb_forall in Ho.
  specialize (Ho (x, name)). rewrite <- list_elem_of_In in Ho.
  apply Ho. apply elem_of_map_to_list. exact Ec.
Qed.

Lemma Qltb_true (p q : Q) : Qltb p q = true <-> (p < q)%Q.
Proof.
  unfold Qltb. destruct (Qlt_le_dec p q) as [H|H].
  - split; [intros _; exact H | reflexivity].
  - split; [discriminate | intros H'; exfalso; apply (Qlt_not_le _ _ H'), H].
Qed.

(** What a plain neighbour adds to the mobility is a number, at most 2
    when the neighbour can be entered. *)
Lemma ease_plain (c : cell) :
  plain c = true ->
  exists k, ease c = Some k /\ 0 <= k /\ (walkable c = true -> k <= 2).
Proof.
  unfold plain, ease, walkable, TerrainUtils.getMovementCost,
    TerrainUtils.blocksMovement, TerrainUtils.getTerrain.
  set (key := match c with Some s => s | None => "undefined" end).
  intros Hp.
  assert (Hk : inherited key = false).
  { subst key. destruct c as [name|]; [|reflexivity].
    destruct (inherited name); [discriminate Hp | reflexivity]. }
  clear Hp. revert Hk. generalize key. clear. intros key Hk.
  unfold TERRAIN_TYPES. cbn [List.find fst snd].
  repeat (match goal with
          | |- context [String.eqb ?a key] => destruct (String.eqb a key)
          end;
          [cbn; eexists; split; [reflexivity|];
           split; [lia | intros H; try discriminate H; lia]|]).
  rewrite Hk. cbn. eexists. split; [reflexivity|].
  split; [lia | discriminate].
Qed.

Lemma neighbour_nan_sum_range (offsets : list (Z * Z)) (t : Grid) (x y : Z)
    (weight : Z -> Z -> cell -> option Z) (hi : Z) :
  0 <= hi ->
  (forall nx ny, exists k,
     weight nx ny (cell_at t nx ny) = Some k /\ 0 <= k <= hi) ->
  exists total,
    neighbour_nan_sum offsets t x y weight = Some total /\
    0 <= total <= hi * Z.of_nat (length offsets).
Proof.
  intros Hhi Hw. unfold neighbour_nan_sum.
  induction offsets as [|[dx dy] l IH]; cbn [fmap list_fmap foldr length].
  - exists 0. split; [reflexivity | lia].
  - destruct IH as (total & -> & Ht).
    destruct (inside t (x + dx) (y + dy)).
    + destruct (Hw (x + dx) (y + dy)) as (k & -> & Hk).
      exists (k + total). split; [reflexivity | lia].
    + exists (0 + total). split; [reflexivity | lia].
Qed.

(** On a grid of terrain ids the mobility is a number between 0 and 8. *)
Lemma mobility_of_ordinary (t : Grid) (x y : Z) :
  ordinary t = true ->
  exists mobility, mobility_of t x y = Some mobility /\ 0 <= mobility <= 8.
Proof.
  intros Ho. unfold mobility_of.
  destruct (neighbour_nan_sum_range cardinal t x y
              (fun _ _ c => if walkable c then ease c else Some 0) 2)
    as (total & E & Ht); [lia| |].
  - intros nx ny.
    destruct (ease_plain (cell_at t nx ny) (ordinary_cell t nx ny Ho))
      as (k & Ek & Hk0 & Hk2).
    destruct (walkable (cell_at t nx ny)).
    + exists k. split; [exact Ek | split; [exact Hk0 | apply Hk2; reflexivity]].
    + exists 0. split; [reflexivity | lia].
  - exists total. split; [exact E|]. cbn [length cardinal] in Ht. lia.
Qed.

Lemma tactical_value_ordinary (t : Grid) (x y : Z) :
  ordinary t = true -> is_Some (tactical_value t x y).
Proof.
  intros Ho. unfold tactical_value.
  destruct (mobility_of_ordinary t x y Ho) as (mobility & -> & _).
  eexists. reflexivity.
Qed.

Lemma describes_number (t : Grid) (p : EncounterBalancer.TacticalPosition) :
  ordinary t = true -> describes t p ->
  is_Some (EncounterBalancer.tacticalValue p).
Proof.
  intros Ho. unfold describes.
  destruct (EncounterBalancer.position p) as [x y].
  intros (_ & Hv & _).
  destruct (tactical_value_ordinary t x y Ho) as [v Ev]. rewrite Ev in Hv.
  destruct (EncounterBalancer.tacticalValue p) as [q|];
    [eexists; reflexivity | contradiction Hv].
Qed.

(** ** The positions chosen *)

Lemma insert_position_perm (a : EncounterBalancer.TacticalPosition)
    (l : list EncounterBalancer.TacticalPosition) :
  EncounterBalancer.insert_position a l ≡ₚ a :: l.
Proof.
  induction l as [|b l IH]; cbn [EncounterBalancer.insert_position];
    [reflexivity|].
  destruct (Qltb _ _); [|reflexivity].
  rewrite IH. apply Permutation_swap.
Qed.

Lemma sort_positions_perm (l : list EncounterBalancer.TacticalPosition) :
  EncounterBalancer.sort_positions l ≡ₚ l.
Proof.
  unfold EncounterBalancer.sort_positions.
  induction l as [|a l IH]; [reflexivity|].
  cbn [foldr]. rewrite insert_position_perm, IH. reflexivity.
Qed.

Lemma outranks_trans (a b c : EncounterBalancer.TacticalPosition) :
  outranks a b -> outranks b c -> outranks a c.
Proof.
  unfold outranks.
  destruct (EncounterBalancer.tacticalValue a),
    (EncounterBalancer.tacticalValue b),
    (EncounterBalancer.tacticalValue c); try contradiction.
  intros H1 H2. eapply Qle_trans; eassumption.
Qed.

(** When the values are numbers, an insertion keeps the descending
    order. *)
Lemma insert_position_sorted (a : EncounterBalancer.TacticalPosition)
    (l : list EncounterBalancer.TacticalPosition) :
  is_Some (EncounterBalancer.tacticalValue a) ->
  Forall (fun p => is_Some (EncounterBalancer.tacticalValue p)) l ->
  StronglySorted outranks l ->
  StronglySorted outranks (EncounterBalancer.insert_position a l).
Proof.
  intros [va Ha]. induction l as [|b l IH]; intros Hn Hs;
    cbn [EncounterBalancer.insert_position].
  - apply SSorted_cons; constructor.
  - apply StronglySorted_inv in Hs. destruct Hs as [Hl Hb].
    apply Forall_cons in Hn. destruct Hn as [[vb Hvb] Hn].
    unfold EncounterBalancer.compare_positions. rewrite Ha, Hvb.
    cbn [num_sub].
    destruct (Qltb 0 (vb - va)) eqn:E.
    + assert (Hba : outranks b a).
      { unfold outranks. rewrite Ha, Hvb. apply Qltb_true in E.
        apply Qlt_le_weak. apply (Qplus_lt_l _ _ va) in E.
        ring_simplify in E. exact E. }
      apply SSorted_cons; [apply IH; assumption|].
      apply Forall_forall. intros c Hc.
      rewrite insert_position_perm in Hc. apply elem_of_cons in Hc.
      destruct Hc as [-> | Hc]; [exact Hba|].
      rewrite Forall_forall in Hb. apply Hb, Hc.
    + assert (Hab : outranks a b).
      { unfold outranks. rewrite Ha, Hvb.
        destruct (Qlt_le_dec va vb) as [Hlt|Hle]; [|exact Hle].
        exfalso. assert (Ht : Qltb 0 (vb - va) = true).
        { apply Qltb_true. apply (Qplus_lt_l _ _ va). ring_simplify.
          exact Hlt. }
        congruence. }
      apply SSorted_cons; [apply SSorted_cons; assumption|].
      apply List.Forall_cons; [exact Hab|].
      eapply List.Forall_impl; [|exact Hb].
      intros c Hc. eapply outranks_trans; eassumption.
Qed.

Lemma sort_positions_sorted (l : list EncounterBalancer.TacticalPosition) :
  Forall (fun p => is_Some (EncounterBalancer.tacticalValue p)) l ->
  StronglySorted outranks (EncounterBalancer.sort_positions l).
Proof.
  unfold EncounterBalancer.sort_positions.
  induction l as [|a l IH]; intros Hn; [constructor|].
  apply Forall_cons in Hn. destruct Hn as [Ha Hn].
  cbn [foldr]. apply insert_position_sorted; [exact Ha | | apply IH, Hn].
  fold (EncounterBalancer.sort_positions l).
  rewrite sort_positions_perm. exact Hn.
Qed.

Lemma sorted_app {A} (R : A -> A -> Prop) (l1 l2 : list A) :
  StronglySorted R (l1 ++ l2) ->
  StronglySorted R l1 /\ forall p q, p ∈ l1 -> q ∈ l2 -> R p q.
Proof.
  induction l1 as [|a l1 IH]; cbn [app]; intros Hs.
  - split; [constructor|]. intros p q Hp. apply elem_of_nil in Hp. contradiction.
  - apply StronglySorted_inv in Hs. destruct Hs as [Hl Ha].
    destruct (IH Hl) as [Hs1 Hcross]. split.
    + apply SSorted_cons; [exact Hs1|].
      rewrite List.Forall_forall in *. intros x Hx. apply Ha.
      apply in_or_app. left. exact Hx.
    + intros p q Hp Hq. apply elem_of_cons in Hp. destruct Hp as [-> | Hp].
      * rewrite List.Forall_forall in Ha. apply Ha, in_or_app. right.
        apply list_elem_of_In, Hq.
      * apply Hcross; assumption.
Qed.

Lemma scan_order_NoDup (t : Grid) : NoDup (scan_order t).
Proof.
  unfold scan_order. apply NoDup_bind; [| |apply NoDup_seqZ].
  - intros y1 y2 [x y] _ _ H1 H2.
    apply list_elem_of_bind in H1. destruct H1 as (x1 & H1 & _).
    apply list_elem_of_bind in H2. destruct H2 as (x2 & H2 & _).
    apply list_elem_of_singleton in H1, H2. congruence.
  - intros x _. apply NoDup_bind; [| |apply NoDup_seqZ].
    + intros x1 x2 p _ _ H1 H2.
      apply list_elem_of_singleton in H1, H2. congruence.
    + intros x' _. apply NoDup_singleton.
Qed.

(** X18: [findTacticalPositions] takes the best candidates.  On a grid
    none of whose cells is named after a member of [Object.prototype],
    so that every tactical value is a number, and for every composition,
    it returns as many positions as the composition has monsters, or all
    the candidates when there are fewer; they are taken among the
    positions [analyzeAllPositions] lists, each at most once, so no two
    lie on the same cell; they come in descending order of tactical
    value; and no candidate left out is worth more than one that was
    taken. *)
Theorem findTacticalPositions_takes_the_best (t : Grid)
    (composition : EncounterBalancer.RoleDistribution)
    (Hids : ordinary t = true) :
  let totalMonsters :=
    EncounterBalancer.minions composition
    + EncounterBalancer.standards composition
    + EncounterBalancer.elites composition
    + EncounterBalancer.solos composition in
  exists candidates chosen,
    EncounterBalancer.analyzeAllPositions t = Ok candidates /\
    EncounterBalancer.findTacticalPositions t composition = Ok chosen /\
    Z.of_nat (length chosen)
    = Z.max 0 (Z.min totalMonsters (Z.of_nat (length candidates))) /\
    chosen ⊆+ candidates /\
    Forall (describes t) chosen /\
    NoDup (EncounterBalancer.position <$> chosen) /\
    StronglySorted outranks chosen /\
    (forall p q, p ∈ chosen -> q ∈ candidates -> q ∉ chosen -> outranks p q).
Proof.
  intros total.
  destruct (analyzeAllPositions_spec t) as (candidates & E & Hpos & Hdesc).
  set (sorted := EncounterBalancer.sort_positions candidates).
  set (k := Z.to_nat (Z.min total (Z.of_nat (length sorted)))).
  exists candidates, (take k sorted).
  assert (Hperm : sorted ≡ₚ candidates) by apply sort_positions_perm.
  assert (Hnum : Forall (fun p => is_Some (EncounterBalancer.tacticalValue p))
                        candidates).
  { eapply Forall_impl; [exact Hdesc|].
    intros p Hp. apply (describes_number t p Hids Hp). }
  assert (Hsorted : StronglySorted outranks (take k sorted ++ drop k sorted)).
  { rewrite take_drop. apply sort_positions_sorted, Hnum. }
  apply sorted_app in Hsorted. destruct Hsorted as [Hs Hcross].
  assert (Hsub : take k sorted ⊆+ candidates).
  { rewrite <- Hperm. apply submseteq_take. }
  split; [exact E|]. split.
  { unfold EncounterBalancer.findTacticalPositions. cbv zeta.
    rewrite E. cbn [rbind]. fold sorted. subst k total.
    rewrite !Z.add_0_l. reflexivity. }
  split.
  { rewrite length_take. subst k. rewrite <- Hperm. lia. }
  split; [exact Hsub|]. split.
  { rewrite Forall_forall in *. intros p Hp. apply Hdesc.
    eapply elem_of_submseteq; eassumption. }
  split.
  { assert (Hnd : NoDup (EncounterBalancer.position <$> candidates)).
    { rewrite Hpos. apply NoDup_ListNoDup, List.NoDup_filter, NoDup_ListNoDup.
      apply scan_order_NoDup. }
    apply (fmap_submseteq EncounterBalancer.position) in Hsub.
    apply submseteq_Permutation in Hsub. destruct Hsub as [rest Hrest].
    rewrite Hrest in Hnd. apply NoDup_app in Hnd. apply Hnd. }
  split; [exact Hs|].
  intros p q Hp Hq Hnq. apply Hcross; [exact Hp|].
  rewrite <- Hperm, <- (take_drop k sorted) in Hq.
  apply elem_of_app in Hq. destruct Hq as [Hq|Hq]; [contradiction | exact Hq].
Qed.

Lemma findTacticalPositions_takes_the_best_witness :
  let totalMonsters := 1 + 1 + 0 + 0 in
  exists candidates chosen,
    EncounterBalancer.analyzeAllPositions arena = Ok candidates /\
    EncounterBalancer.findTacticalPositions arena
      (EncounterBalancer.mkRoles 1 1 0 0) = Ok chosen /\
    Z.of_nat (length chosen)
    = Z.max 0 (Z.min totalMonsters (Z.of_nat (length candidates))) /\
    chosen ⊆+ candidates /\
    Forall (describes arena) chosen /\
    NoDup (EncounterBalancer.position <$> chosen) /\
    StronglySorted outranks chosen /\
    (forall p q, p ∈ chosen -> q ∈ candidates -> q ∉ chosen -> outranks p q).
Proof.
  apply (findTacticalPositions_takes_the_best arena
           (EncounterBalancer.mkRoles 1 1 0 0)).
  vm_compute. reflexivity.
Defined.

(** ** The compressed map of a generator *)

Lemma generate_shaped (c : GenerationConfig) (fuel : nat) :
  In (algorithm c) ["cellular"; "drunkard"; "template"] ->
  1 <= width c < 2 ^ 32 -> 1 <= height c < 2 ^ 32 ->
  exists terrain g',
    generate fuel (new_TerrainGenerator c) = Ok (terrain, g') /\
    shaped (width c) (height c) terrain.
Proof.
  intros Halg Hw Hh.
  assert (H : returns (generate_body fuel c) (shaped (width c) (height c))).
  { unfold generate_body. cbv zeta.
    destruct Halg as [<- | [<- | [<- | []]]]; cbn [String.eqb Ascii.eqb Bool.eqb].
    - eapply returns_weaken; [apply generateCellular_filled; assumption|].
      intros t Ht. apply Ht.
    - eapply returns_weaken; [apply generateDrunkardWalk_cave; assumption|].
      intros t Ht. apply Ht.
    - unfold generateTemplate.
      apply returns_bind with (1 := createBaseTemplate_walled c Hw Hh).
      intros t [Hs He]. unfold varyTemplate. cbv zeta.
      eapply returns_weaken;
        [apply (sprinkleInterior_edged c _ "wall" (width c) (height c) t);
           [lia | exact Hs | exact He]|].
      intros t' Ht'. apply Ht'. }
  destruct (H (Rng.seededRandom (seed c))) as (terrain & s' & E & Hs).
  exists terrain, (mkGenerator c s'). split; [|exact Hs].
  unfold generate, new_TerrainGenerator; cbn [config stream].
  rewrite E. reflexivity.
Qed.

(** X19: the compressed map of a generator carries the grid it
    generates.  For the automaton, random-walk and template layouts on a
    grid of at least one row and one column, [generateCompressedMap]
    returns data whose dimensions, seed and theme are those of the
    configuration, with one row per grid row, and expanding the segments
    of row [y] gives back row [y] of the grid [generate()] returns for the
    same configuration. *)
Theorem compressed_map_carries_the_grid (c : GenerationConfig) (fuel : nat)
    (Halg : In (algorithm c) ["cellular"; "drunkard"; "template"])
    (Hw : 1 <= width c < 2 ^ 32) (Hh : 1 <= height c < 2 ^ 32) :
  exists data terrain g',
    generateCompressedMap fuel (new_TerrainGenerator c) = Ok (data, g') /\
    generate fuel (new_TerrainGenerator c) = Ok (terrain, g') /\
    MapCompression.dimensions data
    = MapCompression.mkDimensions (Some (width c)) (Some (height c)) /\
    MapCompression.seed (MapCompression.metadata data) = Some (seed c) /\
    MapCompression.theme (MapCompression.metadata data) = Some (theme c) /\
    Z.of_nat (length (MapCompression.rleData data)) = height c /\
    forall x y, 0 <= x < width c -> 0 <= y < height c ->
      exists r,
        MapCompression.rleData data !! Z.to_nat y = Some r /\
        MapCompression.y r = y /\
        len (MapCompression.expandSegments (MapCompression.segments r))
        = width c /\
        arr_get (MapCompression.expandSegments (MapCompression.segments r)) x
        = cell_at terrain x y.
Proof.
  destruct (generate_shaped c fuel Halg Hw Hh) as (terrain & g' & E & Hs).
  exists (MapCompression.compressMap terrain (seed c) (theme c)), terrain, g'.
  assert (Hfirst : match terrain with r :: _ => len r | [] => 0 end = width c).
  { destruct Hs as [Hh' Hrows]. destruct terrain as [|r0 rest].
    - change (height_of []) with 0 in Hh'. lia.
    - apply Forall_cons in Hrows. apply Hrows. }
  split.
  { unfold generateCompressedMap. rewrite E. reflexivity. }
  split; [exact E|]. split.
  { unfold MapCompression.compressMap; cbn [MapCompression.dimensions].
    rewrite Hfirst. destruct Hs as [-> _]. reflexivity. }
  split; [reflexivity|]. split; [reflexivity|]. split.
  { unfold MapCompression.compressMap; cbn [MapCompression.rleData].
    rewrite length_imap. apply Hs. }
  intros x y Hx Hy.
  destruct (row_at_shaped _ _ terrain y Hs Hy) as (row & Hrow & Hlen).
  assert (Hlookup : terrain !! Z.to_nat y = Some row).
  { unfold row_at in Hrow. destruct (y <? 0); [discriminate | exact Hrow]. }
  eexists. split; [apply compressMap_row, Hlookup|].
  cbn [MapCompression.y MapCompression.segments]. split; [lia|].
  rewrite Hfirst.
  destruct (expand_compressRow_cells (width c) row Hw) as [Hl Hg].
  split; [exact Hl|]. rewrite Hg by exact Hx.
  unfold cell_at. rewrite Hrow. reflexivity.
Qed.

Lemma compressed_map_carries_the_grid_witness :
  exists data terrain g',
    generateCompressedMap 0 (new_TerrainGenerator cave_6x6) = Ok (data, g') /\
    generate 0 (new_TerrainGenerator cave_6x6) = Ok (terrain, g') /\
    MapCompression.dimensions data
    = MapCompression.mkDimensions (Some 6) (Some 6) /\
    MapCompression.seed (MapCompression.metadata data) = Some 12345 /\
    MapCompression.theme (MapCompression.metadata data) = Some "dungeon" /\
    Z.of_nat (length (MapCompression.rleData data)) = 6 /\
    forall x y, 0 <= x < 6 -> 0 <= y < 6 ->
      exists r,
        MapCompression.rleData data !! Z.to_nat y = Some r /\
        MapCompression.y r = y /\
        len (MapCompression.expandSegments (MapCompression.segments r)) = 6 /\
        arr_get (MapCompression.expandSegments (MapCompression.segments r)) x
        = cell_at terrain x y.
Proof.
  apply (compressed_map_carries_the_grid cave_6x6 0);
    [left; reflexivity | cbn; lia | cbn; lia].
Defined.

(** ** Ranges of the tactical scores *)

Lemma neighbour_sum_range (offsets : list (Z * Z)) (t : Grid) (x y : Z)
    (weight : Z -> Z -> cell -> Z) (hi : Z) :
  0 <= hi ->
  (forall nx ny c, 0 <= weight nx ny c <= hi) ->
  0 <= neighbour_sum offsets t x y weight <= hi * Z.of_nat (length offsets).
Proof.
  intros Hhi Hw. unfold neighbour_sum.
  induction offsets as [|[dx dy] l IH]; cbn [fmap list_fmap foldr length].
  - lia.
  - destruct (inside t (x + dx) (y + dy)).
    + specialize (Hw (x + dx) (y + dy) (cell_at t (x + dx) (y + dy))). lia.
    + lia.
Qed.

Lemma neighbour_sum_add (offsets : list (Z * Z)) (t : Grid) (x y : Z)
    (v w : Z -> Z -> cell -> Z) :
  neighbour_sum offsets t x y v + neighbour_sum offsets t x y w
  = neighbour_sum offsets t x y (fun nx ny c => v nx ny c + w nx ny c).
Proof.
  unfold neighbour_sum.
  induction offsets as [|[dx dy] l IH]; cbn [fmap list_fmap foldr].
  - reflexivity.
  - destruct (inside t (x + dx) (y + dy)); lia.
Qed.

Lemma base_value_range (c : cell) :
  1 <= EncounterBalancer.getTerrainTacticalValue c <= 12.
Proof.
  unfold EncounterBalancer.getTerrainTacticalValue.
  repeat (match goal with
          | |- context [if ?b then _ else _] => destruct b
          end; [lia|]).
  lia.
Qed.

(** X20: the ranges of the tactical scores.  On a grid none of whose
    cells is named after a member of [Object.prototype], for every cell
    of a row of the grid the four calculations return numbers: the cover
    is between 0 and 8, the flanking count between 0 and 8, the mobility
    between 0 and 8 (a terrain that can be entered costs at least 1), and
    the tactical value between 1 and 156. *)
Theorem tactical_scores_are_bounded (t : Grid) (x y : Z)
    (Hrow : 0 <= y < height_of t) (Hids : ordinary t = true) :
  exists cover flanking mobility value,
    EncounterBalancer.calculateCover t x y = Ok cover /\
    EncounterBalancer.calculateFlanking t x y = Ok flanking /\
    EncounterBalancer.calculateMobility t x y = Ok (Some mobility) /\
    EncounterBalancer.calculateTacticalValue t x y = Ok (Some value) /\
    (0 <= cover <= 8)%Q /\ 0 <= flanking <= 8 /\ 0 <= mobility <= 8 /\
    (1 <= value <= 156)%Q.
Proof.
  assert (Hh : 0 < height_of t) by lia.
  destruct (calculateCover_spec t x y Hh) as (cover & Ecover & Hcover).
  assert (Hf : 0 <= flanking_of t x y <= 8).
  { unfold flanking_of.
    pose proof (neighbour_sum_range around t x y
      (fun nx ny c => indicator (walkable c && (3 <=? open_lanes t nx ny))) 1)
      as H. cbn [length around] in H.
    apply H; [lia|]. intros nx ny c. unfold indicator.
    destruct (_ && _); lia. }
  set (n1 := neighbour_sum around t x y
               (fun _ _ c => indicator (blocks_sight c))).
  set (n2 := neighbour_sum around t x y
               (fun _ _ c => indicator (negb (blocks_sight c)
                                        && partial_cover c))).
  assert (Hn1 : 0 <= n1).
  { apply (neighbour_sum_range around t x y _ 1); [lia|].
    intros nx ny c. unfold indicator. destruct (_ c); lia. }
  assert (Hn2 : 0 <= n2).
  { apply (neighbour_sum_range around t x y _ 1); [lia|].
    intros nx ny c. unfold indicator. destruct (_ && _); lia. }
  assert (Hn : n1 + n2 <= 8).
  { unfold n1, n2. rewrite neighbour_sum_add.
    pose proof (neighbour_sum_range around t x y
      (fun _ _ c => indicator (blocks_sight c)
                    + indicator (negb (blocks_sight c)
                                 && partial_cover c)) 1) as H.
    cbn [length around] in H. apply H; [lia|]. intros nx ny c.
    unfold indicator. destruct (blocks_sight c);
      cbn [negb andb]; [lia|]. destruct (partial_cover c); lia. }
  assert (Hc : (0 <= cover_of t x y <= 8)%Q).
  { unfold cover_of. fold n1 n2. clearbody n1 n2.
    unfold Qle, Qplus, Qmult, inject_Z. cbn. lia. }
  pose proof (base_value_range (cell_at t x y)) as Hb.
  destruct (mobility_of_ordinary t x y Hids) as (mobility & Em & Hm).
  destruct (calculateTacticalValue_spec t x y Hrow) as (value & Evalue & Hvalue).
  unfold tactical_value in Hvalue. rewrite Em in Hvalue.
  destruct value as [value|]; [|contradiction Hvalue].
  cbn [same_number] in Hvalue.
  exists cover, (flanking_of t x y), mobility, value.
  split; [exact Ecover|].
  split; [apply calculateFlanking_spec, Hh|].
  split; [rewrite calculateMobility_spec by exact Hh; rewrite Em; reflexivity|].
  split; [exact Evalue|].
  split; [rewrite Hcover; exact Hc|].
  split; [exact Hf|]. split; [exact Hm|].
  rewrite Hvalue. unfold elevation_of.
  revert Hc. unfold cover_of. fold n1 n2. clearbody n1 n2.
  generalize (flanking_of t x y)
    (EncounterBalancer.getTerrainTacticalValue (cell_at t x y)) Hf Hb.
  intros f b Hf' Hb'.
  unfold Qle, Qplus, Qmult, inject_Z. cbn. intros Hc. lia.
Qed.

Lemma tactical_scores_are_bounded_witness :
  exists cover flanking mobility value,
    EncounterBalancer.calculateCover arena 1 1 = Ok cover /\
    EncounterBalancer.calculateFlanking arena 1 1 = Ok flanking /\
    EncounterBalancer.calculateMobility arena 1 1 = Ok (Some mobility) /\
    EncounterBalancer.calculateTacticalValue arena 1 1 = Ok (Some value) /\
    (0 <= cover <= 8)%Q /\ 0 <= flanking <= 8 /\ 0 <= mobility <= 8 /\
    (1 <= value <= 156)%Q.
Proof.
  apply (tactical_scores_are_bounded arena 1 1).
  - vm_compute. split; [discriminate | reflexivity].
  - vm_compute. reflexivity.
Defined.
